(** * Anime downloader: scraping layer, download queue and progress parser

    A shallow embedding of the Electron main process ([src/main.ts]):
    - the redirect resolution of [fetchUrl];
    - [decodeHtmlEntities] and the normalisation of image URLs;
    - the loop of [searchAnime] over the anchors of a search page;
    - of [getAnimeDetail], the extraction of seasons and episodes (both
      strategies) and the post-processing of the seasons;
    - the download manager: [startDownload], [processQueue], the handlers
      of the worker's [stdout], [stderr], [close] and [error] events, and
      the handlers of the [start-download] and [cancel-download] requests.

    The document tree of a fetched page is the work of the HTML parser:
    the extraction is given what its selectors find there.  The window and
    the worker processes are handles; what is sent to them is recorded in
    the state.

    JavaScript strings are sequences of UTF-16 code units, and the code
    measures them in code units ([title.length > 1], [text.length < 10]), so
    a string is a [list N] of code units here.  JavaScript numbers that the
    code only ever obtains from [parseInt] of a digit run, from counters or
    from exit codes are integers of [Z]; the percentage obtained from
    [parseFloat] is the rational number its decimal literal denotes. *)

From Stdlib Require Import ZArith NArith QArith List String Ascii Lia Bool.
From Stdlib Require Import Sorting.Sorted Sorting.Permutation DecimalString.
From stdpp Require Import base gmap sets list.
Import ListNotations.

Local Open Scope Z_scope.

(** ** JavaScript strings *)

Abbreviation jsstring := (list N).

Module JS.

(** Decoding of the UTF-8 bytes of a literal of this file into code points. *)
Fixpoint utf8_decode (bs : list N) : list N :=
  match bs with
  | [] => []
  | b0 :: r =>
    if (b0 <? 0x80)%N then b0 :: utf8_decode r
    else if (b0 <? 0xE0)%N then
      match r with
      | b1 :: r1 =>
        N.lor (N.shiftl (N.land b0 0x1F) 6) (N.land b1 0x3F) :: utf8_decode r1
      | _ => [0xFFFD%N]
      end
    else if (b0 <? 0xF0)%N then
      match r with
      | b1 :: b2 :: r2 =>
        N.lor (N.shiftl (N.land b0 0x0F) 12)
          (N.lor (N.shiftl (N.land b1 0x3F) 6) (N.land b2 0x3F))
        :: utf8_decode r2
      | _ => [0xFFFD%N]
      end
    else
      match r with
      | b1 :: b2 :: b3 :: r3 =>
        N.lor (N.shiftl (N.land b0 0x07) 18)
          (N.lor (N.shiftl (N.land b1 0x3F) 12)
             (N.lor (N.shiftl (N.land b2 0x3F) 6) (N.land b3 0x3F)))
        :: utf8_decode r3
      | _ => [0xFFFD%N]
      end
  end.

(** A code point as one code unit, or as a surrogate pair. *)
Definition utf16_units (cp : N) : list N :=
  if (cp <? 0x10000)%N then [cp]
  else
    let v := (cp - 0x10000)%N in
    [(0xD800 + N.shiftr v 10)%N; (0xDC00 + N.land v 0x3FF)%N].

Fixpoint bytes_of (s : string) : list N :=
  match s with
  | EmptyString => []
  | String a r => N_of_ascii a :: bytes_of r
  end.

(** The JavaScript string a source literal denotes. *)
Definition lit (s : string) : jsstring :=
  flat_map utf16_units (utf8_decode (bytes_of s)).

(** ECMAScript [WhiteSpace] and [LineTerminator] code units: what
    [String.prototype.trim] strips and what [\s] matches. *)
Definition isWhiteSpace (c : N) : bool :=
  ((9 <=? c) && (c <=? 13) || (c =? 32) || (c =? 0xA0) || (c =? 0x1680)
   || (0x2000 <=? c) && (c <=? 0x200A) || (c =? 0x2028) || (c =? 0x2029)
   || (c =? 0x202F) || (c =? 0x205F) || (c =? 0x3000) || (c =? 0xFEFF))%N.

(** [LineTerminator]: what [.] does not match. *)
Definition isLineTerminator (c : N) : bool :=
  ((c =? 10) || (c =? 13) || (c =? 0x2028) || (c =? 0x2029))%N.

Fixpoint dropWhile {A} (p : A -> bool) (l : list A) : list A :=
  match l with
  | [] => []
  | x :: r => if p x then dropWhile p r else l
  end.

Definition trimStart (s : jsstring) : jsstring := dropWhile isWhiteSpace s.
Definition trimEnd (s : jsstring) : jsstring :=
  rev (dropWhile isWhiteSpace (rev s)).

(** [s.trim()] *)
Definition trim (s : jsstring) : jsstring := trimEnd (trimStart s).

(** [s.startsWith(p)] *)
Fixpoint startsWith (s p : jsstring) : bool :=
  match p, s with
  | [], _ => true
  | _ :: _, [] => false
  | c :: p', d :: s' => (c =? d)%N && startsWith s' p'
  end.

(** [s.includes(p)] *)
Fixpoint includes (s p : jsstring) : bool :=
  startsWith s p ||
  match s with
  | [] => false
  | _ :: s' => includes s' p
  end.

(** [s.replace(/p/g, r)] for a pattern [p] that is a non-empty literal:
    the occurrences are found from left to right and do not overlap. *)
Fixpoint replaceAll_fuel (fuel : nat) (p r s : jsstring) : jsstring :=
  match fuel with
  | O => s
  | S f =>
    match s with
    | [] => []
    | c :: s' =>
      if startsWith s p then r ++ replaceAll_fuel f p r (drop (length p) s)
      else c :: replaceAll_fuel f p r s'
    end
  end.

Definition replaceAll (p r s : jsstring) : jsstring :=
  replaceAll_fuel (length s) p r s.

(** [s.split(sep)] for a separator that is one code unit. *)
Fixpoint splitChar (sep : N) (s : jsstring) : list jsstring :=
  match s with
  | [] => [[]]
  | c :: s' =>
    if (c =? sep)%N then [] :: splitChar sep s'
    else
      match splitChar sep s' with
      | [] => [[c]]
      | h :: t => (c :: h) :: t
      end
  end.

(** [String(n)] of an integer. *)
Definition ofZ (n : Z) : jsstring :=
  lit (NilZero.string_of_int (Z.to_int n)).

(** The value of a run of decimal digits, most significant first. *)
Definition isDigit (c : N) : bool := ((48 <=? c) && (c <=? 57))%N.

Fixpoint digitsValue (acc : Z) (s : jsstring) : Z :=
  match s with
  | [] => acc
  | c :: r => digitsValue (10 * acc + Z.of_N (c - 48)) r
  end.

Fixpoint takeWhile {A} (p : A -> bool) (l : list A) : list A :=
  match l with
  | [] => []
  | x :: r => if p x then x :: takeWhile p r else []
  end.

(** [parseInt(s)] (radix 10) on the strings the code passes to it: they are
    captures of [\d+], so neither a sign nor a [0x] prefix occurs.  Leading
    white space is skipped and the longest digit prefix is read; no digit
    gives [NaN], here [None]. *)
Definition parseInt (s : jsstring) : option Z :=
  let ds := takeWhile isDigit (trimStart s) in
  match ds with
  | [] => None
  | _ => Some (digitsValue 0 ds)
  end.

(** [parseFloat(s)] on the strings the code passes to it, captures of
    [\d+\.?\d*]: the rational the decimal literal denotes.  JavaScript
    rounds it to the nearest double. *)
Definition parseFloat (s : jsstring) : option Q :=
  let t := trimStart s in
  let ip := takeWhile isDigit t in
  let rest := drop (length ip) t in
  let fp := match rest with
            | 46%N :: r => takeWhile isDigit r
            | _ => []
            end in
  match ip, fp with
  | [], [] => None
  | _, _ =>
    Some (Qred (Qmake (digitsValue 0 (ip ++ fp))
                  (Nat.iter (length fp) (Pos.mul 10) 1%positive)))
  end.

End JS.

(** ** [Array.prototype.sort] with a comparator

    The sort of V8 is stable; a stable sort is determined by the comparator,
    so it is the stable insertion sort here. *)

Section ArraySort.
Context {A : Type} (cmp : A -> A -> Z).

Fixpoint insert_sorted (x : A) (l : list A) : list A :=
  match l with
  | [] => [x]
  | y :: l' => if cmp x y <=? 0 then x :: l else y :: insert_sorted x l'
  end.

Definition array_sort (l : list A) : list A := foldr insert_sorted [] l.
End ArraySort.

(** ** Data model *)

Record Episode := mkEpisode {
  ep_number : Z;
  ep_title : jsstring;
  ep_href : jsstring
}.

Record Season := mkSeason {
  season_name : jsstring;
  season_episodes : list Episode
}.

(** ** [getAnimeDetail]: post-processing *)

(** [(a, b) => a.number - b.number] *)
Definition byNumber (a b : Episode) : Z := ep_number a - ep_number b.

(** [let seqNum = 1; for (const ep of episodes) { if (ep.number === 0)
    ep.number = seqNum; seqNum = ep.number + 1; }] *)
Fixpoint renumber (seqNum : Z) (eps : list Episode) : list Episode :=
  match eps with
  | [] => []
  | ep :: r =>
    let ep' := if ep_number ep =? 0
               then mkEpisode seqNum (ep_title ep) (ep_href ep) else ep in
    ep' :: renumber (ep_number ep' + 1) r
  end.

Definition sortAndFix (eps : list Episode) : list Episode :=
  renumber 1 (array_sort byNumber eps).

(** [for (const season of seasons) { season.episodes.sort(...); ... }] *)
Definition postProcessSeason (s : Season) : Season :=
  mkSeason (season_name s) (sortAndFix (season_episodes s)).

Definition postProcess (seasons : list Season) : list Season :=
  map postProcessSeason seasons.

(** ** Regular expressions

    A backtracking matcher in the continuation style of the ECMAScript
    specification: a pattern is matched against the rest of the input and
    hands the input it leaves, with the captures, to a continuation, which
    may fail and so make the pattern try its next choice.  Greedy and lazy
    repetition differ in the order in which they try one more iteration and
    the continuation; an iteration that consumes nothing is refused, as
    ECMAScript refuses it. *)

Module Regex.

Inductive re :=
| Eps
| Chr (p : N -> bool)
| Seq (a b : re)
| Alt (a b : re)
| Star (greedy : bool) (a : re)
| Grp (i : nat) (a : re).

Definition caps := list (option jsstring).

Section Matcher.
Context {X : Type}.

Fixpoint star_loop (step : (jsstring -> caps -> option X) ->
                           jsstring -> caps -> option X)
    (greedy : bool) (k : jsstring -> caps -> option X)
    (fuel : nat) (s : jsstring) (c : caps) : option X :=
  match fuel with
  | O => None
  | S f =>
    let more :=
      step (fun s' c' =>
              if (length s' <? length s)%nat
              then star_loop step greedy k f s' c' else None) s c in
    if greedy then
      match more with
      | Some r => Some r
      | None => k s c
      end
    else
      match k s c with
      | Some r => Some r
      | None => more
      end
  end.

Fixpoint m (r : re) (k : jsstring -> caps -> option X)
    (s : jsstring) (c : caps) {struct r} : option X :=
  match r with
  | Eps => k s c
  | Chr p =>
    match s with
    | x :: s' => if p x then k s' c else None
    | [] => None
    end
  | Seq a b => m a (fun s' c' => m b k s' c') s c
  | Alt a b =>
    match m a k s c with
    | Some r => Some r
    | None => m b k s c
    end
  | Star g a => star_loop (m a) g k (S (length s)) s c
  | Grp i a =>
    m a (fun s' c' =>
           k s' (<[i := Some (take (length s - length s') s)]> c')) s c
  end.
End Matcher.

(** Number of capture slots of a pattern (slot 0 is the whole match). *)
Fixpoint groups (r : re) : nat :=
  match r with
  | Eps | Chr _ => 0
  | Seq a b | Alt a b => Nat.max (groups a) (groups b)
  | Star _ a => groups a
  | Grp i a => Nat.max i (groups a)
  end.

(** A match anchored at the start of [s]: the input left and the captures. *)
Definition matchAt (r : re) (s : jsstring) : option (jsstring * caps) :=
  m r (fun s' c' => Some (s', c')) s (replicate (S (groups r)) None).

(** [r.exec(s)] without flags: the leftmost position that matches. *)
Fixpoint exec (r : re) (s : jsstring) : option caps :=
  match matchAt r s with
  | Some (s', c) => Some (<[O := Some (take (length s - length s') s)]> c)
  | None =>
    match s with
    | [] => None
    | _ :: t => exec r t
    end
  end.

(** [r.test(s)] *)
Definition test (r : re) (s : jsstring) : bool :=
  match exec r s with Some _ => true | None => false end.

(** [match[i]] of a successful match: [undefined] is [None]. *)
Definition group (c : caps) (i : nat) : option jsstring :=
  match c !! i with
  | Some (Some x) => Some x
  | _ => None
  end.

(** [s.replace(r, rep)] with the [g] flag and a replacement without [$]:
    after a match that consumed nothing the search resumes one code unit
    further. *)
Fixpoint replace_g_fuel (fuel : nat) (r : re) (rep s : jsstring) : jsstring :=
  match fuel with
  | O => s
  | S f =>
    match matchAt r s with
    | Some (s', _) =>
      if (length s' <? length s)%nat then rep ++ replace_g_fuel f r rep s'
      else
        rep ++ match s with
               | [] => []
               | x :: t => x :: replace_g_fuel f r rep t
               end
    | None =>
      match s with
      | [] => []
      | x :: t => x :: replace_g_fuel f r rep t
      end
    end
  end.

Definition replace_g (r : re) (rep s : jsstring) : jsstring :=
  replace_g_fuel (S (length s)) r rep s.

(** [s.split(r)] for a pattern without capture groups, after the loop of
    [RegExp.prototype[Symbol.split]]: [acc] is the text since the end of the
    last separator, [s] the text from the position tried next; a match
    splits unless it is empty and sits at the end of the last separator. *)
Fixpoint split_loop (fuel : nat) (r : re) (acc s : jsstring)
    : list jsstring :=
  match fuel with
  | O => [acc ++ s]
  | S f =>
    match s with
    | [] => [acc]
    | x :: t =>
      match matchAt r s with
      | Some (s', _) =>
        if (length s' =? length s)%nat && bool_decide (acc = [])
        then split_loop f r (acc ++ [x]) t
        else acc :: split_loop f r [] s'
      | None => split_loop f r (acc ++ [x]) t
      end
    end
  end.

Definition split (r : re) (s : jsstring) : list jsstring :=
  match s with
  | [] => match matchAt r s with Some _ => [] | None => [[]] end
  | _ => split_loop (2 * length s + 1) r [] s
  end.

(** Pattern syntax. *)
Definition chr (c : N) : re := Chr (N.eqb c).
Definition plus (a : re) : re := Seq a (Star true a).
Definition star (a : re) : re := Star true a.
Definition lazy_star (a : re) : re := Star false a.
Definition opt (a : re) : re := Alt a Eps.
Definition seqs (l : list re) : re := foldr Seq Eps l.
Definition text (s : jsstring) : re := seqs (map chr s).
Definition digit : re := Chr JS.isDigit.
Definition space : re := Chr JS.isWhiteSpace.
Definition nonspace : re := Chr (fun c => negb (JS.isWhiteSpace c)).
Definition dot : re := Chr (fun c => negb (JS.isLineTerminator c)).
Definition oneOf (s : jsstring) : re := Chr (fun c => bool_decide (c ∈ s)).
Definition alnum : re :=
  Chr (fun c => ((97 <=? c) && (c <=? 122) || (65 <=? c) && (c <=? 90)
                 || (48 <=? c) && (c <=? 57))%N).

End Regex.

(** ** Download manager *)

Definition VIDEO_BASE : jsstring := JS.lit "https://tw.xgcartoon.com".

Record DownloadOptions := mkDownloadOptions {
  opt_cartoonId : jsstring;
  opt_episodes : list Episode;
  opt_outputDir : jsstring;
  opt_detailUrl : jsstring
}.

(** [NaN] is [None] in the two numeric fields. *)
Record ProgressData := mkProgressData {
  pd_cartoonId : jsstring;
  pd_episode : option Z;
  pd_percent : option Q;
  pd_downloaded : option jsstring;
  pd_total : option jsstring;
  pd_speed : option jsstring;
  pd_eta : option jsstring;
  pd_status : option jsstring;
  pd_filename : option jsstring
}.

(** What [win.webContents.send] is called with: the channels
    [download-progress], [download-log], [download-complete] and
    [download-error]. *)
Inductive Message :=
| DownloadProgress (p : ProgressData)
| DownloadLog (line : jsstring)
| DownloadComplete (code : Z)
| DownloadError (message : jsstring).

(** [/chapter_id=([a-zA-Z0-9]+)/] *)
Definition chapterIdRe : Regex.re :=
  Regex.Seq (Regex.text (JS.lit "chapter_id="))
            (Regex.Grp 1 (Regex.plus Regex.alnum)).

(** The pattern of the progress line,
    [/Ep\.(\d+).*?(\d+\.?\d* )%\s*\|\s*(\S+)\/(\S+)\s*\|\s*(\S+\/s)\s*\|.*?\|\s*ETA:\s*(\S+)/]
    (the blank that closes its second group is not in the source). *)
Definition progressRe : Regex.re :=
  Regex.seqs
    [ Regex.text (JS.lit "Ep.");
      Regex.Grp 1 (Regex.plus Regex.digit);
      Regex.lazy_star Regex.dot;
      Regex.Grp 2 (Regex.seqs [ Regex.plus Regex.digit;
                                Regex.opt (Regex.text (JS.lit "."));
                                Regex.star Regex.digit ]);
      Regex.text (JS.lit "%");
      Regex.star Regex.space;
      Regex.text (JS.lit "|");
      Regex.star Regex.space;
      Regex.Grp 3 (Regex.plus Regex.nonspace);
      Regex.text (JS.lit "/");
      Regex.Grp 4 (Regex.plus Regex.nonspace);
      Regex.star Regex.space;
      Regex.text (JS.lit "|");
      Regex.star Regex.space;
      Regex.Grp 5 (Regex.seqs [ Regex.plus Regex.nonspace;
                                Regex.text (JS.lit "/s") ]);
      Regex.star Regex.space;
      Regex.text (JS.lit "|");
      Regex.lazy_star Regex.dot;
      Regex.text (JS.lit "|");
      Regex.star Regex.space;
      Regex.text (JS.lit "ETA:");
      Regex.star Regex.space;
      Regex.Grp 6 (Regex.plus Regex.nonspace) ].

(** [/Ep\.(\d+)/] *)
Definition epRe : Regex.re :=
  Regex.Seq (Regex.text (JS.lit "Ep.")) (Regex.Grp 1 (Regex.plus Regex.digit)).

(** [/\[(\d+)\/(\d+)\]/] *)
Definition skipIdxRe : Regex.re :=
  Regex.seqs [ Regex.text (JS.lit "[");
               Regex.Grp 1 (Regex.plus Regex.digit);
               Regex.text (JS.lit "/");
               Regex.Grp 2 (Regex.plus Regex.digit);
               Regex.text (JS.lit "]") ].

(** [/SKIP\s+(\d+)_/] *)
Definition skipEpRe : Regex.re :=
  Regex.seqs [ Regex.text (JS.lit "SKIP");
               Regex.plus Regex.space;
               Regex.Grp 1 (Regex.plus Regex.digit);
               Regex.text (JS.lit "_") ].

(** [/[\r\n]+/] *)
Definition lineBreakRe : Regex.re :=
  Regex.plus (Regex.oneOf [13%N; 10%N]).

(** [parseInt(match[i])] *)
Definition parseIntGroup (c : Regex.caps) (i : nat) : option Z :=
  match Regex.group c i with
  | Some s => JS.parseInt s
  | None => None
  end.

Definition statusEvent (cid : jsstring) (episode : option Z) (percent : Z)
    (status : string) : Message :=
  DownloadProgress
    (mkProgressData cid episode (Some (inject_Z percent)) None None None None
       (Some (JS.lit status)) None).

(** The body of the loop over the complete lines of a chunk, for a line
    that is trimmed and not empty: what is sent to the window. *)
Definition classifyLine (cid : jsstring) (line : jsstring) : list Message :=
  match Regex.exec progressRe line with
  | Some pm =>
    [DownloadProgress
       (mkProgressData cid (parseIntGroup pm 1)
          (match Regex.group pm 2 with
           | Some s => JS.parseFloat s
           | None => None
           end)
          (Regex.group pm 3) (Regex.group pm 4) (Regex.group pm 5)
          (Regex.group pm 6) None None)]
  | None =>
    if JS.includes line (JS.lit "Done in") then
      match Regex.exec epRe line with
      | Some dm => [statusEvent cid (parseIntGroup dm 1) 100 "done"]
      | None => []
      end
    else if JS.includes line (JS.lit "SKIP") then
      let skipIdxMatch := Regex.exec skipIdxRe line in
      let skipEpMatch := Regex.exec skipEpRe line in
      let epNum :=
        match skipEpMatch with
        | Some em => parseIntGroup em 1
        | None =>
          match skipIdxMatch with
          | Some im => parseIntGroup im 1
          | None => Some 0
          end
        end in
      match epNum with
      | Some n =>
        if 0 <? n then [statusEvent cid (Some n) 100 "skipped"] else []
      | None => []
      end
    else if JS.includes line (JS.lit "FAILED")
            || JS.includes line (replicate 10 88%N) then
      match Regex.exec epRe line with
      | Some fm => [statusEvent cid (parseIntGroup fm 1) 0 "failed"]
      | None => []
      end
    else if JS.includes line (JS.lit "[INFO]")
            || JS.includes line (JS.lit "[COMPLETE]")
            || JS.includes line (JS.lit "[DOWNLOADING]")
            || JS.includes line (JS.lit "[ERROR]")
            || JS.includes line (JS.lit "[WARNING]") then
      [DownloadLog line]
    else []
  end.

(** [const line = rawLine.trim(); if (!line) continue; ...] *)
Definition processLine (cid : jsstring) (rawLine : jsstring) : list Message :=
  let line := JS.trim rawLine in
  match line with
  | [] => []
  | _ => classifyLine cid line
  end.

(** [lines.pop()]: the array without its last element, and that element. *)
Definition pop {A} (l : list A) : list A * option A :=
  match rev l with
  | [] => ([], None)
  | x :: r => (rev r, Some x)
  end.

(** The [stdout] handler on one chunk: the lines it completes, and the
    carry-over [buffer] it leaves. *)
Definition stdoutLines (buffer data : jsstring)
    : list jsstring * jsstring :=
  let buffer := buffer ++ data in
  let '(lines, last) := pop (Regex.split lineBreakRe buffer) in
  (lines, match last with Some ((_ :: _) as b) => b | _ => [] end).

Definition stdoutChunk (cid : jsstring) (buffer data : jsstring)
    : list Message * jsstring :=
  let '(lines, buffer') := stdoutLines buffer data in
  (flat_map (processLine cid) lines, buffer').

(** A whole sequence of chunks, from a given carry-over. *)
Fixpoint stdoutRun (cid : jsstring) (buffer : jsstring)
    (chunks : list jsstring) : list Message * jsstring :=
  match chunks with
  | [] => ([], buffer)
  | data :: rest =>
    let '(ms, buffer') := stdoutChunk cid buffer data in
    let '(ms', buffer'') := stdoutRun cid buffer' rest in
    (ms ++ ms', buffer'')
  end.

(** *** Queue and worker processes *)

(** A [BrowserWindow] and a [ChildProcess] are handles. *)
Definition Win := nat.
Definition Pid := nat.

Record QueueItem := mkQueueItem {
  qi_win : Win;
  qi_options : DownloadOptions
}.

(** One call of [spawn]. *)
Record Spawn := mkSpawn {
  sp_command : jsstring;
  sp_args : list jsstring
}.

(** What the four handlers of one worker process close over: the [win] and
    [cartoonId] of the job, and the [buffer] of the [stdout] handler. *)
Record Closure := mkClosure {
  cl_win : Win;
  cl_cartoonId : jsstring;
  cl_buffer : jsstring
}.

(** What the host gives: [process.platform] and the value of
    [path.join(app.getAppPath(), "scripts", "download_episodes.py")]. *)
Record Host := mkHost {
  platform : jsstring;
  scriptPath : jsstring
}.

(** The module-level variables, then the world outside: the processes
    spawned so far (a process is its index), the handlers attached to them,
    the signals sent by [kill], and the messages sent to windows, each in
    the order of the calls. *)
Record State := mkState {
  downloadQueue : list QueueItem;
  activeDownloadProcess : option Pid;
  queueProcessing : bool;
  mainWindow : option Win;
  spawned : list Spawn;
  closures : gmap nat Closure;
  signals : list (Pid * jsstring);
  sent : list (Win * Message)
}.

Definition initialState (w : option Win) : State :=
  mkState [] None false w [] ∅ [] [].

Definition setQueue (q : list QueueItem) (st : State) : State :=
  mkState q (activeDownloadProcess st) (queueProcessing st) (mainWindow st)
    (spawned st) (closures st) (signals st) (sent st).

Definition setActive (p : option Pid) (st : State) : State :=
  mkState (downloadQueue st) p (queueProcessing st) (mainWindow st)
    (spawned st) (closures st) (signals st) (sent st).

Definition setProcessing (b : bool) (st : State) : State :=
  mkState (downloadQueue st) (activeDownloadProcess st) b (mainWindow st)
    (spawned st) (closures st) (signals st) (sent st).

Definition setClosure (p : Pid) (c : Closure) (st : State) : State :=
  mkState (downloadQueue st) (activeDownloadProcess st) (queueProcessing st)
    (mainWindow st) (spawned st) (<[p := c]> (closures st)) (signals st)
    (sent st).

(** [spawn(command, args)]: the new process. *)
Definition spawn (worker : Spawn) (st : State) : Pid * State :=
  (length (spawned st),
   mkState (downloadQueue st) (activeDownloadProcess st) (queueProcessing st)
     (mainWindow st) (spawned st ++ [worker]) (closures st)
     (signals st) (sent st)).

(** [proc.kill(signal)] *)
Definition kill (p : Pid) (signal : jsstring) (st : State) : State :=
  mkState (downloadQueue st) (activeDownloadProcess st) (queueProcessing st)
    (mainWindow st) (spawned st) (closures st) (signals st ++ [(p, signal)])
    (sent st).

(** [win.webContents.send(channel, payload)] *)
Definition send (w : Win) (msg : Message) (st : State) : State :=
  mkState (downloadQueue st) (activeDownloadProcess st) (queueProcessing st)
    (mainWindow st) (spawned st) (closures st) (signals st)
    (sent st ++ [(w, msg)]).

(** A call returns or throws; the state it leaves is kept either way. *)
Inductive Outcome (A : Type) :=
| Return (a : A)
| Throw (message : jsstring).
Arguments Return {A} a.
Arguments Throw {A} message.

Definition M (A : Type) : Type := State -> State * Outcome A.

Definition ret {A} (a : A) : M A := fun st => (st, Return a).
Definition throw {A} (message : jsstring) : M A := fun st => (st, Throw message).
Definition bind {A B} (c : M A) (f : A -> M B) : M B :=
  fun st =>
    match c st with
    | (st', Return a) => f a st'
    | (st', Throw e) => (st', Throw e)
    end.
Definition modify (f : State -> State) : M unit := fun st => (f st, Return tt).
Definition gets {A} (f : State -> A) : M A := fun st => (st, Return (f st)).

Notation "x <- c ;; k" := (bind c (fun x => k))
  (at level 100, c at next level, right associativity).
Notation "c ;;; k" := (bind c (fun _ => k))
  (at level 100, right associativity).

(** The [TypeError] of reading [href] of [undefined]. *)
Definition undefinedHref : jsstring :=
  JS.lit "Cannot read properties of undefined (reading 'href')".

(** The worker's target URL, from the first requested episode. *)
Definition videoUrlOf (cartoonId : jsstring) (firstEp : Episode) : jsstring :=
  let href := ep_href firstEp in
  if bool_decide (href ≠ []) && JS.includes href (JS.lit "/video/") then
    if JS.startsWith href (JS.lit "http") then href else VIDEO_BASE ++ href
  else
    match Regex.exec chapterIdRe href with
    | Some cm =>
      VIDEO_BASE ++ JS.lit "/video/" ++ cartoonId ++ JS.lit "/"
        ++ default [] (Regex.group cm 1) ++ JS.lit ".html"
    | None =>
      VIDEO_BASE ++ JS.lit "/video/" ++ cartoonId ++ JS.lit "/"
        ++ href ++ JS.lit ".html"
    end.

(** [Math.min(...numbers)] and [Math.max(...numbers)] of a non-empty array. *)
Definition mathMin (n : Z) (rest : list Z) : Z := fold_left Z.min rest n.
Definition mathMax (n : Z) (rest : list Z) : Z := fold_left Z.max rest n.

Section Manager.
Context (host : Host).

Definition pythonCmd : jsstring :=
  if bool_decide (platform host = JS.lit "win32")
  then JS.lit "python" else JS.lit "python3".

(** The command line of the worker for a job whose first requested
    episode is [firstEp]: the script, the target URL and the output
    directory, then the least and the greatest requested number when
    there are requested episodes. *)
Definition workerSpawn (options : DownloadOptions) (firstEp : Episode)
    : Spawn :=
  let videoUrl := videoUrlOf (opt_cartoonId options) firstEp in
  let args := [scriptPath host; videoUrl; opt_outputDir options] in
  let args :=
    match map ep_number (opt_episodes options) with
    | [] => args
    | n :: rest =>
      args ++ [JS.ofZ (mathMin n rest); JS.ofZ (mathMax n rest)]
    end in
  mkSpawn pythonCmd args.

(** [processQueue] up to the attachment of the handlers, which is the
    [setClosure] here.  [episodes[0]] of an empty array is [undefined],
    and reading its [href] throws. *)
Definition processQueue : M unit :=
  q <- gets downloadQueue ;;
  match q with
  | [] => modify (setProcessing false)
  | current :: _ =>
    modify (setProcessing true) ;;;
    let options := qi_options current in
    match opt_episodes options with
    | [] => throw undefinedHref
    | firstEp :: _ =>
      let worker := workerSpawn options firstEp in
      fun st =>
        let '(proc, st) := spawn worker st in
        let st := setActive (Some proc) st in
        (setClosure proc
           (mkClosure (qi_win current) (opt_cartoonId options) []) st,
         Return tt)
    end
  end.

(** [startDownload] *)
Definition startDownload (win : Win) (options : DownloadOptions) : M unit :=
  modify (fun st => setQueue (downloadQueue st ++ [mkQueueItem win options]) st) ;;;
  busy <- gets queueProcessing ;;
  if busy then ret tt else processQueue.

(** [downloadQueue.shift()] *)
Definition shift : M unit :=
  modify (fun st => setQueue (tail (downloadQueue st)) st).

(** The handlers of process [p]; a process without handlers has none to
    run. *)
Definition onStdout (p : Pid) (data : jsstring) : M unit :=
  fun st =>
    match closures st !! p with
    | None => (st, Return tt)
    | Some cl =>
      let '(msgs, buffer) :=
        stdoutChunk (cl_cartoonId cl) (cl_buffer cl) data in
      let st := setClosure p
                  (mkClosure (cl_win cl) (cl_cartoonId cl) buffer) st in
      (fold_left (fun st m => send (cl_win cl) m st) msgs st, Return tt)
    end.

Definition onStderr (p : Pid) (data : jsstring) : M unit :=
  fun st =>
    match closures st !! p with
    | None => (st, Return tt)
    | Some cl =>
      match JS.trim data with
      | [] => (st, Return tt)
      | text =>
        (send (cl_win cl) (DownloadLog (JS.lit "[ERROR] " ++ text)) st,
         Return tt)
      end
    end.

(** [proc.on("close", (code) => ...)]: [code ?? 1]. *)
Definition onClose (p : Pid) (code : option Z) : M unit :=
  fun st =>
    match closures st !! p with
    | None => (st, Return tt)
    | Some cl =>
      (modify (setActive None) ;;;
       modify (send (cl_win cl) (DownloadComplete (default 1 code))) ;;;
       shift ;;;
       processQueue) st
    end.

Definition onError (p : Pid) (message : jsstring) : M unit :=
  fun st =>
    match closures st !! p with
    | None => (st, Return tt)
    | Some cl =>
      (modify (setActive None) ;;;
       modify (send (cl_win cl) (DownloadError message)) ;;;
       shift ;;;
       processQueue) st
    end.

(** What an IPC handler resolves to. *)
Record Reply := mkReply {
  success : bool;
  error : option jsstring
}.

(** [ipcMain.handle("start-download", ...)] *)
Definition handleStartDownload (options : DownloadOptions) : M Reply :=
  fun st =>
    match mainWindow st with
    | None => (st, Return (mkReply false (Some (JS.lit "No window"))))
    | Some w =>
      match startDownload w options st with
      | (st', Return _) => (st', Return (mkReply true None))
      | (st', Throw e) => (st', Return (mkReply false (Some e)))
      end
    end.

(** [ipcMain.handle("cancel-download", ...)] *)
Definition handleCancelDownload : M Reply :=
  modify (setQueue []) ;;;
  active <- gets activeDownloadProcess ;;
  match active with
  | Some p =>
    modify (kill p (JS.lit "SIGTERM")) ;;;
    modify (setActive None) ;;;
    ret (mkReply true None)
  | None => ret (mkReply false (Some (JS.lit "No active download")))
  end.

(** What can happen to the download manager, one event at a time. *)
Inductive Event :=
| StartDownload (options : DownloadOptions)
| CancelDownload
| Stdout (p : Pid) (data : jsstring)
| Stderr (p : Pid) (data : jsstring)
| Close (p : Pid) (code : option Z)
| Error (p : Pid) (message : jsstring).

Definition step (e : Event) (st : State) : State * Outcome (option Reply) :=
  let lift (c : M unit) :=
    match c st with
    | (st', Return _) => (st', Return None)
    | (st', Throw x) => (st', Throw x)
    end in
  match e with
  | StartDownload o =>
    match handleStartDownload o st with
    | (st', Return r) => (st', Return (Some r))
    | (st', Throw x) => (st', Throw x)
    end
  | CancelDownload =>
    match handleCancelDownload st with
    | (st', Return r) => (st', Return (Some r))
    | (st', Throw x) => (st', Throw x)
    end
  | Stdout p d => lift (onStdout p d)
  | Stderr p d => lift (onStderr p d)
  | Close p c => lift (onClose p c)
  | Error p x => lift (onError p x)
  end.

(** The state after a sequence of events; an uncaught exception leaves the
    state as it is and the event loop goes on. *)
Definition run (es : list Event) (st : State) : State :=
  fold_left (fun st e => fst (step e st)) es st.
End Manager.

(** ** Page fetcher: redirects *)

(** The two parts of [new URL(url)] the fetcher reads, for a URL of the
    form [scheme://host...]: [protocol] is the scheme with its colon and
    [host] runs to the first of [/], [?] and [#].  The URLs fetched are
    built on [SEARCH_BASE] or come out of this resolution; user
    information, default ports and letter case are left as they are.
    A string that is not of the form makes the constructor throw. *)
Record URL := mkURL {
  url_protocol : jsstring;
  url_host : jsstring
}.

Definition isHostEnd (c : N) : bool := ((c =? 47) || (c =? 63) || (c =? 35))%N.

Definition parseURL (url : jsstring) : option URL :=
  let scheme := JS.takeWhile (fun c => negb (c =? 58)%N) url in
  let rest := drop (length scheme) url in
  match scheme, rest with
  | _ :: _, 58%N :: 47%N :: 47%N :: r =>
    Some (mkURL (scheme ++ [58%N])
            (JS.takeWhile (fun c => negb (isHostEnd c)) r))
  | _, _ => None
  end.

(** The URL the fetcher recurses on for a [Location] header; [None] when
    [new URL(url)] throws. *)
Definition redirectUrl (url location : jsstring) : option jsstring :=
  if JS.startsWith location (JS.lit "/") then
    parsed ← parseURL url;
    Some (url_protocol parsed ++ JS.lit "//" ++ url_host parsed ++ location)
  else if negb (JS.startsWith location (JS.lit "http")) then
    parsed ← parseURL url;
    Some (url_protocol parsed ++ JS.lit "//" ++ url_host parsed
            ++ JS.lit "/" ++ location)
  else Some location.

(** What the network answers: [res.statusCode], [res.headers.location] and
    the body. *)
Record Response := mkResponse {
  statusCode : option Z;
  location : option jsstring;
  body : jsstring
}.

Inductive Fetched :=
| Resolved (text : jsstring)
| Rejected (message : jsstring)
| Uncaught (message : jsstring)
| Pending.

(** [fetchUrl]: the source follows redirects without a bound, so the model
    counts them down and is [Pending] when the count is used up.  The
    network answers a URL with a response, a transport error or a timeout
    (both as the message the promise is rejected with). *)
Fixpoint fetchUrl (redirects : nat) (net : jsstring -> Response + jsstring)
    (url : jsstring) : Fetched :=
  match net url with
  | inr message => Rejected message
  | inl res =>
    let redirect :=
      match statusCode res, location res with
      | Some code, Some ((_ :: _) as loc) =>
        if (code =? 0) then None
        else if (300 <=? code) && (code <? 400) then Some loc else None
      | _, _ => None
      end in
    match redirect with
    | Some loc =>
      match redirectUrl url loc with
      | None => Uncaught (JS.lit "Invalid URL")
      | Some target =>
        match redirects with
        | O => Pending
        | S n => fetchUrl n net target
        end
      end
    | None =>
      if bool_decide (statusCode res = Some 200) then Resolved (body res)
      else Rejected (JS.lit "HTTP " ++
                       match statusCode res with
                       | Some c => JS.ofZ c
                       | None => JS.lit "undefined"
                       end)
    end
  end.

(** ** Scraping *)

Definition SEARCH_BASE : jsstring := JS.lit "https://tw.xgcartoon.com".
Definition IMAGE_BASE : jsstring := JS.lit "https://static-a.xgcartoon.com".

Definition decodeHtmlEntities (str : jsstring) : jsstring :=
  JS.replaceAll (JS.lit "&#39;") (JS.lit "'")
    (JS.replaceAll (JS.lit "&quot;") [34%N]
       (JS.replaceAll (JS.lit "&gt;") (JS.lit ">")
          (JS.replaceAll (JS.lit "&lt;") (JS.lit "<")
             (JS.replaceAll (JS.lit "&amp;") (JS.lit "&") str)))).

(** The five entity tokens. *)
Definition entities : list jsstring :=
  [JS.lit "&amp;"; JS.lit "&lt;"; JS.lit "&gt;"; JS.lit "&quot;";
   JS.lit "&#39;"].

(** [a || b] on strings and attribute values: the first that is present and
    not empty. *)
Definition orElse (a : option jsstring) (b : jsstring) : jsstring :=
  match a with
  | Some ((_ :: _) as x) => x
  | _ => b
  end.

(** Protocol-relative and root-relative image URLs made absolute, then
    entity-decoded. *)
Definition fixImage (image : jsstring) : jsstring :=
  let image :=
    if bool_decide (image ≠ []) && negb (JS.startsWith image (JS.lit "http"))
    then
      if JS.startsWith image (JS.lit "//") then JS.lit "https:" ++ image
      else if JS.startsWith image (JS.lit "/") then IMAGE_BASE ++ image
      else image
    else image in
  decodeHtmlEntities image.

(** *** [searchAnime] *)

Record SearchResult := mkSearchResult {
  sr_title : jsstring;
  sr_image : jsstring;
  sr_tags : list jsstring;
  sr_author : jsstring;
  sr_detailUrl : jsstring
}.

(** What the loop reads of one anchor matched by [a[href*="/detail/"]], as
    the document tree gives it: its [href]; the [src] of its first
    [amp-img] descendant, if it has one; the [data-src] and [src] of its
    first [img] descendant; the text of each descendant matched by the
    title selectors, in document order; its own text; the text of each
    descendant matched by the tag selectors; the text of the descendants
    matched by the author selectors, concatenated. *)
Record SearchAnchor := mkSearchAnchor {
  sa_href : option jsstring;
  sa_ampImg : option (option jsstring);
  sa_imgDataSrc : option jsstring;
  sa_imgSrc : option jsstring;
  sa_titleTexts : list jsstring;
  sa_text : jsstring;
  sa_tagTexts : list jsstring;
  sa_authorText : jsstring
}.

(** [href] made an absolute detail URL. *)
Definition absoluteUrl (href : jsstring) : jsstring :=
  if JS.startsWith href (JS.lit "/") then SEARCH_BASE ++ href
  else if negb (JS.startsWith href (JS.lit "http"))
  then SEARCH_BASE ++ JS.lit "/" ++ href
  else href.

Definition anchorDetailUrl (el : SearchAnchor) : jsstring :=
  absoluteUrl (orElse (sa_href el) []).

Definition anchorImage (el : SearchAnchor) : jsstring :=
  let image :=
    match sa_ampImg el with
    | Some src => orElse src []
    | None => []
    end in
  let image :=
    match image with
    | [] => orElse (sa_imgDataSrc el) (orElse (sa_imgSrc el) [])
    | _ => image
    end in
  fixImage image.

Definition longer (best line : jsstring) : jsstring :=
  if (length best <? length line)%nat then line else best.

Definition anchorTitle (el : SearchAnchor) : jsstring :=
  let title :=
    fold_left (fun title t => longer title (JS.trim t)) (sa_titleTexts el) [] in
  match title with
  | [] =>
    let allText := JS.trim (sa_text el) in
    let lines :=
      List.filter (fun l => (2 <? length l)%nat)
        (map JS.trim (JS.splitChar 10 allText)) in
    fold_left longer lines []
  | _ => title
  end.

Definition anchorTags (el : SearchAnchor) : list jsstring :=
  List.filter
    (fun text => bool_decide (text ≠ []) && (length text <? 10)%nat
                 && negb (JS.includes text [10%N]))
    (map JS.trim (sa_tagTexts el)).

(** [if (title && title.length > 1)] *)
Definition titleAccepted (title : jsstring) : bool :=
  bool_decide (title ≠ []) && (1 <? length title)%nat.

(** The body of the [each] callback on one anchor: [results] and [seenUrls]
    before and after. *)
Definition searchStep (acc : list SearchResult * gset jsstring)
    (el : SearchAnchor) : list SearchResult * gset jsstring :=
  let '(results, seenUrls) := acc in
  let detailUrl := anchorDetailUrl el in
  if bool_decide (detailUrl ∈ seenUrls) then acc
  else
    let seenUrls := {[detailUrl]} ∪ seenUrls in
    let image := anchorImage el in
    let title := anchorTitle el in
    let tags := anchorTags el in
    let author := JS.trim (sa_authorText el) in
    if titleAccepted title
    then (results ++ [mkSearchResult title image tags author detailUrl],
          seenUrls)
    else (results, seenUrls).

(** [searchAnime] on the anchors of the fetched page. *)
Definition searchAnime (anchors : list SearchAnchor) : list SearchResult :=
  fst (fold_left searchStep anchors ([], ∅)).

(** *** [getAnimeDetail]: seasons and episodes *)

(** An [a.goto-chapter] element: its text and its [href] attribute. *)
Record Link := mkLink {
  ln_text : jsstring;
  ln_href : option jsstring
}.

(** A child of the season container: whether it has the class
    [volume-title], its text, and its [a.goto-chapter] descendants in
    document order. *)
Record Child := mkChild {
  ch_isVolumeTitle : bool;
  ch_text : jsstring;
  ch_links : list Link
}.

(** What the extraction reads of the detail page: the children of the
    parent of the first [.volume-title] element, when there is such an
    element, and all the [a.goto-chapter] elements of the document, in
    document order. *)
Record DetailPage := mkDetailPage {
  dp_container : option (list Child);
  dp_links : list Link
}.

Definition SKIP_WORDS : list jsstring :=
  [JS.lit "播放"; JS.lit "收藏"; JS.lit "分享"; JS.lit "舉報";
   JS.lit "登入"; JS.lit "登錄"; JS.lit "注冊"; JS.lit "註冊"].

(** [/\s+/g] *)
Definition spacesRe : Regex.re := Regex.plus Regex.space.

(** [/第\s*\d+\s*集\s*第\d+話/] *)
Definition shortcutRe : Regex.re :=
  Regex.seqs [ Regex.text (JS.lit "第");
               Regex.star Regex.space;
               Regex.plus Regex.digit;
               Regex.star Regex.space;
               Regex.text (JS.lit "集");
               Regex.star Regex.space;
               Regex.text (JS.lit "第");
               Regex.plus Regex.digit;
               Regex.text (JS.lit "話") ].

(** [/第\s*(\d+)\s*[話话集]/] *)
Definition numberRe : Regex.re :=
  Regex.seqs [ Regex.text (JS.lit "第");
               Regex.star Regex.space;
               Regex.Grp 1 (Regex.plus Regex.digit);
               Regex.star Regex.space;
               Regex.oneOf (JS.lit "話话集") ].

(** [$link.text().trim().replace(/\s+/g, " ")]: the text of a set of
    elements is the concatenation of their texts. *)
Definition linkTitle (links : list Link) : jsstring :=
  Regex.replace_g spacesRe (JS.lit " ") (JS.trim (concat (map ln_text links))).

(** [$link.attr("href") || ""]: the attribute of the first element. *)
Definition linkHref (links : list Link) : jsstring :=
  match links with
  | l :: _ => orElse (ln_href l) []
  | [] => []
  end.

(** The three text tests that skip an item that is not an episode. *)
Definition textRejected (epTitle : jsstring) : bool :=
  bool_decide (epTitle = [])
  || existsb (fun w => JS.includes epTitle w) SKIP_WORDS
  || (length epTitle <? 2)%nat.

(** [const epNumber = numMatch ? parseInt(numMatch[1]) : 0] *)
Definition episodeNumber (epTitle : jsstring) : Z :=
  match Regex.exec numberRe epTitle with
  | Some nm => default 0 (parseIntGroup nm 1)
  | None => 0
  end.

(** The part the two strategies share, from the text tests to the push:
    [seenChapterIds] after the link, and the episode pushed, if any. *)
Definition episodeOf (seenChapterIds : gset jsstring)
    (epTitle epHref : jsstring) : gset jsstring * option Episode :=
  if textRejected epTitle then (seenChapterIds, None)
  else
    let chapterMatch := Regex.exec chapterIdRe epHref in
    let dedup :=
      match chapterMatch with
      | Some cm =>
        let id := default [] (Regex.group cm 1) in
        if bool_decide (id ∈ seenChapterIds) then None
        else Some ({[id]} ∪ seenChapterIds)
      | None => Some seenChapterIds
      end in
    match dedup with
    | None => (seenChapterIds, None)
    | Some seen =>
      if Regex.test shortcutRe epTitle then (seen, None)
      else (seen, Some (mkEpisode (episodeNumber epTitle) epTitle epHref))
    end.

(** [name || `全 ${episodes.length} 話`] *)
Definition seasonName (name : jsstring) (episodes : list Episode) : jsstring :=
  orElse (Some name)
    (JS.lit "全 " ++ JS.ofZ (Z.of_nat (length episodes)) ++ JS.lit " 話").

(** The variables of the walk over the container's children. *)
Record Walk := mkWalk {
  w_seasons : list Season;
  w_currentSeasonName : jsstring;
  w_currentEpisodes : list Episode;
  w_seenChapterIds : gset jsstring
}.

(** [if (currentEpisodes.length > 0) seasons.push(...)] *)
Definition flush (w : Walk) : list Season :=
  match w_currentEpisodes w with
  | [] => w_seasons w
  | eps =>
    w_seasons w ++ [mkSeason (seasonName (w_currentSeasonName w) eps) eps]
  end.

(** The callback of [$container.children().each]. *)
Definition walkStep (w : Walk) (child : Child) : Walk :=
  if ch_isVolumeTitle child then
    mkWalk (flush w) (JS.trim (ch_text child)) [] (w_seenChapterIds w)
  else
    match ch_links child with
    | [] => w
    | links =>
      let '(seen, ep) :=
        episodeOf (w_seenChapterIds w) (linkTitle links) (linkHref links) in
      mkWalk (w_seasons w) (w_currentSeasonName w)
        (w_currentEpisodes w ++ from_option (fun e => [e]) [] ep) seen
    end.

(** The primary strategy: the seasons before post-processing. *)
Definition primarySeasons (children : list Child) : list Season :=
  flush (fold_left walkStep children (mkWalk [] [] [] ∅)).

(** The selector of the fallback strategy,
    [a[href*="chapter_id="].goto-chapter]. *)
Definition fallbackSelected (l : Link) : bool :=
  match ln_href l with
  | Some h => JS.includes h (JS.lit "chapter_id=")
  | None => false
  end.

Definition fallbackStep (acc : list Episode * gset jsstring) (l : Link)
    : list Episode * gset jsstring :=
  let '(episodes, seen) := acc in
  let '(seen, ep) := episodeOf seen (linkTitle [l]) (linkHref [l]) in
  (episodes ++ from_option (fun e => [e]) [] ep, seen).

(** The episodes the fallback strategy collects, in encounter order. *)
Definition fallbackEpisodes (links : list Link) : list Episode :=
  fst (fold_left fallbackStep (List.filter fallbackSelected links) ([], ∅)).

(** The fallback strategy: the episodes sorted and renumbered, in one
    season. *)
Definition fallbackSeasons (links : list Link) : list Season :=
  let episodes := sortAndFix (fallbackEpisodes links) in
  match episodes with
  | [] => []
  | _ => [mkSeason (seasonName [] episodes) episodes]
  end.

(** The [seasons] of the [AnimeDetail] returned. *)
Definition extractSeasons (page : DetailPage) : list Season :=
  postProcess
    match dp_container page with
    | Some children => primarySeasons children
    | None => fallbackSeasons (dp_links page)
    end.

(** The episodes of all seasons, in order. *)
Definition allEpisodes (seasons : list Season) : list Episode :=
  concat (map season_episodes seasons).

(** ** Statements about the matcher *)

(** Two continuations agree on the strings no longer than [n]. *)
Definition agreeBelow {X : Type} (n : nat)
    (k k' : jsstring -> Regex.caps -> option X) : Prop :=
  forall s' c', (length s' <= n)%nat -> k s' c' = k' s' c'.

(** A matcher that reads its continuation on strings no longer than its
    input only. *)
Definition extensional {X : Type}
    (step : (jsstring -> Regex.caps -> option X) ->
            jsstring -> Regex.caps -> option X) : Prop :=
  forall k k' s c, agreeBelow (length s) k k' -> step k s c = step k' s c.

(** The measure of the loop of [split]: it goes down at each turn. *)
Definition splitMeasure (acc s : jsstring) : nat :=
  2 * length s + match acc with [] => 0 | _ => 1 end.

(** ** Statements about the post-processing *)

(** The number of episodes of a list whose raw number is zero. *)
Definition zeros (eps : list Episode) : nat :=
  length (List.filter (fun e => ep_number e =? 0) eps).

(** The raw numbers of a list that are not zero. *)
Definition resolved (eps : list Episode) : list Z :=
  List.filter (fun n => negb (n =? 0)) (map ep_number eps).

(** The resolved raw numbers of a season are pairwise distinct and each is
    greater than the number of unresolved episodes of the season. *)
Definition wellNumbered (eps : list Episode) : Prop :=
  List.NoDup (resolved eps) /\
  Forall (fun e => ep_number e = 0 \/ Z.of_nat (zeros eps) < ep_number e) eps.

Definition strictlyAscending (eps : list Episode) : Prop :=
  StronglySorted Z.lt (map ep_number eps).

(** Five episodes with the raw numbers 0, 0, 3, 0, 7. *)
Definition fiveEpisodes : list Episode :=
  [ mkEpisode 0 (JS.lit "PV") (JS.lit "/video/a/1.html");
    mkEpisode 0 (JS.lit "OVA") (JS.lit "/video/a/2.html");
    mkEpisode 3 (JS.lit "第3話") (JS.lit "/video/a/3.html");
    mkEpisode 0 (JS.lit "SP") (JS.lit "/video/a/4.html");
    mkEpisode 7 (JS.lit "第7話") (JS.lit "/video/a/7.html") ].

(** Two episodes whose titles carry the same ordinal, under two chapters. *)
Definition twoFives : list Episode :=
  [ mkEpisode 5 (JS.lit "第5話") (JS.lit "/user/page?chapter_id=a1");
    mkEpisode 5 (JS.lit "第5話 重製") (JS.lit "/user/page?chapter_id=b2") ].

(** A season with two unresolved episodes and the ordinals 5 and 3. *)
Definition mixedSeason : Season :=
  mkSeason (JS.lit "第一季")
    [ mkEpisode 0 (JS.lit "PV") (JS.lit "/user/page?chapter_id=p1");
      mkEpisode 5 (JS.lit "第5話") (JS.lit "/user/page?chapter_id=c5");
      mkEpisode 0 (JS.lit "OVA") (JS.lit "/user/page?chapter_id=o1");
      mkEpisode 3 (JS.lit "第3話") (JS.lit "/user/page?chapter_id=c3") ].

(** ** Statements about the search extractor *)

(** The result pushed for an anchor whose title is accepted. *)
Definition resultOf (el : SearchAnchor) : SearchResult :=
  mkSearchResult (anchorTitle el) (anchorImage el) (anchorTags el)
    (JS.trim (sa_authorText el)) (anchorDetailUrl el).

(** The results for one detail URL. *)
Definition resultsFor (u : jsstring) (results : list SearchResult)
    : list SearchResult :=
  List.filter (fun r => bool_decide (sr_detailUrl r = u)) results.

(** The first anchor that points at a detail URL. *)
Definition firstAnchorFor (u : jsstring) (anchors : list SearchAnchor)
    : option SearchAnchor :=
  List.find (fun el => bool_decide (anchorDetailUrl el = u)) anchors.

(** A card whose picture and whose caption are two anchors to one page. *)
Definition pictureAnchor : SearchAnchor :=
  mkSearchAnchor (Some (JS.lit "/detail/shingeki"))
    (Some (Some (JS.lit "//static-a.xgcartoon.com/cover/shingeki.jpg")))
    None None [] [] [] [].

Definition captionAnchor : SearchAnchor :=
  mkSearchAnchor (Some (JS.lit "/detail/shingeki")) None None None
    [JS.lit "進擊的巨人"] (JS.lit "進擊的巨人") [] [].

(** ** Statements about the download manager and the fetcher *)

(** The progress line of the specification's example. *)
Definition exampleLine : jsstring :=
  JS.lit "Ep.005 [████░░] 42.5% | 50MB/120MB | 3.1MB/s | 00:10 | ETA: 00:14".

(** A code unit that ends a line: carriage return or line feed. *)
Definition isBreak (c : N) : bool := bool_decide (c ∈ [13%N; 10%N]).

Definition noBreak (s : jsstring) : Prop := Forall (fun c => isBreak c = false) s.

(** [Terminated lines text]: [text] is the lines in order, each free of
    line breaks and followed by a run of at least one line break. *)
Inductive Terminated : list jsstring -> jsstring -> Prop :=
| Terminated_nil : Terminated [] []
| Terminated_cons line sep lines text :
    noBreak line -> sep <> [] -> Forall (fun c => isBreak c = true) sep ->
    Terminated lines text ->
    Terminated (line :: lines) (line ++ sep ++ text).

(** The lines a sequence of chunks completes, and the carry-over left. *)
Fixpoint linesRun (buffer : jsstring) (chunks : list jsstring)
    : list jsstring * jsstring :=
  match chunks with
  | [] => ([], buffer)
  | data :: rest =>
    let '(lines, buffer') := stdoutLines buffer data in
    let '(lines', buffer'') := linesRun buffer' rest in
    (lines ++ lines', buffer'')
  end.

(** Three jobs submitted in order from the start of the application, by
    the window [w]. *)
Definition afterThree (host : Host) (w : Win) (A B C : DownloadOptions)
    : State :=
  run host [StartDownload A; StartDownload B; StartDownload C]
    (initialState (Some w)).

(** An event other than a submission. *)
Definition notSubmission (e : Event) : Prop :=
  match e with
  | StartDownload _ => False
  | _ => True
  end.

(** A host and three jobs, for the examples. *)
Definition linuxHost : Host :=
  mkHost (JS.lit "linux") (JS.lit "/opt/anime/scripts/download_episodes.py").

Definition episode1 : Episode :=
  mkEpisode 1 (JS.lit "第1話") (JS.lit "/user/page?chapter_id=a1").
Definition episode2 : Episode :=
  mkEpisode 2 (JS.lit "第2話") (JS.lit "/user/page?chapter_id=a2").

Definition jobA : DownloadOptions :=
  mkDownloadOptions (JS.lit "shingeki") [episode1; episode2]
    (JS.lit "/home/me/anime") (JS.lit "https://tw.xgcartoon.com/detail/shingeki").
Definition jobB : DownloadOptions :=
  mkDownloadOptions (JS.lit "kimetsu") [episode2]
    (JS.lit "/home/me/anime") (JS.lit "https://tw.xgcartoon.com/detail/kimetsu").
Definition jobC : DownloadOptions :=
  mkDownloadOptions (JS.lit "frieren") [episode1]
    (JS.lit "/home/me/anime") (JS.lit "https://tw.xgcartoon.com/detail/frieren").

(** A job that requests no episode. *)
Definition emptyJob : DownloadOptions :=
  mkDownloadOptions (JS.lit "shingeki") []
    (JS.lit "/home/me/anime") (JS.lit "https://tw.xgcartoon.com/detail/shingeki").

(** The complete lines of a text that are not empty, and the rest after
    its last line break, read in one pass; [acc] is the line in progress. *)
Fixpoint scan (acc : jsstring) (s : jsstring) : list jsstring * jsstring :=
  match s with
  | [] => ([], acc)
  | c :: t =>
    if isBreak c then
      let '(ls, rest) := scan [] t in
      (match acc with [] => ls | _ => acc :: ls end, rest)
    else scan (acc ++ [c]) t
  end.

Definition nonEmpty (l : jsstring) : bool :=
  match l with [] => false | _ => true end.

(** ** Statements about the entity decoding *)

(** No entity token occurs in a string. *)
Definition entityFree (s : jsstring) : Prop :=
  Forall (fun e => JS.includes s e = false) entities.

(** The first of the five replacements: each [&amp;] made a single [&]. *)
Definition ampDecoded (s : jsstring) : jsstring :=
  JS.replaceAll (JS.lit "&amp;") (JS.lit "&") s.

(** ** Statements about the episode extraction *)

(** What identifies the link an episode entry was made from: its title and
    its [href] (the number may be rewritten by the post-processing). *)
Definition key (e : Episode) : jsstring * jsstring := (ep_title e, ep_href e).

(** The text passes the tests of the extraction: it is not rejected as
    empty, as an action word or as too short, and it is not a shortcut. *)
Definition acceptable (epTitle : jsstring) : bool :=
  negb (textRejected epTitle) && negb (Regex.test shortcutRe epTitle).







(** ** What a pattern matches

    The strings a pattern matches, apart from the order in which the
    matcher tries them; the statements about captures below go through
    it. *)

Inductive Matches : Regex.re -> jsstring -> Prop :=
| Matches_Eps : Matches Regex.Eps []
| Matches_Chr p x : p x = true -> Matches (Regex.Chr p) [x]
| Matches_Seq a b u v :
    Matches a u -> Matches b v -> Matches (Regex.Seq a b) (u ++ v)
| Matches_Alt_l a b u : Matches a u -> Matches (Regex.Alt a b) u
| Matches_Alt_r a b u : Matches b u -> Matches (Regex.Alt a b) u
| Matches_Star_nil g a : Matches (Regex.Star g a) []
| Matches_Star_cons g a u v :
    Matches a u -> Matches (Regex.Star g a) v ->
    Matches (Regex.Star g a) (u ++ v)
| Matches_Grp i a u : Matches a u -> Matches (Regex.Grp i a) u.

(** The capture slots a pattern writes. *)
Fixpoint slots (r : Regex.re) : list nat :=
  match r with
  | Regex.Eps | Regex.Chr _ => []
  | Regex.Seq a b | Regex.Alt a b => slots a ++ slots b
  | Regex.Star _ a => slots a
  | Regex.Grp i a => i :: slots a
  end.

(** The patterns of this program: their groups are neither repeated nor
    under an alternative, and no two groups have one slot. *)
Fixpoint plainGroups (r : Regex.re) : bool :=
  match r with
  | Regex.Eps | Regex.Chr _ => true
  | Regex.Seq a b =>
    plainGroups a && plainGroups b
    && forallb (fun i => negb (existsb (Nat.eqb i) (slots b))) (slots a)
  | Regex.Alt a b =>
    match slots a ++ slots b with [] => true | _ => false end
  | Regex.Star _ a => match slots a with [] => true | _ => false end
  | Regex.Grp i a => plainGroups a && negb (existsb (Nat.eqb i) (slots a))
  end.

(** [sameOutside js c c']: the captures [c'] are [c] but for the slots
    [js]. *)
Definition sameOutside (js : list nat) (c c' : Regex.caps) : Prop :=
  length c' = length c /\
  forall j, existsb (Nat.eqb j) js = false -> c' !! j = c !! j.

(** Each group of the pattern holds a string its body matches. *)
Fixpoint Captured (r : Regex.re) (c : Regex.caps) : Prop :=
  match r with
  | Regex.Seq a b => Captured a c /\ Captured b c
  | Regex.Grp i a =>
    (exists u, c !! i = Some (Some u) /\ Matches a u) /\ Captured a c
  | _ => True
  end.

(** The groups of a pattern are plain and their slots are between 1 and
    the number of groups. *)
Definition wellGrouped (r : Regex.re) : bool :=
  plainGroups r
  && forallb (fun i => (1 <=? i)%nat && (i <=? Regex.groups r)%nat) (slots r).

(** A string a character class matches throughout. *)
Definition allOf (p : N -> bool) (s : jsstring) : Prop :=
  Forall (fun c => p c = true) s.

(** A string without white space, and not empty. *)
Definition token (s : jsstring) : Prop :=
  s <> [] /\ allOf (fun c => negb (JS.isWhiteSpace c)) s.

(** What a message of the classifier on [line], for the job [cid], is: a
    progress event with a real episode number and percentage, which
    carries either the four texts of a progress line and no status, or one
    of the three statuses with its fixed percentage and no text; or the
    line itself as a log line. *)
Definition wellFormedMessage (cid line : jsstring) (msg : Message) : Prop :=
  match msg with
  | DownloadProgress pd =>
    pd_cartoonId pd = cid /\ pd_filename pd = None /\
    (exists n, pd_episode pd = Some n /\ 0 <= n) /\
    (exists q, pd_percent pd = Some q /\ (0 <= q)%Q) /\
    ((pd_status pd = None /\
      (exists d t sp e,
         pd_downloaded pd = Some d /\ pd_total pd = Some t /\
         pd_speed pd = Some (sp ++ JS.lit "/s") /\ pd_eta pd = Some e /\
         token d /\ token t /\ token sp /\ token e))
     \/
     (pd_downloaded pd = None /\ pd_total pd = None /\
      pd_speed pd = None /\ pd_eta pd = None /\
      ((pd_status pd = Some (JS.lit "done") /\ pd_percent pd = Some 100%Q) \/
       (pd_status pd = Some (JS.lit "skipped") /\ pd_percent pd = Some 100%Q /\
        exists n, pd_episode pd = Some n /\ 0 < n) \/
       (pd_status pd = Some (JS.lit "failed") /\ pd_percent pd = Some 0%Q))))
  | DownloadLog l => l = line
  | DownloadComplete _ | DownloadError _ => False
  end.

(** ** More statements about the episode extraction *)

(** The chapter identifier the extraction reads in an [href]. *)
Definition chapterIdOf (epHref : jsstring) : option jsstring :=
  match Regex.exec chapterIdRe epHref with
  | Some cm => Some (default [] (Regex.group cm 1))
  | None => None
  end.

(** The chapter identifiers of a list of episodes, in order. *)
Definition chapterIds (eps : list Episode) : list jsstring :=
  flat_map (fun e => match chapterIdOf (ep_href e) with
                     | Some id => [id]
                     | None => []
                     end) eps.

Definition unresolved (e : Episode) : bool := ep_number e =? 0.
Definition isResolved (e : Episode) : bool := negb (ep_number e =? 0).

(** A season has a name and at least one episode. *)
Definition properSeason (s : Season) : Prop :=
  season_name s <> [] /\ season_episodes s <> [].

(** Episodes with raw numbers 0, 7, 0, 3 and a header without text. *)
Definition rawEpisodes : list Episode :=
  [ mkEpisode 0 (JS.lit "PV") (JS.lit "/user/page?chapter_id=p1");
    mkEpisode 7 (JS.lit "第7話") (JS.lit "/user/page?chapter_id=c7");
    mkEpisode 0 (JS.lit "OVA") (JS.lit "/user/page?chapter_id=o1");
    mkEpisode 3 (JS.lit "第3話") (JS.lit "/user/page?chapter_id=c3") ].

(** What holds of the episodes collected so far and the chapter
    identifiers seen: no raw number is negative, every title passed the
    tests, no chapter identifier occurs twice, and each one is in the
    set. *)
Definition collected (eps : list Episode) (seen : gset jsstring) : Prop :=
  Forall (fun e => 0 <= ep_number e /\ acceptable (ep_title e) = true) eps /\
  List.NoDup (chapterIds eps) /\
  forall id, In id (chapterIds eps) -> id ∈ seen.

(** ** More statements about the search extractor *)

(** A result as the extractor builds it: a title of at least two code
    units, a detail URL that starts with [http], and tags of one to nine
    code units without a line feed. *)
Definition wellFormedResult (r : SearchResult) : Prop :=
  (2 <= length (sr_title r))%nat /\
  JS.startsWith (sr_detailUrl r) (JS.lit "http") = true /\
  Forall (fun t => (1 <= length t < 10)%nat /\ JS.includes t [10%N] = false)
         (sr_tags r).

(** ** The page fetcher, whatever the URL parser gives

    [fetchUrl] above reads [new URL(url)] as a cut of the text.  The
    statements below do not depend on what the parser does: [parse] is
    what [new URL(url)] gives, its [protocol] and [host], or [None] when it
    throws.

    The network answers an address with a complete response, or with
    the message of the [error] or [timeout] event that rejects the promise
    before the response is complete.  A request whose response was a
    redirect keeps its [error] and [timeout] handlers on the caller's
    promise: [late url] is the message of such an event when the request
    to [url] emits one after its response and before the fetch of the
    redirect target has settled; the promise is then rejected with it. *)

Section FetcherWith.
Variable parse : jsstring -> option URL.
Variable net : jsstring -> Response + jsstring.
Variable late : jsstring -> option jsstring.

Definition redirectUrlWith (url location : jsstring) : option jsstring :=
  if JS.startsWith location (JS.lit "/") then
    parsed ← parse url;
    Some (url_protocol parsed ++ JS.lit "//" ++ url_host parsed ++ location)
  else if negb (JS.startsWith location (JS.lit "http")) then
    parsed ← parse url;
    Some (url_protocol parsed ++ JS.lit "//" ++ url_host parsed
            ++ JS.lit "/" ++ location)
  else Some location.

(** The promise of [fetchUrl(url)] as far as [redirects] redirects are
    followed: [Pending] is a promise that nothing has settled yet. *)
Fixpoint fetchUrlWith (redirects : nat) (url : jsstring) : Fetched :=
  match net url with
  | inr message => Rejected message
  | inl res =>
    let redirect :=
      match statusCode res, location res with
      | Some code, Some ((_ :: _) as loc) =>
        if (code =? 0) then None
        else if (300 <=? code) && (code <? 400) then Some loc else None
      | _, _ => None
      end in
    match redirect with
    | Some loc =>
      match redirectUrlWith url loc with
      | None => Uncaught (JS.lit "Invalid URL")
      | Some target =>
        match late url with
        | Some message => Rejected message
        | None =>
          match redirects with
          | O => Pending
          | S n => fetchUrlWith n target
          end
        end
      end
    | None =>
      if bool_decide (statusCode res = Some 200) then Resolved (body res)
      else Rejected (JS.lit "HTTP " ++
                       match statusCode res with
                       | Some c => JS.ofZ c
                       | None => JS.lit "undefined"
                       end)
    end
  end.

(** The redirect a response asks for: its [Location], when the status is
    in the 3xx range and the header is present and not empty. *)
Definition asksRedirect (res : Response) (loc : jsstring) : Prop :=
  exists code, statusCode res = Some code /\ 300 <= code < 400 /\
               location res = Some loc /\ loc <> [].

(** [Redirects url final k]: the responses lead from [url] to [final] by
    [k] redirects, each resolved as the fetcher resolves a [Location]. *)
Inductive Redirects : jsstring -> jsstring -> nat -> Prop :=
| Redirects_here url : Redirects url url 0
| Redirects_hop url res loc target final k :
    net url = inl res -> asksRedirect res loc ->
    redirectUrlWith url loc = Some target ->
    Redirects target final k ->
    Redirects url final (S k).

(** The promise was rejected by an event of a request that had been
    answered with a redirect. *)
Definition rejectedLate (outcome : Fetched) : Prop :=
  exists url message, late url = Some message /\ outcome = Rejected message.
End FetcherWith.

(** No request emits an event after its response. *)
Definition quiet (url : jsstring) : option jsstring := None.

(** A network of two pages that redirect to each other, and one that
    redirects once to a page served with status 200. *)
Definition pingPong (url : jsstring) : Response + jsstring :=
  if bool_decide (url = JS.lit "http://a.example/x")
  then inl (mkResponse (Some 302) (Some (JS.lit "http://b.example/y")) [])
  else inl (mkResponse (Some 301) (Some (JS.lit "http://a.example/x")) []).

Definition movedOnce (url : jsstring) : Response + jsstring :=
  if bool_decide (url = JS.lit "http://a.example/x")
  then inl (mkResponse (Some 302) (Some (JS.lit "http://b.example/y")) [])
  else inl (mkResponse (Some 200) None (JS.lit "<html>")).

(** A parser that gives every address one origin. *)
Definition oneOrigin (url : jsstring) : option URL :=
  Some (mkURL (JS.lit "http:") (JS.lit "a.example")).

(** Two pages that redirect to each other by relative locations. *)
Definition relativePingPong (url : jsstring) : Response + jsstring :=
  if bool_decide (url = JS.lit "http://a.example/x")
  then inl (mkResponse (Some 302) (Some (JS.lit "/y")) [])
  else inl (mkResponse (Some 301) (Some (JS.lit "/x")) []).

(** ** More statements about the download manager *)

(** What holds of the manager's variables and of its processes at every
    moment: the active process is one that was spawned, and while there is
    one the queue is being processed and is not empty; a queue that is not
    being processed is empty; every signal sent is [SIGTERM] to a spawned
    process; the processes with handlers are the spawned ones. *)
Definition managerInvariant (st : State) : Prop :=
  (forall p, activeDownloadProcess st = Some p ->
     (p < length (spawned st))%nat /\ queueProcessing st = true /\
     downloadQueue st <> []) /\
  (queueProcessing st = false -> downloadQueue st = []) /\
  Forall (fun s => (fst s < length (spawned st))%nat /\
                   snd s = JS.lit "SIGTERM") (signals st) /\
  (forall p, is_Some (closures st !! p) <-> (p < length (spawned st))%nat).

(** The worker of a job, when the job requests an episode. *)
Definition workerFor (host : Host) (o : DownloadOptions) : option Spawn :=
  match opt_episodes o with
  | [] => None
  | firstEp :: _ => Some (workerSpawn host o firstEp)
  end.

(** The spawn is the worker of a job submitted by one of the events. *)
Definition submittedWorker (host : Host) (es : list Event) (s : Spawn) : Prop :=
  exists o, In (StartDownload o) es /\ workerFor host o = Some s.

(** The queue holds submitted jobs only, and the processes are workers of
    submitted jobs. *)
Definition fromSubmissions (host : Host) (es : list Event) (st : State)
    : Prop :=
  Forall (fun it => In (StartDownload (qi_options it)) es) (downloadQueue st) /\
  Forall (submittedWorker host es) (spawned st).

(** The close events of the processes [p], [p + 1], ... in turn. *)
Fixpoint closesFrom (p : Pid) (codes : list (option Z)) : list Event :=
  match codes with
  | [] => []
  | code :: rest => Close p code :: closesFrom (S p) rest
  end.

(** What each event of a sequence is answered with. *)
Fixpoint trace (host : Host) (es : list Event) (st : State)
    : list (Outcome (option Reply)) :=
  match es with
  | [] => []
  | e :: rest =>
    let '(st', r) := step host e st in
    r :: trace host rest st'
  end.

(** The answers of a manager that is stuck: every submission is accepted,
    every cancel finds nothing to cancel. *)
Definition stuckAnswer (e : Event) : Outcome (option Reply) :=
  match e with
  | StartDownload _ => Return (Some (mkReply true None))
  | CancelDownload =>
    Return (Some (mkReply false (Some (JS.lit "No active download"))))
  | _ => Return None
  end.

(** Jobs with several episodes, for the examples: episodes 1 and 5
    selected, and episodes 1 to 5. *)
Definition episode5 : Episode :=
  mkEpisode 5 (JS.lit "第5話") (JS.lit "/user/page?chapter_id=a5").
Definition jobEnds : DownloadOptions :=
  mkDownloadOptions (JS.lit "shingeki") [episode1; episode5]
    (JS.lit "/home/me/anime") (JS.lit "https://tw.xgcartoon.com/detail/shingeki").
Definition episode3 : Episode :=
  mkEpisode 3 (JS.lit "第3話") (JS.lit "/user/page?chapter_id=a3").
Definition jobRange : DownloadOptions :=
  mkDownloadOptions (JS.lit "shingeki") [episode1; episode3; episode5]
    (JS.lit "/home/me/anime") (JS.lit "https://tw.xgcartoon.com/detail/shingeki").

(** [lo] is the least and [hi] the greatest of the numbers. *)
Definition rangeOf (numbers : list Z) (lo hi : Z) : Prop :=
  In lo numbers /\ In hi numbers /\ Forall (fun n => lo <= n <= hi) numbers.

(** A safe integer: every integer of this range is a number of JavaScript,
    and [String] of it is its decimal form. *)
Definition safeInteger (n : Z) : Prop := - 2 ^ 53 < n < 2 ^ 53.

(** The state in which the worker [p] of a job is running. *)
Definition running (st : State) (w : Win) (p : Pid) : Prop :=
  mainWindow st = Some w /\ activeDownloadProcess st = Some p /\
  queueProcessing st = true /\ is_Some (closures st !! p).

(** The manager is stuck: the queue is marked as being processed while no
    process has handlers that could move it on. *)
Definition stuck (st : State) (w : Win) : Prop :=
  mainWindow st = Some w /\ queueProcessing st = true /\
  activeDownloadProcess st = None /\ closures st = ∅ /\ spawned st = [].

(** ** Renderer ([src/renderer/src/app.ts]): folder names and the
    submission of a job *)

(** The class of [sanitizeFolderName]'s first replacement: the characters
    that are invalid in a file name on some system (code unit 34 is the
    double quote), and the control characters. *)
Definition invalidChar (c : N) : bool :=
  bool_decide (c ∈ JS.lit "<>:" ++ [34%N] ++ JS.lit "/\|?*") || (c <=? 31)%N.

(** The class of the second replacement: their fullwidth variants. *)
Definition fullwidthChar (c : N) : bool :=
  bool_decide (c ∈ JS.lit "＜＞：＂／＼｜？＊").

Definition dotOrSpace (c : N) : bool := bool_decide (c ∈ JS.lit ". ").

Definition invalidRe : Regex.re := Regex.Chr invalidChar.
Definition fullwidthRe : Regex.re := Regex.Chr fullwidthChar.
Definition whitespaceRe : Regex.re := Regex.plus Regex.space.
Definition dotSpaceRe : Regex.re := Regex.plus (Regex.Chr dotOrSpace).

(** The assertion [$] of a pattern without the [m] flag, as the
    continuation of the matcher: it accepts at the end of the input only. *)
Definition atEnd (s : jsstring) (c : Regex.caps) : option unit :=
  match s with
  | [] => Some tt
  | _ :: _ => None
  end.

Definition matchesToEnd (r : Regex.re) (s : jsstring) : bool :=
  match Regex.m r atEnd s (replicate (S (Regex.groups r)) None) with
  | Some _ => true
  | None => false
  end.

(** [s.replace(/r$/, rep)] without flags: the leftmost position from which
    [r] matches up to the end of the input; what is before it is kept. *)
Fixpoint replaceAtEnd (r : Regex.re) (rep s : jsstring) : jsstring :=
  if matchesToEnd r s then rep
  else
    match s with
    | [] => []
    | x :: t => x :: replaceAtEnd r rep t
    end.

(** [sanitizeFolderName] *)
Definition sanitizeFolderName (name : jsstring) : jsstring :=
  replaceAtEnd dotSpaceRe []
    (JS.trim
       (Regex.replace_g whitespaceRe (JS.lit " ")
          (Regex.replace_g fullwidthRe []
             (Regex.replace_g invalidRe [] name)))).

(** What the renderer reads of the [AnimeDetail] it shows and of its own
    state. *)
Record AnimeDetail := mkAnimeDetail {
  title : jsstring;
  cartoonId : jsstring;
  seasons : list Season;
  detailUrl : jsstring
}.

Record AppState := mkAppState {
  selectedEpisodes : gset Z;
  downloadFolder : option jsstring;
  animeDetail : option AnimeDetail;
  activeSeason : nat
}.

(** [getOutputDir] *)
Definition getOutputDir (baseFolder : option jsstring) (state : AppState)
    : jsstring :=
  match orElse baseFolder (orElse (downloadFolder state) []) with
  | [] => []
  | folder =>
    match animeDetail state with
    | Some detail =>
      match sanitizeFolderName (title detail) with
      | [] => folder
      | safeName => folder ++ JS.lit "/" ++ safeName
      end
    | None => folder
    end
  end.

(** [startDownloadFlow]: the options it calls [window.api.startDownload]
    with, when it comes to the call. *)
Definition startDownloadFlow (state : AppState) : option DownloadOptions :=
  match animeDetail state, orElse (downloadFolder state) [] with
  | Some detail, _ :: _ =>
    match seasons detail !! activeSeason state with
    | None => None
    | Some season =>
      match List.filter
              (fun ep => bool_decide (ep_number ep ∈ selectedEpisodes state))
              (season_episodes season) with
      | [] => None
      | selectedEps =>
        Some (mkDownloadOptions (cartoonId detail) selectedEps
                (getOutputDir None state) (detailUrl detail))
      end
    end
  | _, _ => None
  end.

(** Whitespace occurs as single spaces only. *)
Fixpoint tidy (s : jsstring) : bool :=
  match s with
  | [] => true
  | x :: t =>
    (if JS.isWhiteSpace x
     then (x =? 32)%N &&
          match t with
          | y :: _ => negb (JS.isWhiteSpace y)
          | [] => true
          end
     else true) && tidy t
  end.

(** A name that is safe as a folder name: none of the invalid characters
    nor of their fullwidth variants, whitespace as single spaces only,
    no space in front, neither a dot nor a space at the end. *)
Definition safeName (s : jsstring) : Prop :=
  Forall (fun c => invalidChar c = false /\ fullwidthChar c = false) s /\
  tidy s = true /\
  (forall x t, s = x :: t -> x <> 32%N) /\
  (forall x, last s = Some x -> dotOrSpace x = false).

(** A title as a page may carry it, and a state of the renderer that
    shows it with a folder chosen and two episodes selected. *)
Definition rawTitle : jsstring := JS.lit "  ../../Re:Zero ?  2nd. ".
Definition shownDetail : AnimeDetail :=
  mkAnimeDetail rawTitle (JS.lit "rezero")
    [mkSeason (JS.lit "S1") [episode1; episode2; episode5]]
    (JS.lit "https://tw.xgcartoon.com/detail/rezero").
Definition shownState : AppState :=
  mkAppState {[1; 5]} (Some (JS.lit "/home/me/anime")) (Some shownDetail) 0.

(** ** [getAnimeDetail]: the address fetched, update date and status *)

(** The detail URL made absolute, before the page is fetched. *)
Definition normalizeDetailUrl (detailUrl : jsstring) : jsstring :=
  if negb (JS.startsWith detailUrl (JS.lit "http")) then
    if JS.startsWith detailUrl (JS.lit "/") then SEARCH_BASE ++ detailUrl
    else SEARCH_BASE ++ JS.lit "/" ++ detailUrl
  else detailUrl.

(** The separators of a date: slash, dot and hyphen. *)
Definition dateSep : Regex.re := Regex.oneOf (JS.lit "/.-").

(** The pattern of the update date: the label, colons (fullwidth or not),
    white space, and in group 1 four digits, a separator, two digits, a
    separator and two digits. *)
Definition updateDateRe : Regex.re :=
  Regex.seqs
    [Regex.text (JS.lit "更新時間"); Regex.star (Regex.oneOf (JS.lit "：:"));
     Regex.star Regex.space;
     Regex.Grp 1
       (Regex.seqs [Regex.digit; Regex.digit; Regex.digit; Regex.digit;
                    dateSep; Regex.digit; Regex.digit;
                    dateSep; Regex.digit; Regex.digit])].

(** [updateDate]: group 1 of the first match in the text of the body, or
    the empty string. *)
Definition updateDate (bodyText : jsstring) : jsstring :=
  match Regex.exec updateDateRe bodyText with
  | Some found => orElse (Regex.group found 1) []
  | None => []
  end.

(** The pattern of the status: the two labels with as little as possible
    between them, then a number and the counter, white space allowed
    around the number. *)
Definition statusRe : Regex.re :=
  Regex.seqs
    [Regex.text (JS.lit "更新至"); Regex.lazy_star Regex.dot;
     Regex.text (JS.lit "第"); Regex.star Regex.space;
     Regex.Grp 1 (Regex.plus Regex.digit); Regex.star Regex.space;
     Regex.text (JS.lit "集")].

(** [status]: the whole first match, trimmed, or the empty string. *)
Definition status (bodyText : jsstring) : jsstring :=
  match Regex.exec statusRe bodyText with
  | Some found => orElse (option_map JS.trim (Regex.group found 0)) []
  | None => []
  end.

(** A digit, and a separator of a date. *)
Definition isDateSep (c : N) : bool := bool_decide (c ∈ JS.lit "/.-").

(** Ten code units that read as a date. *)
Definition dateShaped (s : jsstring) : Prop :=
  exists y1 y2 y3 y4 s1 m1 m2 s2 d1 d2,
    s = [y1; y2; y3; y4; s1; m1; m2; s2; d1; d2] /\
    Forall (fun c => JS.isDigit c = true) [y1; y2; y3; y4; m1; m2; d1; d2] /\
    isDateSep s1 = true /\ isDateSep s2 = true.

(** A shortcut to the latest episode, and the entry of that episode, both
    to one chapter. *)
Definition latestShortcut : Link :=
  mkLink (JS.lit "第1集 第12話") (Some (JS.lit "/user/page?chapter_id=c12")).
Definition episode12Link : Link :=
  mkLink (JS.lit "第12話") (Some (JS.lit "/user/page?chapter_id=c12")).

(** ** Escaping, the inverse of the entity decoding *)

(** The five characters and their tokens, in the order in which
    [decodeHtmlEntities] replaces them. *)
Definition entityTable : list (N * jsstring) :=
  [(38%N, JS.lit "&amp;"); (60%N, JS.lit "&lt;"); (62%N, JS.lit "&gt;");
   (34%N, JS.lit "&quot;"); (39%N, JS.lit "&#39;")].

Fixpoint tokenOf (tbl : list (N * jsstring)) (c : N) : option jsstring :=
  match tbl with
  | [] => None
  | (k, tok) :: rest => if (k =? c)%N then Some tok else tokenOf rest c
  end.

(** A text with the characters of a table written as their tokens. *)
Definition escapeWith (tbl : list (N * jsstring)) (s : jsstring) : jsstring :=
  flat_map (fun c => default [c] (tokenOf tbl c)) s.

(** The usual escaping of a text for HTML: each of the five characters
    written as its token. *)
Definition escapeEntities (s : jsstring) : jsstring :=
  escapeWith entityTable s.

(** What makes the replacement of the token [&body] by [ch] undo the
    escaping of [ch] in a text escaped with [(ch, &body) :: tbl]: the body
    is not empty and holds neither [&] nor a character of the table; the
    other tokens are [&] and a body without [&] that starts with another
    character; [ch] is not in [tbl]. *)
Definition passOk (ch : N) (body : jsstring) (tbl : list (N * jsstring))
    : bool :=
  match body with
  | [] => false
  | h :: _ =>
    forallb (fun b => negb (b =? 38)%N &&
                      match tokenOf ((ch, []) :: tbl) b with
                      | None => true
                      | Some _ => false
                      end) body
    && forallb (fun kt =>
                  match snd kt with
                  | 38%N :: h' :: rest =>
                    negb (h' =? h)%N
                    && forallb (fun b => negb (b =? 38)%N) (h' :: rest)
                  | _ => false
                  end) tbl
    && match tokenOf tbl ch with None => true | Some _ => false end
  end.

(** * Verification *)

(** ** The matcher never runs out of fuel

    A pattern calls its continuation on suffixes of its input only, so two
    continuations that agree on the strings no longer than the input give
    the same match; with that, a repetition gives the same result on any
    fuel above the length of its input, and so do the loops of [replace]
    and [split]. *)

Section MatcherFacts.
Context {X : Type}.

Lemma star_loop_ext
    (step : (jsstring -> Regex.caps -> option X) ->
           jsstring -> Regex.caps -> option X) g :
  extensional step ->
  forall fuel k k' s c,
    agreeBelow (length s) k k' ->
    Regex.star_loop step g k fuel s c = Regex.star_loop step g k' fuel s c.
Proof.
  intros Hstep. induction fuel as [|fuel IH]; intros k k' s c Hk; [reflexivity|].
  cbn [Regex.star_loop]. rewrite (Hk s c) by lia.
  erewrite (Hstep _ (fun s' c' =>
                       if (length s' <? length s)%nat
                       then Regex.star_loop step g k' fuel s' c' else None));
    [reflexivity|].
  intros s' c' Hle. destruct (Nat.ltb_spec (length s') (length s)); [|reflexivity].
  apply IH. intros s'' c'' Hle'. apply Hk. lia.
Qed.

Lemma star_loop_fuel
    (step : (jsstring -> Regex.caps -> option X) ->
           jsstring -> Regex.caps -> option X) g k :
  extensional step ->
  forall f1 f2 s c,
    (length s < f1)%nat -> (length s < f2)%nat ->
    Regex.star_loop step g k f1 s c = Regex.star_loop step g k f2 s c.
Proof.
  intros Hstep. induction f1 as [|f1 IH]; intros f2 s c H1 H2; [lia|].
  destruct f2 as [|f2]; [lia|]. cbn [Regex.star_loop].
  erewrite (Hstep _ (fun s' c' =>
                       if (length s' <? length s)%nat
                       then Regex.star_loop step g k f2 s' c' else None));
    [reflexivity|].
  intros s' c' Hle. destruct (Nat.ltb_spec (length s') (length s)); [|reflexivity].
  apply IH; lia.
Qed.

Lemma m_ext r : extensional (X := X) (Regex.m r).
Proof.
  induction r as [|p|a IHa b IHb|a IHa b IHb|g a IHa|i a IHa];
    intros k k' s c Hk; cbn [Regex.m].
  - apply Hk. lia.
  - destruct s as [|x t]; [reflexivity|]. destruct (p x); [|reflexivity].
    apply Hk. simpl. lia.
  - apply IHa. intros s' c' Hle. apply IHb.
    intros s'' c'' Hle'. apply Hk. lia.
  - rewrite (IHa k k' s c Hk), (IHb k k' s c Hk). reflexivity.
  - now apply star_loop_ext.
  - apply IHa. intros s' c' Hle. now apply Hk.
Qed.

(** A repetition on any fuel above the length of the input. *)
Lemma star_fuel g a (k : jsstring -> Regex.caps -> option X) f s c :
  (length s < f)%nat ->
  Regex.star_loop (Regex.m a) g k f s c = Regex.m (Regex.Star g a) k s c.
Proof.
  intros Hf. cbn [Regex.m]. apply star_loop_fuel; [apply m_ext|lia..].
Qed.

(** A match is what the continuation answers somewhere. *)
Lemma star_loop_result
    (step : (jsstring -> Regex.caps -> option X) ->
           jsstring -> Regex.caps -> option X) g k :
  (forall k0 s c res, step k0 s c = Some res ->
                      exists s' c', k0 s' c' = Some res) ->
  forall fuel s c res,
    Regex.star_loop step g k fuel s c = Some res ->
    exists s' c', k s' c' = Some res.
Proof.
  intros Hstep. induction fuel as [|fuel IH]; intros s c res H; [discriminate|].
  cbn [Regex.star_loop] in H.
  assert (Hmore : forall r0,
            step (fun s' c' =>
                    if (length s' <? length s)%nat
                    then Regex.star_loop step g k fuel s' c' else None) s c
            = Some r0 -> exists s' c', k s' c' = Some r0).
  { intros r0 Hr. apply Hstep in Hr as (s' & c' & Hr).
    destruct (length s' <? length s)%nat; [|discriminate]. eauto. }
  destruct g.
  - destruct (step _ s c) as [r0|] eqn:E.
    + injection H as <-. now apply Hmore.
    + eauto.
  - destruct (k s c) as [r0|] eqn:E.
    + injection H as <-. eauto.
    + now apply Hmore.
Qed.

Lemma m_result r : forall (k : jsstring -> Regex.caps -> option X) s c res,
  Regex.m r k s c = Some res -> exists s' c', k s' c' = Some res.
Proof.
  induction r as [|p|a IHa b IHb|a IHa b IHb|g a IHa|i a IHa];
    intros k s c res H; cbn [Regex.m] in H.
  - eauto.
  - destruct s as [|x t]; [discriminate|]. destruct (p x); [eauto|discriminate].
  - apply IHa in H as (s1 & c1 & H). now apply IHb in H.
  - destruct (Regex.m a k s c) as [r0|] eqn:E.
    + injection H as <-. now apply IHa in E.
    + now apply IHb in H.
  - eapply star_loop_result; [exact IHa|exact H].
  - apply IHa in H as (s1 & c1 & H). eauto.
Qed.
End MatcherFacts.

(** An anchored match leaves no more than it was given. *)
Lemma matchAt_shorter r s s' c :
  Regex.matchAt r s = Some (s', c) -> (length s' <= length s)%nat.
Proof.
  unfold Regex.matchAt. intros H.
  rewrite (m_ext r _ (fun s1 c1 => if (length s1 <=? length s)%nat
                                   then Some (s1, c1) else None)) in H.
  - apply m_result in H as (s1 & c1 & H).
    destruct (Nat.leb_spec (length s1) (length s)); [|discriminate].
    injection H as <- <-. assumption.
  - intros s1 c1 Hle. apply Nat.leb_le in Hle. now rewrite Hle.
Qed.

Lemma replace_g_fuel_enough r rep : forall f1 f2 s,
  (length s < f1)%nat -> (length s < f2)%nat ->
  Regex.replace_g_fuel f1 r rep s = Regex.replace_g_fuel f2 r rep s.
Proof.
  induction f1 as [|f1 IH]; intros f2 s H1 H2; [lia|].
  destruct f2 as [|f2]; [lia|]. cbn [Regex.replace_g_fuel].
  assert (Htail : match s with
                  | [] => []
                  | x :: t => x :: Regex.replace_g_fuel f1 r rep t
                  end
                  = match s with
                    | [] => []
                    | x :: t => x :: Regex.replace_g_fuel f2 r rep t
                    end).
  { destruct s as [|x t]; [reflexivity|]. f_equal. apply IH; simpl in *; lia. }
  destruct (Regex.matchAt r s) as [[s' c]|]; [|exact Htail].
  destruct (Nat.ltb_spec (length s') (length s)).
  - f_equal. apply IH; lia.
  - f_equal. exact Htail.
Qed.

Lemma split_loop_fuel_enough r : forall f1 f2 acc s,
  (splitMeasure acc s < f1)%nat -> (splitMeasure acc s < f2)%nat ->
  Regex.split_loop f1 r acc s = Regex.split_loop f2 r acc s.
Proof.
  induction f1 as [|f1 IH]; intros f2 acc s H1 H2; [lia|].
  destruct f2 as [|f2]; [lia|]. cbn [Regex.split_loop].
  destruct s as [|x t]; [reflexivity|].
  assert (Hnext : Regex.split_loop f1 r (acc ++ [x]) t
                  = Regex.split_loop f2 r (acc ++ [x]) t).
  { apply IH; unfold splitMeasure in *; simpl in *;
      destruct acc; simpl; lia. }
  destruct (Regex.matchAt r (x :: t)) as [[s' c]|] eqn:E; [|exact Hnext].
  apply matchAt_shorter in E.
  destruct ((length s' =? length (x :: t))%nat && bool_decide (acc = [])) eqn:B;
    [exact Hnext|].
  f_equal. apply IH; unfold splitMeasure in *; simpl in *.
  - destruct (Nat.eqb_spec (length s') (S (length t))).
    + destruct acc; [rewrite bool_decide_eq_true_2 in B by done; discriminate|].
      lia.
    + lia.
  - destruct (Nat.eqb_spec (length s') (S (length t))).
    + destruct acc; [rewrite bool_decide_eq_true_2 in B by done; discriminate|].
      lia.
    + lia.
Qed.



(** ** The sort *)

Section ArraySortFacts.
Context {A : Type} (cmp : A -> A -> Z).

Lemma insert_sorted_perm x l : Permutation (insert_sorted cmp x l) (x :: l).
Proof.
  induction l as [|y l IH]; simpl; [reflexivity|].
  destruct (cmp x y <=? 0); [reflexivity|].
  rewrite IH. apply perm_swap.
Qed.

Lemma array_sort_perm l : Permutation (array_sort cmp l) l.
Proof.
  induction l as [|x l IH]; simpl; [reflexivity|].
  rewrite insert_sorted_perm. now constructor.
Qed.

Lemma array_sort_length l : length (array_sort cmp l) = length l.
Proof. apply Permutation_length, array_sort_perm. Qed.
End ArraySortFacts.

Definition leNumber (a b : Episode) : Prop := ep_number a <= ep_number b.

Lemma insert_byNumber_sorted x l :
  StronglySorted leNumber l -> StronglySorted leNumber (insert_sorted byNumber x l).
Proof.
  induction 1 as [|y l Hl IH Hy]; simpl.
  - repeat constructor.
  - unfold byNumber at 1. destruct (Z.leb_spec (ep_number x - ep_number y) 0).
    + constructor; [now constructor|].
      constructor; [unfold leNumber; lia|].
      eapply List.Forall_impl; [|exact Hy]. unfold leNumber. intros; simpl in *. lia.
    + constructor; [exact IH|].
      eapply Permutation_Forall; [symmetry; apply insert_sorted_perm|].
      constructor; [unfold leNumber; lia|exact Hy].
  Qed.

Lemma sort_byNumber_sorted l : StronglySorted leNumber (array_sort byNumber l).
Proof.
  induction l as [|x l IH]; simpl; [constructor|].
  now apply insert_byNumber_sorted.
Qed.

(** The sort keeps equal keys in their order: it is the stable sort. *)
Lemma insert_byNumber_stable n x l :
  List.filter (fun e => ep_number e =? n) (insert_sorted byNumber x l)
  = List.filter (fun e => ep_number e =? n) (x :: l).
Proof.
  induction l as [|y l IH]; [reflexivity|].
  cbn [insert_sorted]. unfold byNumber at 1.
  destruct (Z.leb_spec (ep_number x - ep_number y) 0); [reflexivity|].
  cbn [List.filter] in *. rewrite IH.
  destruct (Z.eqb_spec (ep_number x) n), (Z.eqb_spec (ep_number y) n);
    try reflexivity; lia.
Qed.

Lemma sort_byNumber_stable n l :
  List.filter (fun e => ep_number e =? n) (array_sort byNumber l)
  = List.filter (fun e => ep_number e =? n) l.
Proof.
  induction l as [|x l IH]; [reflexivity|].
  cbn [array_sort foldr]. rewrite insert_byNumber_stable.
  cbn [List.filter]. fold (array_sort byNumber l). now rewrite IH.
Qed.

(** ** Post-processing *)

Lemma zeros_perm l l' : Permutation l l' -> zeros l = zeros l'.
Proof.
  intros H. unfold zeros. apply Permutation_length.
  induction H; simpl; repeat destruct (ep_number _ =? 0);
    eauto using Permutation.
Qed.

Lemma resolved_perm l l' : Permutation l l' -> Permutation (resolved l) (resolved l').
Proof.
  intros H. unfold resolved.
  induction H; simpl; repeat destruct (negb _); eauto using Permutation.
Qed.

Lemma wellNumbered_perm l l' :
  Permutation l l' -> wellNumbered l -> wellNumbered l'.
Proof.
  intros HP [Hnd Hall]. split.
  - eapply Permutation_NoDup; [apply resolved_perm; exact HP|exact Hnd].
  - rewrite <- (zeros_perm _ _ HP).
    eapply Permutation_Forall; [exact HP|exact Hall].
Qed.

Lemma zeros_none l :
  Forall (fun a => ep_number a <> 0) l -> zeros l = O.
Proof.
  unfold zeros. induction 1 as [|a l Ha _ IH]; [reflexivity|].
  simpl. destruct (Z.eqb_spec (ep_number a) 0); [contradiction|exact IH].
Qed.

Lemma renumber_length s l : length (renumber s l) = length l.
Proof. revert s; induction l; intros; simpl; auto. Qed.

(** Renumbering a sorted list whose resolved numbers are distinct and clear
    of the numbers the unresolved episodes are given. *)
Lemma renumber_ascending l : forall s,
  1 <= s ->
  StronglySorted leNumber l ->
  List.NoDup (resolved l) ->
  Forall (fun e => ep_number e = 0 \/ s + Z.of_nat (zeros l) <= ep_number e) l ->
  strictlyAscending (renumber s l) /\
  Forall (fun n => s <= n) (map ep_number (renumber s l)).
Proof.
  induction l as [|e l IH]; intros s Hs Hsorted Hnd Hall.
  - split; constructor.
  - apply StronglySorted_inv in Hsorted as [Hsl Hle].
    inversion Hall as [|? ? He Hrest]; subst.
    cbn [renumber]. destruct (Z.eqb_spec (ep_number e) 0) as [Hz|Hnz].
    + cbn [ep_number].
      assert (Hzl : zeros (e :: l) = S (zeros l)).
      { unfold zeros. simpl. rewrite Hz. reflexivity. }
      destruct (IH (s + 1)) as [Hasc Hge]; try lia; auto.
      * unfold resolved in *. simpl in Hnd. rewrite Hz in Hnd. exact Hnd.
      * eapply List.Forall_impl; [|exact Hrest]. intros a Ha. simpl in Ha.
        rewrite Hzl in Ha. lia.
      * split.
        -- unfold strictlyAscending. simpl. constructor; [exact Hasc|].
           eapply List.Forall_impl; [|exact Hge]. intros; simpl in *; lia.
        -- simpl. constructor; [lia|].
           eapply List.Forall_impl; [|exact Hge]. intros; simpl in *; lia.
    + assert (Hpos : s <= ep_number e) by (destruct He; lia).
      assert (Hnz' : Forall (fun a => ep_number e < ep_number a) l).
      { unfold resolved in Hnd. simpl in Hnd.
        destruct (Z.eqb_spec (ep_number e) 0); [lia|]. simpl in Hnd.
        apply NoDup_cons_iff in Hnd as [Hnin _].
        rewrite List.Forall_forall in *. intros a Ha.
        specialize (Hle a Ha). unfold leNumber in Hle.
        destruct (Z.eq_dec (ep_number e) (ep_number a)) as [Heq|]; [|lia].
        exfalso. apply Hnin. apply filter_In. split.
        - rewrite Heq. now apply in_map.
        - destruct (Z.eqb_spec (ep_number e) 0); [lia|reflexivity]. }
      assert (Hzl : zeros l = O).
      { apply zeros_none. eapply List.Forall_impl; [|exact Hnz'].
        intros; simpl in *; lia. }
      destruct (IH (ep_number e + 1)) as [Hasc Hge]; try lia; auto.
      * unfold resolved in *. simpl in Hnd.
        destruct (Z.eqb_spec (ep_number e) 0); [lia|]. simpl in Hnd.
        now apply NoDup_cons_iff in Hnd as [_ ?].
      * rewrite Hzl. eapply List.Forall_impl; [|exact Hnz'].
        intros; simpl in *; lia.
      * split.
        -- unfold strictlyAscending. simpl. constructor; [exact Hasc|].
           eapply List.Forall_impl; [|exact Hge]. intros; simpl in *; lia.
        -- simpl. constructor; [lia|].
           eapply List.Forall_impl; [|exact Hge]. intros; simpl in *; lia.
Qed.

Lemma strictlyAscending_NoDup l :
  StronglySorted Z.lt l -> List.NoDup l.
Proof.
  induction 1 as [|x l Hl IH Hx]; constructor; auto.
  intros Hin. rewrite List.Forall_forall in Hx. specialize (Hx x Hin). lia.
Qed.

Lemma sortAndFix_ascending eps :
  wellNumbered eps -> strictlyAscending (sortAndFix eps).
Proof.
  intros Hw. unfold sortAndFix.
  pose proof (array_sort_perm byNumber eps) as HP.
  apply (wellNumbered_perm _ _ (Permutation_sym HP)) in Hw as [Hnd Hall].
  apply renumber_ascending; auto using sort_byNumber_sorted; try lia.
  eapply List.Forall_impl; [|exact Hall]. intros; simpl in *; lia.
Qed.

(** C1 (amended).  Post-processing a season whose episodes carry the raw
    numbers 0, 0, 3, 0, 7 in encounter order: the sort brings the three
    unresolved episodes to the front, they are numbered 1, 2 and 3, and the
    episode numbers are 1, 2, 3, 3, 7. *)
Theorem C1_postprocess_example (name : jsstring) (eps : list Episode) :
  map ep_number eps = [0; 0; 3; 0; 7] ->
  map ep_number (season_episodes (postProcessSeason (mkSeason name eps)))
  = [1; 2; 3; 3; 7].
Proof.
  intros H.
  destruct eps as [|[n1 t1 h1] [|[n2 t2 h2] [|[n3 t3 h3] [|[n4 t4 h4]
    [|[n5 t5 h5] [|? ?]]]]]]; simpl in H; try discriminate.
  injection H as -> -> -> -> ->. reflexivity.
Qed.

Lemma C1_postprocess_example_witness :
  map ep_number (season_episodes
                   (postProcessSeason (mkSeason (JS.lit "第一季") fiveEpisodes)))
  = [1; 2; 3; 3; 7].
Proof. apply C1_postprocess_example. reflexivity. Defined.

(** The numbers 1, 2, 3, 4, 7 are those of the renumbering alone, in
    encounter order, without the sort that precedes it. *)
Example renumber_in_encounter_order :
  map ep_number (renumber 1 fiveEpisodes) = [1; 2; 3; 4; 7].
Proof. reflexivity. Qed.

(** C1 as stated fails: the result is not 1, 2, 3, 4, 7. *)
Lemma C1_counterexample :
  map ep_number fiveEpisodes = [0; 0; 3; 0; 7] /\
  map ep_number (season_episodes
                   (postProcessSeason (mkSeason (JS.lit "第一季") fiveEpisodes)))
  <> [1; 2; 3; 4; 7].
Proof. split; [reflexivity|]. vm_compute. discriminate. Qed.

(** C2 (amended).  In every season whose resolved raw numbers are pairwise
    distinct and each greater than the number of unresolved episodes of the
    season, the episode numbers are strictly ascending after
    post-processing, and no two episodes share a number. *)
Theorem C2_ascending_when_well_numbered (seasons : list Season) :
  Forall (fun s => wellNumbered (season_episodes s)) seasons ->
  Forall (fun s => strictlyAscending (season_episodes s) /\
                   List.NoDup (map ep_number (season_episodes s)))
         (postProcess seasons).
Proof.
  intros H. unfold postProcess. apply List.Forall_map.
  eapply List.Forall_impl; [|exact H]. intros s Hs. simpl.
  pose proof (sortAndFix_ascending _ Hs) as Hasc.
  split; [exact Hasc|]. now apply strictlyAscending_NoDup.
Qed.

Lemma C2_ascending_when_well_numbered_witness :
  Forall (fun s => strictlyAscending (season_episodes s) /\
                   List.NoDup (map ep_number (season_episodes s)))
         (postProcess [mixedSeason]).
Proof.
  apply C2_ascending_when_well_numbered.
  constructor; [|constructor]. split.
  - vm_compute. repeat constructor; simpl; intuition discriminate.
  - repeat constructor; vm_compute; intuition congruence.
Defined.

(** C2 as stated fails: two episodes whose raw numbers are both 5 keep the
    number 5. *)
Lemma C2_counterexample :
  Forall (fun e => 0 <= ep_number e) twoFives /\
  map ep_number (sortAndFix twoFives) = [5; 5] /\
  ~ strictlyAscending
      (season_episodes (postProcessSeason (mkSeason (JS.lit "第一季") twoFives))).
Proof.
  split; [repeat constructor; vm_compute; discriminate|].
  split; [reflexivity|].
  intros H. unfold strictlyAscending in H.
  change (StronglySorted Z.lt [5; 5]) in H.
  apply StronglySorted_inv in H as [_ H].
  apply Forall_inv in H. lia.
Qed.

(** ** Search extractor *)

Lemma resultsFor_app u a b :
  resultsFor u (a ++ b) = resultsFor u a ++ resultsFor u b.
Proof. apply List.filter_app. Qed.

(** Case analysis on the decisions of the goal. *)
Ltac decide_all :=
  repeat match goal with
         | |- context [bool_decide ?P] =>
           destruct (decide P);
           [rewrite (bool_decide_eq_true_2 P) by assumption
           |rewrite (bool_decide_eq_false_2 P) by assumption]
         end.

(** What the loop adds for the URL [u], from any state of [results] and
    [seenUrls]. *)
Lemma search_loop_for u anchors : forall res (seen : gset jsstring),
  resultsFor u (fst (fold_left searchStep anchors (res, seen)))
  = resultsFor u res ++
    (if bool_decide (u ∈ seen) then []
     else match firstAnchorFor u anchors with
          | Some el => if titleAccepted (anchorTitle el) then [resultOf el] else []
          | None => []
          end).
Proof.
  induction anchors as [|el l IH]; intros res seen.
  - simpl. destruct (bool_decide _); now rewrite app_nil_r.
  - cbn [fold_left firstAnchorFor List.find].
    fold (firstAnchorFor u l).
    unfold searchStep at 2.
    destruct (decide (anchorDetailUrl el ∈ seen)) as [Hseen|Hseen].
    + rewrite (bool_decide_eq_true_2 _ Hseen), IH. f_equal.
      decide_all; try reflexivity; set_solver.
    + rewrite (bool_decide_eq_false_2 _ Hseen).
      destruct (titleAccepted (anchorTitle el)) eqn:Hacc; rewrite IH.
      * rewrite resultsFor_app, <- app_assoc. f_equal.
        unfold resultsFor at 1. cbn [List.filter sr_detailUrl].
        fold (resultOf el).
        decide_all; rewrite ?Hacc; try reflexivity; set_solver.
      * f_equal.
        decide_all; rewrite ?Hacc; try reflexivity; set_solver.
Qed.

(** C3 (amended).  For every search page and every detail URL, the results
    for that URL are decided by the first anchor that points at it: its
    result alone when its title is accepted, none when its title is refused
    (whatever the later anchors to the same URL carry) or when no anchor
    points at the URL. *)
Theorem C3_first_anchor_decides (u : jsstring) (anchors : list SearchAnchor) :
  resultsFor u (searchAnime anchors)
  = match firstAnchorFor u anchors with
    | Some el => if titleAccepted (anchorTitle el) then [resultOf el] else []
    | None => []
    end.
Proof.
  unfold searchAnime. rewrite search_loop_for.
  rewrite bool_decide_eq_false_2 by set_solver. reflexivity.
Qed.

(** C3 as stated fails: two anchors point at one detail URL, the second
    has an acceptable title, and no result is produced for the URL,
    because the first has none. *)
Lemma C3_counterexample :
  anchorDetailUrl pictureAnchor = anchorDetailUrl captionAnchor /\
  titleAccepted (anchorTitle captionAnchor) = true /\
  resultsFor (anchorDetailUrl captionAnchor)
    (searchAnime [pictureAnchor; captionAnchor]) = [].
Proof. vm_compute. auto. Qed.

(** At most one result for a detail URL. *)
Lemma at_most_one_result (u : jsstring) (anchors : list SearchAnchor) :
  (length (resultsFor u (searchAnime anchors)) <= 1)%nat.
Proof.
  unfold searchAnime. rewrite search_loop_for. cbn [resultsFor List.filter app].
  destruct (bool_decide _); [simpl; lia|].
  destruct (firstAnchorFor u anchors) as [el|]; [|simpl; lia].
  destruct (titleAccepted _); simpl; lia.
Qed.

(** ** Entity decoding *)

Section ReplaceAll.
Context (p r : jsstring) (Hp : (0 < length p)%nat).

Lemma replaceAll_fuel_enough : forall f1 f2 s,
  (length s <= f1)%nat -> (length s <= f2)%nat ->
  JS.replaceAll_fuel f1 p r s = JS.replaceAll_fuel f2 p r s.
Proof.
  induction f1 as [|f1 IH]; intros f2 s H1 H2.
  - destruct s; [|simpl in H1; lia]. now destruct f2.
  - destruct f2 as [|f2].
    + destruct s; [reflexivity|simpl in H2; lia].
    + destruct s as [|c s]; [reflexivity|].
      cbn [JS.replaceAll_fuel]. simpl in H1, H2.
      destruct (JS.startsWith (c :: s) p).
      * f_equal. apply IH; rewrite length_drop; simpl; lia.
      * f_equal. apply IH; lia.
Qed.

Lemma replaceAll_nil : JS.replaceAll p r [] = [].
Proof. reflexivity. Qed.

Lemma replaceAll_cons c s :
  JS.replaceAll p r (c :: s)
  = if JS.startsWith (c :: s) p
    then r ++ JS.replaceAll p r (drop (length p) (c :: s))
    else c :: JS.replaceAll p r s.
Proof.
  unfold JS.replaceAll at 1. cbn [length JS.replaceAll_fuel].
  destruct (JS.startsWith (c :: s) p).
  - f_equal. unfold JS.replaceAll. apply replaceAll_fuel_enough; [|lia].
    rewrite length_drop. simpl. lia.
  - f_equal.
Qed.

(** Strong induction on the length of the string, for the lemmas below. *)
Lemma replaceAll_ind (P : jsstring -> Prop) :
  P [] ->
  (forall c s, JS.startsWith (c :: s) p = true ->
               P (drop (length p) (c :: s)) -> P (c :: s)) ->
  (forall c s, JS.startsWith (c :: s) p = false -> P s -> P (c :: s)) ->
  forall s, P s.
Proof.
  intros Hnil Hhit Hmiss s.
  remember (length s) as n eqn:Hn.
  revert s Hn. induction n as [n IH] using lt_wf_ind. intros s Hn.
  destruct s as [|c s]; [exact Hnil|].
  destruct (JS.startsWith (c :: s) p) eqn:Hs.
  - apply Hhit; [exact Hs|].
    eapply IH; [|reflexivity]. subst n.
    rewrite length_drop. simpl. lia.
  - apply Hmiss; [exact Hs|]. eapply IH; [|reflexivity]. subst n. simpl. lia.
Qed.

Lemma replaceAll_absent s :
  JS.includes s p = false -> JS.replaceAll p r s = s.
Proof.
  induction s as [|c s IH]; [reflexivity|].
  cbn [JS.includes]. intros H. apply orb_false_iff in H as [H1 H2].
  rewrite replaceAll_cons, H1. f_equal. auto.
Qed.

Lemma startsWith_length s : JS.startsWith s p = true -> (length p <= length s)%nat.
Proof.
  clear Hp. revert s. induction p as [|c q IH]; intros s H; simpl; [lia|].
  destruct s as [|d s]; [discriminate|]. simpl in H.
  apply andb_true_iff in H as [_ H]. apply IH in H. simpl. lia.
Qed.

Lemma replaceAll_length s :
  (length r <= length p)%nat ->
  (length (JS.replaceAll p r s) <= length s)%nat.
Proof.
  intros Hr. induction s as [| c s Hs IH | c s Hs IH] using replaceAll_ind.
  - simpl. lia.
  - rewrite replaceAll_cons, Hs, length_app.
    apply startsWith_length in Hs.
    rewrite length_drop in IH. lia.
  - rewrite replaceAll_cons, Hs. simpl. lia.
Qed.

Lemma replaceAll_shrinks s :
  (length r < length p)%nat -> JS.includes s p = true ->
  (length (JS.replaceAll p r s) < length s)%nat.
Proof.
  intros Hr. induction s as [| c s Hs IH | c s Hs IH] using replaceAll_ind.
  - destruct p; [simpl in Hp; lia|discriminate].
  - intros _. rewrite replaceAll_cons, Hs, length_app.
    pose proof (replaceAll_length (drop (length p) (c :: s))) as Hl.
    apply startsWith_length in Hs. rewrite length_drop in Hl. lia.
  - cbn [JS.includes]. rewrite Hs. simpl. intros H.
    rewrite replaceAll_cons, Hs. simpl. apply IH in H. lia.
Qed.

(** A replacement changes a string exactly when the pattern occurs. *)
Lemma replaceAll_fixed_iff s :
  (length r < length p)%nat ->
  JS.replaceAll p r s = s <-> JS.includes s p = false.
Proof.
  intros Hr. split; [|apply replaceAll_absent].
  intros H. destruct (JS.includes s p) eqn:Hi; [|reflexivity].
  apply replaceAll_shrinks in Hi; [|exact Hr]. rewrite H in Hi. lia.
Qed.
End ReplaceAll.

Ltac nonempty := vm_compute; lia.

Lemma replaceAll_id p r s :
  JS.includes s p = false -> (0 < length p)%nat -> JS.replaceAll p r s = s.
Proof. intros H Hp. now apply replaceAll_absent. Qed.

Lemma entityFree_decode s : entityFree s -> decodeHtmlEntities s = s.
Proof.
  intros H. unfold entityFree, entities in H.
  repeat match type of H with
         | Forall _ (_ :: _) => apply Forall_cons_iff in H as [? H]
         end.
  unfold decodeHtmlEntities.
  repeat (rewrite (replaceAll_id _ _ s) by (assumption || nonempty)).
  reflexivity.
Qed.

(** A string the decoding leaves as it is contains no entity token: each
    replacement can only shorten the string, and shortens it when its
    token occurs. *)
Lemma decode_fixed_entityFree s : decodeHtmlEntities s = s -> entityFree s.
Proof.
  unfold decodeHtmlEntities. intros H.
  set (t1 := JS.replaceAll (JS.lit "&amp;") (JS.lit "&") s) in *.
  set (t2 := JS.replaceAll (JS.lit "&lt;") (JS.lit "<") t1) in *.
  set (t3 := JS.replaceAll (JS.lit "&gt;") (JS.lit ">") t2) in *.
  set (t4 := JS.replaceAll (JS.lit "&quot;") [34%N] t3) in *.
  assert (L1 : (length t1 <= length s)%nat)
    by (apply replaceAll_length; vm_compute; lia).
  assert (L2 : (length t2 <= length t1)%nat)
    by (apply replaceAll_length; vm_compute; lia).
  assert (L3 : (length t3 <= length t2)%nat)
    by (apply replaceAll_length; vm_compute; lia).
  assert (L4 : (length t4 <= length t3)%nat)
    by (apply replaceAll_length; vm_compute; lia).
  assert (L5 : (length s <= length t4)%nat).
  { rewrite <- H at 1. apply replaceAll_length; vm_compute; lia. }
  assert (Hstep : forall p r u, (0 < length p)%nat ->
            (length r < length p)%nat ->
            (length u <= length (JS.replaceAll p r u))%nat ->
            JS.includes u p = false /\ JS.replaceAll p r u = u).
  { intros p r u Hp Hr Hl.
    destruct (JS.includes u p) eqn:Hi.
    - apply (replaceAll_shrinks p r Hp) in Hi; [lia|exact Hr].
    - split; [reflexivity|]. now apply (replaceAll_absent p r Hp). }
  destruct (Hstep (JS.lit "&amp;") (JS.lit "&") s) as [I1 E1];
    [vm_compute; lia|vm_compute; lia|fold t1; lia|].
  fold t1 in E1.
  destruct (Hstep (JS.lit "&lt;") (JS.lit "<") t1) as [I2 E2];
    [vm_compute; lia|vm_compute; lia|fold t2; lia|].
  fold t2 in E2.
  destruct (Hstep (JS.lit "&gt;") (JS.lit ">") t2) as [I3 E3];
    [vm_compute; lia|vm_compute; lia|fold t3; lia|].
  fold t3 in E3.
  destruct (Hstep (JS.lit "&quot;") [34%N] t3) as [I4 E4];
    [vm_compute; lia|vm_compute; lia|fold t4; lia|].
  fold t4 in E4.
  destruct (Hstep (JS.lit "&#39;") (JS.lit "'") t4) as [I5 E5];
    [vm_compute; lia|vm_compute; lia|rewrite H; lia|].
  rewrite E4, E3, E2, E1 in I5. rewrite E3, E2, E1 in I4.
  rewrite E2, E1 in I3. rewrite E1 in I2.
  unfold entityFree, entities. repeat constructor; assumption.
Qed.

(** C6 (amended).  For every string [s]: one application is the
    replacement of each [&amp;] by a single [&] and a second application
    changes nothing, exactly when no entity token is left once each [&amp;]
    of [s] is made [&]. *)
Theorem C6_decode_stable_iff (s : jsstring) :
  (decodeHtmlEntities s = ampDecoded s /\
   decodeHtmlEntities (decodeHtmlEntities s) = decodeHtmlEntities s)
  <-> entityFree (ampDecoded s).
Proof.
  split.
  - intros [H1 H2]. rewrite H1 in H2. now apply decode_fixed_entityFree.
  - intros H.
    assert (E : decodeHtmlEntities s = ampDecoded s).
    { unfold entityFree, entities in H.
      repeat match type of H with
             | Forall _ (_ :: _) => apply Forall_cons_iff in H as [? H]
             end.
      unfold decodeHtmlEntities. fold (ampDecoded s).
      repeat (rewrite (replaceAll_id _ _ (ampDecoded s))
                by (assumption || nonempty)).
      reflexivity. }
    split; [exact E|]. rewrite E. now apply entityFree_decode.
Qed.

Lemma C6_decode_stable_iff_witness :
  decodeHtmlEntities (JS.lit "/cover/a.jpg?w=200&amp;h=300")
  = JS.lit "/cover/a.jpg?w=200&h=300" /\
  decodeHtmlEntities (decodeHtmlEntities (JS.lit "/cover/a.jpg?w=200&amp;h=300"))
  = decodeHtmlEntities (JS.lit "/cover/a.jpg?w=200&amp;h=300").
Proof.
  destruct (proj2 (C6_decode_stable_iff (JS.lit "/cover/a.jpg?w=200&amp;h=300")))
    as [H1 H2].
  - repeat constructor.
  - split; [rewrite H1; reflexivity|exact H2].
Defined.

(** C6 as stated fails: a string that contains [&amp;] and changes under
    the second application. *)
Lemma C6_counterexample :
  JS.includes (JS.lit "/cover/a.jpg?t=A&amp;amp;B") (JS.lit "&amp;") = true /\
  decodeHtmlEntities (JS.lit "/cover/a.jpg?t=A&amp;amp;B")
  = JS.lit "/cover/a.jpg?t=A&amp;B" /\
  decodeHtmlEntities (decodeHtmlEntities (JS.lit "/cover/a.jpg?t=A&amp;amp;B"))
  = JS.lit "/cover/a.jpg?t=A&B" /\
  decodeHtmlEntities (decodeHtmlEntities (JS.lit "/cover/a.jpg?t=A&amp;amp;B"))
  <> decodeHtmlEntities (JS.lit "/cover/a.jpg?t=A&amp;amp;B").
Proof. vm_compute. repeat split; discriminate. Qed.

(** ** Redirects *)

(** The two forms the fetcher resolves: a location that starts with a
    slash is appended to the origin, a location that starts with neither
    a slash nor [http] is appended to the origin and a slash. *)
Lemma redirectUrl_slash url loc parsed :
  parseURL url = Some parsed -> JS.startsWith loc (JS.lit "/") = true ->
  redirectUrl url loc
  = Some (url_protocol parsed ++ JS.lit "//" ++ url_host parsed ++ loc).
Proof. intros Hp Hs. unfold redirectUrl. now rewrite Hs, Hp. Qed.

Lemma redirectUrl_bare url loc parsed :
  parseURL url = Some parsed -> JS.startsWith loc (JS.lit "/") = false ->
  JS.startsWith loc (JS.lit "http") = false ->
  redirectUrl url loc
  = Some (url_protocol parsed ++ JS.lit "//" ++ url_host parsed
            ++ JS.lit "/" ++ loc).
Proof. intros Hp Hs Hh. unfold redirectUrl. now rewrite Hs, Hh, Hp. Qed.

(** A protocol-relative location starts with a slash, so it is appended to
    the origin like a root-relative one. *)
Lemma redirectUrl_protocol_relative url rest parsed :
  parseURL url = Some parsed ->
  redirectUrl url (JS.lit "//" ++ rest)
  = Some (url_protocol parsed ++ JS.lit "//" ++ url_host parsed
            ++ JS.lit "//" ++ rest).
Proof. intros Hp. unfold redirectUrl. simpl JS.startsWith. now rewrite Hp. Qed.

(** The fetcher recurses on the URL [redirectUrl] gives. *)
Lemma fetchUrl_redirect n net url res code loc target :
  net url = inl res -> statusCode res = Some code -> 300 <= code < 400 ->
  location res = Some loc -> loc <> [] -> redirectUrl url loc = Some target ->
  fetchUrl (S n) net url = fetchUrl n net target.
Proof.
  intros Hn Hc Hr Hl Hne Ht. cbn [fetchUrl]. rewrite Hn, Hc, Hl.
  destruct loc as [|c loc]; [contradiction|].
  destruct (Z.eqb_spec code 0); [lia|].
  destruct (Z.leb_spec 300 code); [|lia].
  destruct (Z.ltb_spec code 400); [|lia]. simpl. now rewrite Ht.
Qed.

(** C5 (the code at the failing input).  For the protocol-relative location
    [//static-a.xgcartoon.com/detail/abc] met while fetching
    [https://tw.xgcartoon.com/detail/abc], the fetcher recurses on
    [https://tw.xgcartoon.com//static-a.xgcartoon.com/detail/abc], not on
    that host under the original scheme. *)
Theorem C5_protocol_relative_location :
  redirectUrl (JS.lit "https://tw.xgcartoon.com/detail/abc")
              (JS.lit "//static-a.xgcartoon.com/detail/abc")
  = Some (JS.lit "https://tw.xgcartoon.com//static-a.xgcartoon.com/detail/abc")
  /\ redirectUrl (JS.lit "https://tw.xgcartoon.com/detail/abc")
                 (JS.lit "//static-a.xgcartoon.com/detail/abc")
     <> Some (JS.lit "https://static-a.xgcartoon.com/detail/abc").
Proof. split; [vm_compute; reflexivity|]. vm_compute. discriminate. Qed.

(** The image path does what the redirect path misses. *)
Example fixImage_protocol_relative :
  fixImage (JS.lit "//static-a.xgcartoon.com/cover/a.jpg")
  = JS.lit "https://static-a.xgcartoon.com/cover/a.jpg".
Proof. vm_compute. reflexivity. Qed.

(** ** Progress lines *)

(** C7.  The classifier on the example line sends one progress event:
    episode 5, percent 42.5, downloaded [50MB], total [120MB], speed
    [3.1MB/s], eta [00:14], no status and no file name. *)
Theorem C7_progress_line (cid : jsstring) :
  classifyLine cid exampleLine
  = [DownloadProgress
       (mkProgressData cid (Some 5) (Some (85 # 2)%Q)
          (Some (JS.lit "50MB")) (Some (JS.lit "120MB"))
          (Some (JS.lit "3.1MB/s")) (Some (JS.lit "00:14")) None None)].
Proof. vm_compute. reflexivity. Qed.

(** The same line through the [stdout] handler, ended by a carriage
    return. *)
Example progress_line_chunk (cid : jsstring) :
  stdoutChunk cid [] (exampleLine ++ [13%N]) = (classifyLine cid exampleLine, []).
Proof. vm_compute. reflexivity. Qed.

(** ** The line splitter of the [stdout] handler *)

Lemma take_drop_while {A} (p : A -> bool) (l : list A) :
  JS.takeWhile p l ++ JS.dropWhile p l = l.
Proof.
  induction l as [|x l IH]; [reflexivity|]. simpl.
  destruct (p x); [simpl; now rewrite IH|reflexivity].
Qed.

Lemma takeWhile_all {A} (p : A -> bool) (l : list A) :
  Forall (fun c => p c = true) (JS.takeWhile p l).
Proof.
  induction l as [|x l IH]; [constructor|]. simpl.
  destruct (p x) eqn:E; [now constructor|constructor].
Qed.

Lemma dropWhile_length {A} (p : A -> bool) (l : list A) :
  (length (JS.dropWhile p l) <= length l)%nat.
Proof.
  induction l as [|x l IH]; simpl; [lia|]. destruct (p x); simpl; lia.
Qed.

(** A greedy repetition of one character class before a continuation that
    always succeeds takes the longest run. *)
Lemma star_loop_class (p : N -> bool) (c : Regex.caps) : forall fuel s,
  (length s < fuel)%nat ->
  Regex.star_loop (Regex.m (Regex.Chr p)) true
    (fun s' c' => Some (s', c')) fuel s c
  = Some (JS.dropWhile p s, c).
Proof.
  induction fuel as [|fuel IH]; intros s Hf; [lia|].
  cbn [Regex.star_loop Regex.m].
  destruct s as [|x t]; [reflexivity|].
  cbn [JS.dropWhile]. destruct (p x); [|reflexivity].
  assert (Hlt : (length t <? length (x :: t))%nat = true)
    by (apply Nat.ltb_lt; simpl; lia).
  rewrite Hlt, IH by (simpl in Hf; lia). reflexivity.
Qed.

(** The pattern of the splitter at the start of a string: the run of line
    breaks there, when there is one. *)
Lemma matchAt_lineBreak s :
  Regex.matchAt lineBreakRe s
  = match s with
    | x :: t =>
      if isBreak x then Some (JS.dropWhile isBreak t, [None]) else None
    | [] => None
    end.
Proof.
  unfold Regex.matchAt, lineBreakRe, Regex.plus, Regex.oneOf.
  cbn [Regex.m Regex.groups Nat.max replicate].
  destruct s as [|x t]; [reflexivity|].
  fold (isBreak x). destruct (isBreak x); [|reflexivity].
  apply (star_loop_class isBreak). lia.
Qed.

Lemma noBreak_app a b : noBreak a -> noBreak b -> noBreak (a ++ b).
Proof. apply Forall_app_2. Qed.

Lemma Terminated_app l1 t1 l2 t2 :
  Terminated l1 t1 -> Terminated l2 t2 -> Terminated (l1 ++ l2) (t1 ++ t2).
Proof.
  induction 1 as [|line sep lines text Hl Hs Hb Ht IH]; intros H2;
    [exact H2|].
  simpl. rewrite <- !app_assoc. constructor; auto.
Qed.

(** The loop of the splitter: the fragments but the last are terminated
    lines of the text, the last is what follows the last line break. *)
Lemma split_loop_lines : forall fuel acc s,
  (length s < fuel)%nat -> noBreak acc ->
  exists lines last text,
    Regex.split_loop fuel lineBreakRe acc s = lines ++ [last] /\
    Terminated lines text /\ acc ++ s = text ++ last /\ noBreak last.
Proof.
  induction fuel as [|fuel IH]; intros acc s Hf Hacc; [lia|].
  cbn [Regex.split_loop]. destruct s as [|x t].
  - exists [], acc, []. rewrite app_nil_r.
    repeat split; [constructor|exact Hacc].
  - rewrite matchAt_lineBreak. destruct (isBreak x) eqn:Hx.
    + assert (Hlen : (length (JS.dropWhile isBreak t) =? length (x :: t))%nat
                     = false).
      { apply Nat.eqb_neq. pose proof (dropWhile_length isBreak t).
        simpl. lia. }
      rewrite Hlen. cbn [andb].
      destruct (IH [] (JS.dropWhile isBreak t)) as (lines & last & text & E & T & D & L).
      { pose proof (dropWhile_length isBreak t). simpl in Hf. lia. }
      { constructor. }
      exists (acc :: lines), last, (acc ++ (x :: JS.takeWhile isBreak t) ++ text).
      rewrite E. repeat split.
      * apply Terminated_cons;
          [exact Hacc|discriminate| |exact T].
        constructor; [exact Hx|apply takeWhile_all].
      * simpl in D. rewrite <- (take_drop_while isBreak t) at 1.
        rewrite D, <- !app_assoc. reflexivity.
      * exact L.
    + destruct (IH (acc ++ [x]) t) as (lines & last & text & E & T & D & L).
      { simpl in Hf. lia. }
      { apply noBreak_app; [exact Hacc|]. repeat constructor. exact Hx. }
      exists lines, last, text. rewrite E. repeat split; auto.
      rewrite <- D, <- app_assoc. reflexivity.
Qed.

Lemma pop_snoc {A} (l : list A) (x : A) : pop (l ++ [x]) = (l, Some x).
Proof. unfold pop. rewrite rev_app_distr. simpl. now rewrite rev_involutive. Qed.

(** One chunk: the lines handed to the classifier are terminated lines of
    the carry-over followed by the chunk, and the new carry-over is the
    rest, free of line breaks. *)
Lemma stdoutLines_terminated buffer data :
  noBreak buffer ->
  exists text,
    Terminated (fst (stdoutLines buffer data)) text /\
    buffer ++ data = text ++ snd (stdoutLines buffer data) /\
    noBreak (snd (stdoutLines buffer data)).
Proof.
  intros Hb. unfold stdoutLines, Regex.split.
  destruct (buffer ++ data) as [|x t] eqn:Ebd.
  - rewrite matchAt_lineBreak. simpl. exists [].
    repeat split; constructor.
  - destruct (split_loop_lines (2 * length (x :: t) + 1) [] (x :: t))
      as (lines & last & text & E & T & D & L); [lia|constructor|].
    rewrite E, pop_snoc. cbn [fst snd]. exists text.
    destruct last; repeat split; auto.
Qed.

Lemma linesRun_terminated chunks : forall buffer,
  noBreak buffer ->
  exists text,
    Terminated (fst (linesRun buffer chunks)) text /\
    buffer ++ concat chunks = text ++ snd (linesRun buffer chunks) /\
    noBreak (snd (linesRun buffer chunks)).
Proof.
  induction chunks as [|data rest IH]; intros buffer Hb.
  - simpl. exists []. rewrite app_nil_r. repeat split; [constructor|exact Hb].
  - cbn [linesRun concat].
    destruct (stdoutLines_terminated buffer data Hb) as (t1 & T1 & D1 & L1).
    destruct (stdoutLines buffer data) as [lines buffer'].
    cbn [fst snd] in *.
    destruct (IH buffer' L1) as (t2 & T2 & D2 & L2).
    destruct (linesRun buffer' rest) as [lines' buffer''].
    cbn [fst snd] in *.
    exists (t1 ++ t2). repeat split; [now apply Terminated_app| |exact L2].
    rewrite app_assoc, D1, <- !app_assoc. now rewrite D2.
Qed.

Lemma stdoutRun_lines cid chunks : forall buffer,
  stdoutRun cid buffer chunks
  = (flat_map (processLine cid) (fst (linesRun buffer chunks)),
     snd (linesRun buffer chunks)).
Proof.
  induction chunks as [|data rest IH]; intros buffer; [reflexivity|].
  cbn [stdoutRun linesRun]. unfold stdoutChunk.
  destruct (stdoutLines buffer data) as [lines buffer'].
  rewrite IH. destruct (linesRun buffer' rest) as [lines' buffer''].
  cbn [fst snd]. now rewrite flat_map_app.
Qed.

(** A chunk without a line break completes no line: nothing is sent and
    the chunk joins the carry-over. *)
Lemma stdoutChunk_unterminated cid buffer data :
  noBreak buffer -> noBreak data ->
  stdoutChunk cid buffer data = ([], buffer ++ data).
Proof.
  intros Hb Hd.
  assert (Hloop : forall fuel acc s, (length s < fuel)%nat -> noBreak s ->
            Regex.split_loop fuel lineBreakRe acc s = [acc ++ s]).
  { induction fuel as [|fuel IH]; intros acc s Hf Hs; [lia|].
    cbn [Regex.split_loop]. destruct s as [|x t]; [now rewrite app_nil_r|].
    rewrite matchAt_lineBreak. inversion Hs as [|? ? Hx Ht]; subst.
    rewrite Hx, IH by (simpl in Hf; try lia; assumption).
    now rewrite <- app_assoc. }
  unfold stdoutChunk, stdoutLines, Regex.split.
  pose proof (noBreak_app _ _ Hb Hd) as Hbd.
  destruct (buffer ++ data) as [|x t] eqn:E.
  - rewrite matchAt_lineBreak. reflexivity.
  - rewrite Hloop by (try lia; assumption). reflexivity.
Qed.

(** C8.  For every sequence of chunks fed to the [stdout] handler from an
    empty carry-over: what is sent is what the classifier sends on a list
    of lines, these lines are in the text received, each free of line
    breaks and followed by a run of at least one carriage return or line
    feed, and what remains of the text after them is the carry-over, which
    has no line break and has produced nothing. *)
Theorem C8_only_terminated_lines (cid : jsstring) (chunks : list jsstring) :
  exists lines text,
    fst (stdoutRun cid [] chunks) = flat_map (processLine cid) lines /\
    Terminated lines text /\
    concat chunks = text ++ snd (stdoutRun cid [] chunks) /\
    noBreak (snd (stdoutRun cid [] chunks)).
Proof.
  destruct (linesRun_terminated chunks []) as (text & T & D & L); [constructor|].
  exists (fst (linesRun [] chunks)), text.
  rewrite stdoutRun_lines. cbn [fst snd]. auto.
Qed.

(** The two chunks of the specification's example, and a line cut in two
    chunks: the first part alone completes no line. *)
Example two_redraws :
  linesRun [] [JS.lit "Ep.1 10%" ++ [13%N]; JS.lit "Ep.1 20%" ++ [13%N]]
  = ([JS.lit "Ep.1 10%"; JS.lit "Ep.1 20%"], []).
Proof. vm_compute. reflexivity. Qed.

Example cut_line :
  linesRun [] [JS.lit "Ep.1 1"] = ([], JS.lit "Ep.1 1") /\
  linesRun [] [JS.lit "Ep.1 1"; JS.lit "0%" ++ [13%N]]
  = ([JS.lit "Ep.1 10%"], []).
Proof. vm_compute. auto. Qed.

(** *** The chunking does not matter *)

Lemma scan_line l : forall acc s,
  noBreak l -> scan acc (l ++ s) = scan (acc ++ l) s.
Proof.
  induction l as [|c l IH]; intros acc s H; [now rewrite app_nil_r|].
  inversion H as [|? ? Hc Hl]; subst. cbn [app scan]. rewrite Hc.
  rewrite IH by exact Hl. now rewrite <- app_assoc.
Qed.

Lemma scan_breaks sep : forall s,
  Forall (fun c => isBreak c = true) sep -> scan [] (sep ++ s) = scan [] s.
Proof.
  induction sep as [|c sep IH]; intros s H; [reflexivity|].
  inversion H as [|? ? Hc Hs]; subst. cbn [app scan]. rewrite Hc.
  rewrite IH by exact Hs. now destruct (scan [] s).
Qed.

Lemma scan_terminated lines text :
  Terminated lines text ->
  forall rest, noBreak rest ->
    scan [] (text ++ rest) = (List.filter nonEmpty lines, rest).
Proof.
  induction 1 as [|line sep lines text Hl Hne Hb Ht IH]; intros rest Hr.
  - cbn [app]. rewrite <- (app_nil_r rest) at 1.
    rewrite scan_line by exact Hr. reflexivity.
  - rewrite <- !app_assoc. rewrite scan_line by exact Hl. cbn [app].
    destruct sep as [|c sep]; [contradiction|].
    inversion Hb as [|? ? Hc Hs]; subst. cbn [app scan]. rewrite Hc.
    rewrite scan_breaks by exact Hs. rewrite IH by exact Hr.
    cbn [List.filter]. now destruct line.
Qed.

Lemma processLine_nonEmpty cid lines :
  flat_map (processLine cid) (List.filter nonEmpty lines)
  = flat_map (processLine cid) lines.
Proof.
  induction lines as [|l lines IH]; [reflexivity|].
  cbn [List.filter flat_map]. destruct l as [|c l]; [exact IH|].
  cbn [nonEmpty flat_map]. now rewrite IH.
Qed.

(** For the texts that the handler obtains from the chunks, each decoded
    on its own: what is sent, and the carry-over left, depend on the
    concatenation of these texts only, not on where it is cut. *)
Theorem chunking_irrelevant (cid : jsstring) (chunks : list jsstring) :
  stdoutRun cid [] chunks = stdoutRun cid [] [concat chunks].
Proof.
  rewrite !stdoutRun_lines.
  destruct (linesRun_terminated chunks []) as (t1 & T1 & D1 & L1);
    [constructor|].
  destruct (linesRun_terminated [concat chunks] []) as (t2 & T2 & D2 & L2);
    [constructor|].
  cbn [concat] in D2. rewrite app_nil_r in D2. cbn [app] in D1, D2.
  pose proof (scan_terminated _ _ T1 _ L1) as S1.
  pose proof (scan_terminated _ _ T2 _ L2) as S2.
  rewrite <- D1 in S1. rewrite <- D2 in S2. rewrite S1 in S2.
  injection S2 as Hlines Hrest.
  rewrite <- (processLine_nonEmpty cid (fst (linesRun [] chunks))).
  rewrite <- (processLine_nonEmpty cid (fst (linesRun [] [concat chunks]))).
  now rewrite Hlines, Hrest.
Qed.

(** ** Download queue *)

Section Queue.
Context (host : Host).

(** Promotion of the head of the queue when it requests an episode. *)
Lemma processQueue_spawns st item q firstEp eps :
  downloadQueue st = item :: q ->
  opt_episodes (qi_options item) = firstEp :: eps ->
  processQueue host st
  = (mkState (item :: q) (Some (length (spawned st))) true (mainWindow st)
       (spawned st ++ [workerSpawn host (qi_options item) firstEp])
       (<[length (spawned st) :=
            mkClosure (qi_win item) (opt_cartoonId (qi_options item)) []]>
          (closures st))
       (signals st) (sent st),
     Return tt).
Proof.
  intros Hq He. unfold processQueue, bind, gets, modify.
  rewrite Hq. cbn [downloadQueue setProcessing]. rewrite He.
  unfold spawn, setActive, setClosure. cbn -[workerSpawn]. now rewrite Hq.
Qed.

(** Promotion of a head that requests no episode. *)
Lemma processQueue_throws st item q :
  downloadQueue st = item :: q ->
  opt_episodes (qi_options item) = [] ->
  processQueue host st = (setProcessing true st, Throw undefinedHref).
Proof.
  intros Hq He. unfold processQueue, bind, gets, modify, throw.
  rewrite Hq. cbn [downloadQueue setProcessing]. now rewrite He.
Qed.

Lemma processQueue_idle st :
  downloadQueue st = [] ->
  processQueue host st = (setProcessing false st, Return tt).
Proof.
  intros Hq. unfold processQueue, bind, gets, modify. now rewrite Hq.
Qed.
Lemma startDownload_idle st win options :
  queueProcessing st = false ->
  startDownload host win options st
  = processQueue host
      (setQueue (downloadQueue st ++ [mkQueueItem win options]) st).
Proof.
  intros H. unfold startDownload, bind, modify, gets.
  cbn [setQueue queueProcessing]. now rewrite H.
Qed.

Lemma startDownload_busy st win options :
  queueProcessing st = true ->
  startDownload host win options st
  = (setQueue (downloadQueue st ++ [mkQueueItem win options]) st, Return tt).
Proof.
  intros H. unfold startDownload, bind, modify, gets, ret.
  cbn [setQueue queueProcessing]. now rewrite H.
Qed.

Lemma step_StartDownload st win options :
  mainWindow st = Some win ->
  fst (step host (StartDownload options) st)
  = fst (startDownload host win options st).
Proof.
  intros H. unfold step, handleStartDownload. rewrite H.
  destruct (startDownload host win options st) as [st' []]; reflexivity.
Qed.

Lemma onClose_handled st p cl code :
  closures st !! p = Some cl ->
  onClose host p code st
  = processQueue host
      (setQueue (tail (downloadQueue st))
         (send (cl_win cl) (DownloadComplete (default 1 code))
            (setActive None st))).
Proof. intros H. unfold onClose. rewrite H. reflexivity. Qed.

Lemma onError_handled st p cl message :
  closures st !! p = Some cl ->
  onError host p message st
  = processQueue host
      (setQueue (tail (downloadQueue st))
         (send (cl_win cl) (DownloadError message) (setActive None st))).
Proof. intros H. unfold onError. rewrite H. reflexivity. Qed.

Lemma step_Close st p code :
  fst (step host (Close p code) st) = fst (onClose host p code st).
Proof.
  unfold step. destruct (onClose host p code st) as [st' []]; reflexivity.
Qed.

Lemma step_Error st p message :
  fst (step host (Error p message) st) = fst (onError host p message st).
Proof.
  unfold step. destruct (onError host p message st) as [st' []]; reflexivity.
Qed.

Lemma step_CancelDownload st :
  fst (step host CancelDownload st)
  = match activeDownloadProcess st with
    | Some p =>
      setActive None (kill p (JS.lit "SIGTERM") (setQueue [] st))
    | None => setQueue [] st
    end.
Proof.
  unfold step, handleCancelDownload, bind, modify, gets, ret.
  cbn [setQueue activeDownloadProcess].
  destruct (activeDownloadProcess st); reflexivity.
Qed.
End Queue.

(** Messages sent do not touch the queue nor the processes. *)
Lemma sends_fields w msgs : forall st,
  let st' := fold_left (fun st m => send w m st) msgs st in
  downloadQueue st' = downloadQueue st /\ spawned st' = spawned st /\
  activeDownloadProcess st' = activeDownloadProcess st /\
  closures st' = closures st /\ queueProcessing st' = queueProcessing st.
Proof.
  induction msgs as [|m msgs IH]; intros st; simpl; [auto|].
  destruct (IH (send w m st)) as (? & ? & ? & ? & ?). simpl in *. auto.
Qed.

(** With an empty queue, no event but a submission starts a worker. *)
Lemma quiet_step host e st :
  downloadQueue st = [] -> notSubmission e ->
  downloadQueue (fst (step host e st)) = [] /\
  spawned (fst (step host e st)) = spawned st.
Proof.
  intros Hq He. destruct e as [o| |p d|p d|p code|p msg]; [contradiction|..].
  - rewrite step_CancelDownload. destruct (activeDownloadProcess st); auto.
  - unfold step, onStdout. destruct (closures st !! p) as [cl|]; [|auto].
    destruct (stdoutChunk _ _ _) as [msgs buffer]. cbn [fst].
    destruct (sends_fields (cl_win cl) msgs
                (setClosure p (mkClosure (cl_win cl) (cl_cartoonId cl) buffer) st))
      as (-> & -> & _). auto.
  - unfold step, onStderr. destruct (closures st !! p) as [cl|]; [|auto].
    destruct (JS.trim d); auto.
  - rewrite step_Close.
    destruct (closures st !! p) as [cl|] eqn:Hcl.
    + rewrite (onClose_handled host st p cl) by exact Hcl.
      rewrite processQueue_idle by (cbn; now rewrite Hq).
      cbn [fst setProcessing setQueue send setActive downloadQueue spawned].
      rewrite Hq. auto.
    + unfold onClose. rewrite Hcl. auto.
  - rewrite step_Error.
    destruct (closures st !! p) as [cl|] eqn:Hcl.
    + rewrite (onError_handled host st p cl) by exact Hcl.
      rewrite processQueue_idle by (cbn; now rewrite Hq).
      cbn [fst setProcessing setQueue send setActive downloadQueue spawned].
      rewrite Hq. auto.
    + unfold onError. rewrite Hcl. auto.
Qed.

Lemma quiet_run host es : forall st,
  downloadQueue st = [] -> Forall notSubmission es ->
  downloadQueue (run host es st) = [] /\ spawned (run host es st) = spawned st.
Proof.
  induction es as [|e es IH]; intros st Hq Hes; [auto|].
  inversion Hes as [|? ? He Hes']; subst.
  destruct (quiet_step host e st Hq He) as [Hq' Hs'].
  unfold run in *. cbn [fold_left].
  destruct (IH _ Hq' Hes') as [H1 H2]. rewrite H1, H2. auto.
Qed.

Section Scenario.
Context (host : Host) (w : Win) (A B C : DownloadOptions).
Context (a : Episode) (la : list Episode) (HA : opt_episodes A = a :: la).

Lemma afterThree_state :
  afterThree host w A B C
  = mkState [mkQueueItem w A; mkQueueItem w B; mkQueueItem w C]
      (Some O) true (Some w) [workerSpawn host A a]
      (<[O := mkClosure w (opt_cartoonId A) []]> ∅) [] [].
Proof.
  unfold afterThree, run. cbn [fold_left].
  rewrite (step_StartDownload host (initialState (Some w)) w A) by reflexivity.
  rewrite startDownload_idle by reflexivity.
  erewrite processQueue_spawns; [|reflexivity|exact HA].
  cbn [fst initialState setQueue downloadQueue activeDownloadProcess
       queueProcessing mainWindow spawned closures signals sent
       length app qi_win qi_options].
  match goal with
  | |- context [step host (StartDownload B) ?st] =>
    rewrite (step_StartDownload host st w B) by reflexivity;
    rewrite (startDownload_busy host st) by reflexivity
  end.
  cbn [fst setQueue downloadQueue activeDownloadProcess
       queueProcessing mainWindow spawned closures signals sent app].
  match goal with
  | |- context [step host (StartDownload C) ?st] =>
    rewrite (step_StartDownload host st w C) by reflexivity;
    rewrite (startDownload_busy host st) by reflexivity
  end.
  reflexivity.
Qed.
End Scenario.

(** C4 (amended).  Jobs [A], [B], [C] submitted in that order, [A] and
    [B] each requesting at least one episode: the worker of [A] is started at once
    and is the only process, with [A], [B], [C] in the queue in that order;
    when that worker closes, with any exit code or none, or fails to
    start, [A] leaves the queue and the worker of [B] is started, by the
    handler of the event alone;
    a cancel while [A] is active empties the queue and sends [SIGTERM] to
    the worker of [A], and from then on no sequence of events without a
    new submission starts a worker. *)
Theorem C4_queue_behaviour (host : Host) (w : Win) (A B C : DownloadOptions)
    (a b : Episode) (la lb : list Episode) :
  opt_episodes A = a :: la -> opt_episodes B = b :: lb ->
  (spawned (afterThree host w A B C) = [workerSpawn host A a] /\
   activeDownloadProcess (afterThree host w A B C) = Some O /\
   downloadQueue (afterThree host w A B C)
   = [mkQueueItem w A; mkQueueItem w B; mkQueueItem w C]) /\
  (forall code,
     let st := fst (step host (Close O code) (afterThree host w A B C)) in
     spawned st = [workerSpawn host A a; workerSpawn host B b] /\
     activeDownloadProcess st = Some 1%nat /\
     downloadQueue st = [mkQueueItem w B; mkQueueItem w C] /\
     sent st = [(w, DownloadComplete (default 1 code))]) /\
  (forall message,
     let st := fst (step host (Error O message) (afterThree host w A B C)) in
     spawned st = [workerSpawn host A a; workerSpawn host B b] /\
     activeDownloadProcess st = Some 1%nat /\
     downloadQueue st = [mkQueueItem w B; mkQueueItem w C]) /\
  (let st := fst (step host CancelDownload (afterThree host w A B C)) in
   downloadQueue st = [] /\
   signals st = [(O, JS.lit "SIGTERM")] /\
   activeDownloadProcess st = None /\
   forall es, Forall notSubmission es ->
     spawned (run host es st) = [workerSpawn host A a] /\
     downloadQueue (run host es st) = []).
Proof.
  intros HA HB. rewrite (afterThree_state host w A B C a la HA).
  split; [auto|]. split; [|split].
  - intros code. cbn zeta. rewrite step_Close.
    erewrite onClose_handled by apply lookup_insert_eq.
    erewrite processQueue_spawns; [|reflexivity|exact HB].
    cbn. auto.
  - intros message. cbn zeta. rewrite step_Error.
    erewrite onError_handled by apply lookup_insert_eq.
    erewrite processQueue_spawns; [|reflexivity|exact HB].
    cbn. auto.
  - cbn zeta. rewrite step_CancelDownload. cbn [activeDownloadProcess].
    repeat split; try reflexivity.
    + apply (quiet_run host es); [reflexivity|assumption].
    + apply (quiet_run host es); [reflexivity|assumption].
Qed.

Lemma C4_queue_behaviour_witness :
  spawned (afterThree linuxHost 1%nat jobA jobB jobC)
  = [workerSpawn linuxHost jobA episode1] /\
  downloadQueue (fst (step linuxHost (Close O (Some 0))
                        (afterThree linuxHost 1%nat jobA jobB jobC)))
  = [mkQueueItem 1%nat jobB; mkQueueItem 1%nat jobC] /\
  signals (fst (step linuxHost CancelDownload
                  (afterThree linuxHost 1%nat jobA jobB jobC)))
  = [(O, JS.lit "SIGTERM")].
Proof.
  destruct (C4_queue_behaviour linuxHost 1%nat jobA jobB jobC
              episode1 episode2 [episode2] [] eq_refl eq_refl)
    as ((H1 & _) & H2 & _ & H3).
  split; [exact H1|]. split.
  - exact (proj1 (proj2 (proj2 (H2 (Some 0))))).
  - exact (proj1 (proj2 H3)).
Defined.

(** C4 as stated, for any three jobs, fails when [A] or [B] requests no
    episode.  With such an [A], no worker is started by the three
    submissions and none is active.  With such a [B], the close of the
    worker of [A] starts no worker: the handler throws, and [B] stays at
    the head of the queue with no active process. *)
Lemma C4_counterexample :
  (spawned (afterThree linuxHost 1%nat emptyJob jobB jobC) = [] /\
   activeDownloadProcess (afterThree linuxHost 1%nat emptyJob jobB jobC)
   = None) /\
  (spawned (afterThree linuxHost 1%nat jobA emptyJob jobC)
   = [workerSpawn linuxHost jobA episode1] /\
   step linuxHost (Close O (Some 0))
     (afterThree linuxHost 1%nat jobA emptyJob jobC)
   = (mkState [mkQueueItem 1%nat emptyJob; mkQueueItem 1%nat jobC] None true
        (Some 1%nat) [workerSpawn linuxHost jobA episode1]
        (<[O := mkClosure 1%nat (opt_cartoonId jobA) []]> ∅) []
        [(1%nat, DownloadComplete 0)],
      Throw undefinedHref)).
Proof.
  split; [vm_compute; auto|]. split; [vm_compute; reflexivity|].
  unfold step.
  rewrite (afterThree_state linuxHost 1%nat jobA emptyJob jobC episode1
             [episode2] eq_refl).
  erewrite onClose_handled by apply lookup_insert_eq.
  erewrite processQueue_throws; reflexivity.
Qed.

(** C9.  Promotion of the head of the queue: when the job requests no
    episode it throws, on reading [href] of the missing first episode, and
    starts no worker; when the job requests at least one episode it
    returns, with one more worker, which is the active process. *)
Theorem C9_promotion_partial (host : Host) (st : State) (item : QueueItem)
    (q : list QueueItem) :
  downloadQueue st = item :: q ->
  (opt_episodes (qi_options item) = [] ->
   snd (processQueue host st) = Throw undefinedHref /\
   spawned (fst (processQueue host st)) = spawned st /\
   activeDownloadProcess (fst (processQueue host st))
   = activeDownloadProcess st) /\
  (opt_episodes (qi_options item) <> [] ->
   snd (processQueue host st) = Return tt /\
   length (spawned (fst (processQueue host st))) = S (length (spawned st)) /\
   activeDownloadProcess (fst (processQueue host st))
   = Some (length (spawned st))).
Proof.
  intros Hq. split; intros He.
  - rewrite (processQueue_throws host st item q Hq He). auto.
  - destruct (opt_episodes (qi_options item)) as [|firstEp eps] eqn:E;
      [contradiction|].
    rewrite (processQueue_spawns host st item q firstEp eps Hq E).
    cbn [fst snd spawned activeDownloadProcess].
    rewrite length_app. simpl. repeat split. lia.
Qed.

Lemma C9_promotion_partial_witness :
  snd (processQueue linuxHost
         (setQueue [mkQueueItem 1%nat emptyJob] (initialState (Some 1%nat))))
  = Throw undefinedHref /\
  snd (processQueue linuxHost
         (setQueue [mkQueueItem 1%nat jobA] (initialState (Some 1%nat))))
  = Return tt.
Proof.
  split.
  - destruct (C9_promotion_partial linuxHost
                (setQueue [mkQueueItem 1%nat emptyJob] (initialState (Some 1%nat)))
                (mkQueueItem 1%nat emptyJob) [] eq_refl) as [H _].
    exact (proj1 (H eq_refl)).
  - destruct (C9_promotion_partial linuxHost
                (setQueue [mkQueueItem 1%nat jobA] (initialState (Some 1%nat)))
                (mkQueueItem 1%nat jobA) [] eq_refl) as [_ H].
    apply H. discriminate.
Defined.

(** The submission of a job without episodes, from the start: the handler
    catches the exception and answers with its message; no worker is
    started and the job stays at the head of the queue. *)
Example submit_empty_job :
  let '(st, reply) := step linuxHost (StartDownload emptyJob)
                        (initialState (Some 1%nat)) in
  reply = Return (Some (mkReply false (Some undefinedHref))) /\
  spawned st = [] /\ downloadQueue st = [mkQueueItem 1%nat emptyJob].
Proof. vm_compute. auto. Qed.

(** ** Episode extraction *)

Lemma allEpisodes_app a b : allEpisodes (a ++ b) = allEpisodes a ++ allEpisodes b.
Proof. unfold allEpisodes. now rewrite map_app, concat_app. Qed.

Lemma allEpisodes_flush w :
  allEpisodes (flush w) = allEpisodes (w_seasons w) ++ w_currentEpisodes w.
Proof.
  unfold flush. destruct (w_currentEpisodes w) as [|e eps].
  - now rewrite app_nil_r.
  - rewrite allEpisodes_app. unfold allEpisodes at 2. simpl.
    now rewrite app_nil_r.
Qed.








(** The post-processing keeps the links the entries were made from. *)
Lemma renumber_keys eps : forall s, map key (renumber s eps) = map key eps.
Proof.
  induction eps as [|e eps IH]; intros s; [reflexivity|].
  cbn [renumber map]. rewrite IH. f_equal.
  destruct (ep_number e =? 0); reflexivity.
Qed.

Lemma sortAndFix_keys eps : Permutation (map key (sortAndFix eps)) (map key eps).
Proof.
  unfold sortAndFix. rewrite renumber_keys.
  apply Permutation_map, array_sort_perm.
Qed.

Lemma postProcess_keys seasons :
  Permutation (map key (allEpisodes (postProcess seasons)))
              (map key (allEpisodes seasons)).
Proof.
  induction seasons as [|s ss IH]; [reflexivity|].
  unfold allEpisodes, postProcess in *. cbn [map concat].
  rewrite !map_app. apply Permutation_app; [apply sortAndFix_keys|exact IH].
Qed.

Lemma fallbackSeasons_episodes links :
  allEpisodes (fallbackSeasons links) = sortAndFix (fallbackEpisodes links).
Proof.
  unfold fallbackSeasons. destruct (sortAndFix (fallbackEpisodes links)).
  - reflexivity.
  - unfold allEpisodes. simpl. now rewrite app_nil_r.
Qed.





(** * Further properties *)

(** ** The matcher is sound

    A successful match splits the input in a string the pattern matches
    and the rest the continuation was given; the captures the continuation
    was given differ from the initial ones in the slots of the pattern
    only, and each group holds what its body matched. *)

Lemma sameOutside_refl js c : sameOutside js c c.
Proof. split; auto. Qed.

Lemma sameOutside_trans js1 js2 js c1 c2 c3 :
  (forall j, existsb (Nat.eqb j) js = false -> existsb (Nat.eqb j) js1 = false) ->
  (forall j, existsb (Nat.eqb j) js = false -> existsb (Nat.eqb j) js2 = false) ->
  sameOutside js1 c1 c2 -> sameOutside js2 c2 c3 -> sameOutside js c1 c3.
Proof.
  intros H1 H2 [L1 S1] [L2 S2]. split; [congruence|].
  intros j Hj. rewrite S2, S1; auto.
Qed.

Lemma existsb_app_false {A} (f : A -> bool) l1 l2 :
  existsb f (l1 ++ l2) = false <-> existsb f l1 = false /\ existsb f l2 = false.
Proof. rewrite existsb_app. apply orb_false_iff. Qed.

Lemma Captured_sameOutside r : forall js c c',
  sameOutside js c c' ->
  (forall i, In i (slots r) -> existsb (Nat.eqb i) js = false) ->
  Captured r c -> Captured r c'.
Proof.
  induction r as [|p|a IHa b IHb|a IHa b IHb|g a IHa|i a IHa];
    intros js c c' Hs Hd Hc; cbn [Captured] in *; auto.
  - destruct Hc as [Ha Hb]. split.
    + eapply IHa; eauto. intros i Hi. apply Hd. cbn. apply in_or_app. auto.
    + eapply IHb; eauto. intros i Hi. apply Hd. cbn. apply in_or_app. auto.
  - destruct Hc as [(u & Hu & Hm) Ha]. split.
    + exists u. split; [|exact Hm]. destruct Hs as [_ Hs].
      rewrite Hs; [exact Hu|]. apply Hd. cbn. auto.
    + eapply IHa; eauto. intros j Hj. apply Hd. cbn. auto.
Qed.

Lemma existsb_eqb_In j js : existsb (Nat.eqb j) js = true <-> In j js.
Proof.
  rewrite existsb_exists. split.
  - intros (x & Hx & E). apply Nat.eqb_eq in E. now subst.
  - intros H. exists j. split; [exact H|apply Nat.eqb_refl].
Qed.

Lemma existsb_eqb_notIn j js : existsb (Nat.eqb j) js = false <-> ~ In j js.
Proof.
  rewrite <- existsb_eqb_In. destruct (existsb _ js); split; congruence.
Qed.

Section Soundness.
Context {X : Type}.

Lemma star_loop_sound a g (k : jsstring -> Regex.caps -> option X) :
  slots a = [] ->
  (forall (k0 : jsstring -> Regex.caps -> option X) s c res,
     Regex.m a k0 s c = Some res ->
     exists u s' c', s = u ++ s' /\ Matches a u /\ sameOutside [] c c' /\
                     k0 s' c' = Some res) ->
  forall fuel s c res,
    Regex.star_loop (Regex.m a) g k fuel s c = Some res ->
    exists u s' c', s = u ++ s' /\ Matches (Regex.Star g a) u /\
                    sameOutside [] c c' /\ k s' c' = Some res.
Proof.
  intros Hslots Ha. induction fuel as [|fuel IH]; intros s c res H; [discriminate|].
  cbn [Regex.star_loop] in H.
  assert (Hnil : forall r0, k s c = Some r0 ->
            exists u s' c', s = u ++ s' /\ Matches (Regex.Star g a) u /\
                            sameOutside [] c c' /\ k s' c' = Some r0).
  { intros r0 Hr. exists [], s, c. repeat split; auto. constructor. }
  assert (Hmore : forall r0,
            Regex.m a (fun s' c' =>
                         if (length s' <? length s)%nat
                         then Regex.star_loop (Regex.m a) g k fuel s' c'
                         else None) s c = Some r0 ->
            exists u s' c', s = u ++ s' /\ Matches (Regex.Star g a) u /\
                            sameOutside [] c c' /\ k s' c' = Some r0).
  { intros r0 Hr. apply Ha in Hr as (u & s1 & c1 & E1 & M1 & S1 & Hr).
    destruct (length s1 <? length s)%nat; [|discriminate].
    apply IH in Hr as (v & s2 & c2 & E2 & M2 & S2 & Hr).
    exists (u ++ v), s2, c2. repeat split.
    - now rewrite <- app_assoc, <- E2.
    - now constructor.
    - destruct S1, S2. congruence.
    - intros j Hj. destruct S1 as [_ S1], S2 as [_ S2]. rewrite S2, S1; auto.
    - exact Hr. }
  destruct g.
  - destruct (Regex.m a _ s c) as [r0|] eqn:E.
    + injection H as <-. now apply Hmore.
    + now apply Hnil.
  - destruct (k s c) as [r0|] eqn:E.
    + injection H as <-. now apply Hnil.
    + now apply Hmore.
Qed.

Lemma m_sound r :
  plainGroups r = true ->
  forall (k : jsstring -> Regex.caps -> option X) s c res,
    (forall i, In i (slots r) -> (i < length c)%nat) ->
    Regex.m r k s c = Some res ->
    exists u s' c',
      s = u ++ s' /\ Matches r u /\ sameOutside (slots r) c c' /\
      Captured r c' /\ k s' c' = Some res.
Proof.
  induction r as [|p|a IHa b IHb|a IHa b IHb|g a IHa|i a IHa];
    intros Hwf k s c res Hlen H; cbn [Regex.m] in H; cbn [slots Captured].
  - exists [], s, c. repeat split; auto. constructor.
  - destruct s as [|x t]; [discriminate|]. destruct (p x) eqn:Hp; [|discriminate].
    exists [x], t, c. repeat split; auto. now constructor.
  - cbn [plainGroups] in Hwf. apply andb_true_iff in Hwf as [Hwf Hdis].
    apply andb_true_iff in Hwf as [Hwa Hwb].
    cbn [slots] in Hlen.
    apply IHa in H as (u & s1 & c1 & E1 & M1 & S1 & C1 & H); auto.
    2:{ intros i Hi. apply Hlen, in_or_app. auto. }
    apply IHb in H as (v & s2 & c2 & E2 & M2 & S2 & C2 & H); auto.
    2:{ intros i Hi. destruct S1 as [L1 _]. rewrite L1.
        apply Hlen, in_or_app. auto. }
    exists (u ++ v), s2, c2. repeat split.
    + now rewrite <- app_assoc, <- E2.
    + now constructor.
    + destruct S1, S2. congruence.
    + intros j Hj. apply existsb_app_false in Hj as [Hj1 Hj2].
      destruct S1 as [_ S1], S2 as [_ S2]. rewrite S2, S1; auto.
    + eapply Captured_sameOutside; [exact S2| |exact C1].
      intros i Hi. rewrite forallb_forall in Hdis.
      specialize (Hdis i Hi). now apply negb_true_iff in Hdis.
    + exact C2.
    + exact H.
  - cbn [plainGroups] in Hwf.
    destruct (slots a ++ slots b) eqn:Es; [|discriminate].
    apply app_eq_nil in Es as [Ea Eb].
    assert (Pa : plainGroups a = true -> True) by auto.
    assert (Hcap : forall r0 c0, slots r0 = [] -> Captured r0 c0).
    { induction r0; intros c0 E0; cbn [Captured]; auto.
      - cbn [slots] in E0. apply app_eq_nil in E0 as [? ?]. split; auto.
      - discriminate. }
    assert (Hpl : forall r0, slots r0 = [] -> plainGroups r0 = true).
    { induction r0; intros E0; cbn [plainGroups slots] in *; auto.
      - apply app_eq_nil in E0 as [E1 E2]. rewrite IHr0_1, IHr0_2 by auto.
        rewrite E1. reflexivity.
      - now rewrite E0.
      - now rewrite E0.
      - discriminate. }
    destruct (Regex.m a k s c) as [r0|] eqn:E.
    + injection H as <-.
      apply IHa in E as (u & s1 & c1 & E1 & M1 & S1 & C1 & H); auto.
      2:{ rewrite Ea. intros i []. }
      exists u, s1, c1. rewrite Ea in S1. repeat split; auto.
      * now apply Matches_Alt_l.
      * apply S1.
      * apply S1.
    + apply IHb in H as (u & s1 & c1 & E1 & M1 & S1 & C1 & H); auto.
      2:{ rewrite Eb. intros i []. }
      exists u, s1, c1. rewrite Eb in S1. repeat split; auto.
      * now apply Matches_Alt_r.
      * apply S1.
      * apply S1.
  - cbn [plainGroups] in Hwf. destruct (slots a) eqn:Es; [|discriminate].
    assert (Hpl : forall r0, slots r0 = [] -> plainGroups r0 = true).
    { induction r0; intros E0; cbn [plainGroups slots] in *; auto.
      - apply app_eq_nil in E0 as [E1 E2]. rewrite IHr0_1, IHr0_2 by auto.
        rewrite E1. reflexivity.
      - now rewrite E0.
      - now rewrite E0.
      - discriminate. }
    apply (star_loop_sound a g k Es) in H.
    + destruct H as (u & s1 & c1 & E1 & M1 & S1 & H).
      exists u, s1, c1. repeat split; auto; apply S1.
    + intros k0 s0 c0 r0 H0.
      apply IHa in H0 as (u & s1 & c1 & E1 & M1 & S1 & C1 & H0); auto.
      * exists u, s1, c1. rewrite ?Es in S1. auto.
      * rewrite ?Es. intros i [].
  - cbn [plainGroups] in Hwf. apply andb_true_iff in Hwf as [Hwa Hni].
    apply negb_true_iff in Hni. cbn [slots] in Hlen.
    apply IHa in H as (u & s1 & c1 & E1 & M1 & S1 & C1 & H); auto.
    2:{ intros j Hj. apply Hlen. now right. }
    exists u, s1, (<[i := Some u]> c1).
    assert (Et : take (length s - length s1) s = u).
    { subst s. rewrite length_app.
      replace (length u + length s1 - length s1)%nat with (length u) by lia.
      now rewrite take_app_length. }
    rewrite Et in H. destruct S1 as [L1 S1]. unfold Regex.caps in *.
    split; [exact E1|]. split; [now constructor|]. split; [split|].
    + rewrite length_insert. exact L1.
    + intros j Hj. cbn [existsb] in Hj. apply orb_false_iff in Hj as [Hji Hj].
      apply Nat.eqb_neq in Hji. unfold Regex.caps in *.
      rewrite list_lookup_insert_ne by auto. now apply S1.
    + split; [split|exact H].
      * exists u. split; [|exact M1]. unfold Regex.caps in *.
        apply list_lookup_insert_eq. rewrite L1. apply Hlen. now left.
      * eapply (Captured_sameOutside a [i]); [| |exact C1].
        -- split; [apply length_insert|].
           intros j Hj. cbn [existsb] in Hj.
           apply orb_false_iff in Hj as [Hji _].
           apply Nat.eqb_neq in Hji. unfold Regex.caps in *.
           now rewrite list_lookup_insert_ne by auto.
        -- intros j Hj. cbn [existsb]. apply orb_false_iff.
           split; [|reflexivity].
           apply Nat.eqb_neq. intros ->.
           apply existsb_eqb_notIn in Hni. contradiction.
Qed.
End Soundness.

Lemma matchAt_sound r s s' c :
  wellGrouped r = true ->
  Regex.matchAt r s = Some (s', c) ->
  exists u,
    s = u ++ s' /\ take (length s - length s') s = u /\ Matches r u /\
    Captured r (<[O := Some u]> c) /\
    Regex.group (<[O := Some u]> c) 0 = Some u.
Proof.
  intros Hw E. apply andb_true_iff in Hw as [Hp Hs].
  rewrite forallb_forall in Hs. unfold Regex.matchAt in E.
  apply m_sound in E as (u & s1 & c1 & E1 & M1 & [L1 S1] & C1 & E); auto.
  2:{ intros i Hi. apply Hs in Hi. apply andb_true_iff in Hi as [_ Hi].
      apply Nat.leb_le in Hi. rewrite length_replicate. lia. }
  injection E as <- <-. exists u.
  unfold Regex.caps in *. rewrite length_replicate in L1.
  split; [exact E1|]. split.
  { rewrite E1, length_app.
    replace (length u + length s1 - length s1)%nat with (length u) by lia.
    now rewrite take_app_length. }
  split; [exact M1|]. split.
  - eapply (Captured_sameOutside r [O]); [| |exact C1].
    + split; [apply length_insert|]. intros j Hj. cbn in Hj.
      destruct j; [discriminate|]. unfold Regex.caps in *.
      now rewrite list_lookup_insert_ne.
    + intros i Hi. apply Hs in Hi. cbn. destruct i; [discriminate|reflexivity].
  - unfold Regex.group, Regex.caps.
    rewrite list_lookup_insert_eq by lia. reflexivity.
Qed.

Lemma exec_unfold r s :
  Regex.exec r s
  = match Regex.matchAt r s with
    | Some (s', c) => Some (<[O := Some (take (length s - length s') s)]> c)
    | None => match s with [] => None | _ :: t => Regex.exec r t end
    end.
Proof. destruct s; reflexivity. Qed.

(** A successful search: the string matched is in the text, and each
    group holds what its body matched. *)
Lemma exec_sound r : forall s caps,
  wellGrouped r = true ->
  Regex.exec r s = Some caps ->
  exists pre u post,
    s = pre ++ u ++ post /\ Matches r u /\ Captured r caps /\
    Regex.group caps 0 = Some u.
Proof.
  intros s caps Hw. induction s as [|x t IH]; rewrite exec_unfold; intros H.
  - destruct (Regex.matchAt r []) as [[s' c]|] eqn:E; [|discriminate].
    destruct (matchAt_sound r _ _ _ Hw E) as (u & E1 & Et & M & C & G).
    rewrite Et in H. injection H as <-. exists [], u, s'. auto.
  - destruct (Regex.matchAt r (x :: t)) as [[s' c]|] eqn:E.
    + destruct (matchAt_sound r _ _ _ Hw E) as (u & E1 & Et & M & C & G).
      rewrite Et in H. injection H as <-. exists [], u, s'. auto.
    + apply IH in H as (pre & u & post & E1 & M1 & C1 & G1).
      exists (x :: pre), u, post. rewrite E1. auto.
Qed.

(** *** Reading what a pattern matched *)

Lemma Matches_text t u : Matches (Regex.text t) u -> u = t.
Proof.
  unfold Regex.text, Regex.seqs. revert u.
  induction t as [|c t IH]; intros u H; cbn in H.
  - now inversion H.
  - inversion H as [| |a b u1 u2 H1 H2| | | | |]; subst.
    inversion H1 as [|p x Hx| | | | | |]; subst. apply N.eqb_eq in Hx. subst x.
    apply IH in H2. now subst.
Qed.

Lemma Matches_star_class p g u :
  Matches (Regex.Star g (Regex.Chr p)) u -> allOf p u.
Proof.
  remember (Regex.Star g (Regex.Chr p)) as r eqn:Er.
  induction 1 as [|q x Hx|a b u1 u2 H1 IH1 H2 IH2|a b u1 H1 IH1
                  |a b u1 H1 IH1|g0 a|g0 a u1 u2 H1 IH1 H2 IH2|i a u1 H1 IH1];
    try discriminate.
  - constructor.
  - injection Er as -> ->. inversion H1; subst. constructor; auto.
    now apply IH2.
Qed.

Lemma Matches_plus_class p u :
  Matches (Regex.plus (Regex.Chr p)) u -> u <> [] /\ allOf p u.
Proof.
  unfold Regex.plus. intros H.
  inversion H as [| |a b u1 u2 H1 H2| | | | |]; subst.
  inversion H1; subst. apply Matches_star_class in H2.
  split; [discriminate|]. now constructor.
Qed.

Lemma Matches_seqs_cons a l u :
  Matches (Regex.seqs (a :: l)) u ->
  exists u1 u2, u = u1 ++ u2 /\ Matches a u1 /\ Matches (Regex.seqs l) u2.
Proof. cbn. intros H. inversion H; subst. eauto. Qed.

Lemma Matches_seqs_nil u : Matches (Regex.seqs []) u -> u = [].
Proof. cbn. intros H. now inversion H. Qed.

(** *** Numbers read from digits *)

Lemma digitsValue_nonneg s : forall acc, 0 <= acc -> 0 <= JS.digitsValue acc s.
Proof.
  induction s as [|c s IH]; intros acc H; cbn; [exact H|]. apply IH. lia.
Qed.

Lemma takeWhile_all_id {A} (p : A -> bool) l :
  Forall (fun c => p c = true) l -> JS.takeWhile p l = l.
Proof. induction 1 as [|x l Hx _ IH]; cbn; [reflexivity|]. now rewrite Hx, IH. Qed.

Lemma digit_not_space c : JS.isDigit c = true -> JS.isWhiteSpace c = false.
Proof.
  unfold JS.isDigit, JS.isWhiteSpace. intros H.
  apply andb_true_iff in H as [H1 H2].
  apply N.leb_le in H1. apply N.leb_le in H2.
  repeat match goal with
         | |- context [(?a =? ?b)%N] => destruct (N.eqb_spec a b); [lia|]
         | |- context [(?a <=? ?b)%N] => destruct (N.leb_spec a b)
         end; cbn; try reflexivity; lia.
Qed.

(** [parseInt] of a run of digits is a number, never [NaN]. *)
Lemma parseInt_digits u :
  u <> [] -> allOf JS.isDigit u ->
  exists n, JS.parseInt u = Some n /\ 0 <= n.
Proof.
  intros Hne Hd. unfold JS.parseInt, JS.trimStart.
  destruct u as [|c u]; [contradiction|].
  inversion Hd as [|? ? Hc Hu]; subst.
  cbn [JS.dropWhile]. rewrite (digit_not_space c Hc).
  rewrite takeWhile_all_id by exact Hd.
  eexists. split; [reflexivity|]. apply digitsValue_nonneg. lia.
Qed.

(** [parseFloat] of a string that starts with a digit is a number. *)
Lemma parseFloat_digit c u :
  JS.isDigit c = true ->
  exists q, JS.parseFloat (c :: u) = Some q /\ (0 <= q)%Q.
Proof.
  intros Hc. unfold JS.parseFloat, JS.trimStart.
  cbn [JS.dropWhile]. rewrite (digit_not_space c Hc).
  cbn [JS.takeWhile]. rewrite Hc.
  set (ip := c :: JS.takeWhile JS.isDigit u).
  set (fp := match drop (length ip) (c :: u) with
             | 46%N :: r => JS.takeWhile JS.isDigit r
             | _ => []
             end).
  eexists. split; [reflexivity|].
  rewrite Qred_correct. unfold Qle. cbn [Qnum Qden].
  pose proof (digitsValue_nonneg (ip ++ fp) 0 ltac:(lia)). lia.
Qed.

(** ** The messages of the classifier *)

Lemma Captured_seqs_cons a l c :
  Captured (Regex.seqs (a :: l)) c <-> Captured a c /\ Captured (Regex.seqs l) c.
Proof. reflexivity. Qed.

Lemma group_lookup (c : Regex.caps) i u :
  c !! i = Some (Some u) -> Regex.group c i = Some u.
Proof. unfold Regex.group. now intros ->. Qed.

Lemma parseIntGroup_digits (c : Regex.caps) i :
  (exists u, c !! i = Some (Some u) /\ Matches (Regex.plus Regex.digit) u) ->
  exists n, parseIntGroup c i = Some n /\ 0 <= n.
Proof.
  intros (u & Hu & Hm). unfold parseIntGroup. rewrite (group_lookup _ _ _ Hu).
  apply Matches_plus_class in Hm as [Hne Hd]. now apply parseInt_digits.
Qed.

Lemma group_token (c : Regex.caps) i :
  (exists u, c !! i = Some (Some u) /\ Matches (Regex.plus Regex.nonspace) u) ->
  exists u, Regex.group c i = Some u /\ token u.
Proof.
  intros (u & Hu & Hm). exists u. split; [now apply group_lookup|].
  now apply Matches_plus_class in Hm.
Qed.

(** The event of a line with an episode tag and one of the three markers. *)
Lemma statusEvent_wellFormed cid line (caps : Regex.caps) percent status :
  Regex.exec epRe line = Some caps ->
  (status = "done"%string /\ percent = 100) \/
  (status = "failed"%string /\ percent = 0) ->
  wellFormedMessage cid line (statusEvent cid (parseIntGroup caps 1) percent status).
Proof.
  intros E Hs. apply exec_sound in E as (pre & u & post & _ & _ & C & _);
    [|vm_compute; reflexivity].
  unfold epRe in C. cbn [Captured] in C. destruct C as [_ [G1 _]].
  apply parseIntGroup_digits in G1 as (n & Hn & Hpos).
  unfold statusEvent, wellFormedMessage. cbn [pd_cartoonId pd_filename
    pd_episode pd_percent pd_status pd_downloaded pd_total pd_speed pd_eta].
  rewrite Hn. split; [reflexivity|]. split; [reflexivity|].
  split; [eauto|]. split.
  - eexists. split; [reflexivity|].
    destruct Hs as [[_ ->]|[_ ->]]; unfold Qle; simpl; lia.
  - right. repeat split; try reflexivity.
    destruct Hs as [[-> ->]|[-> ->]]; [left|right; right]; split; reflexivity.
Qed.

(** Every message of the classifier is well formed: a progress event
    always has an episode number and a percentage that are numbers; on a
    progress line it carries the four texts, none empty nor with white
    space, the speed ending in [/s]; on a done, skipped or failed line it
    carries the status and 100, 100 or 0; a log line is sent as it is; and
    nothing else is ever sent. *)
Theorem classifyLine_wellFormed (cid line : jsstring) :
  Forall (wellFormedMessage cid line) (classifyLine cid line).
Proof.
  unfold classifyLine.
  destruct (Regex.exec progressRe line) as [pm|] eqn:E.
  - apply exec_sound in E as (pre & u & post & _ & _ & C & _);
      [|vm_compute; reflexivity].
    unfold progressRe in C. repeat rewrite Captured_seqs_cons in C.
    cbn [Captured] in C.
    destruct C as (_ & (G1 & _) & _ & (G2 & _) & _ & _ & _ & _ & (G3 & _) & _
                   & (G4 & _) & _ & _ & _ & (G5 & _) & _ & _ & _ & _ & _ & _
                   & _ & (G6 & _) & _).
    constructor; [|constructor]. unfold wellFormedMessage.
    cbn [pd_cartoonId pd_filename pd_episode pd_percent pd_status
         pd_downloaded pd_total pd_speed pd_eta].
    split; [reflexivity|]. split; [reflexivity|].
    split; [now apply parseIntGroup_digits|]. split.
    + destruct G2 as (u2 & Hu2 & M2). rewrite (group_lookup _ _ _ Hu2).
      apply Matches_seqs_cons in M2 as (d & rest & -> & Md & _).
      apply Matches_plus_class in Md as [Hne Hd].
      destruct d as [|c d]; [contradiction|]. inversion Hd; subst.
      now apply parseFloat_digit.
    + left. split; [reflexivity|].
      apply group_token in G3 as (d & -> & Td).
      apply group_token in G4 as (t & -> & Tt).
      apply group_token in G6 as (e & -> & Te).
      destruct G5 as (u5 & Hu5 & M5). rewrite (group_lookup _ _ _ Hu5).
      apply Matches_seqs_cons in M5 as (sp & rest & -> & Msp & Mrest).
      apply Matches_seqs_cons in Mrest as (sl & rest' & -> & Msl & Mnil).
      apply Matches_text in Msl. apply Matches_seqs_nil in Mnil. subst.
      rewrite app_nil_r. apply Matches_plus_class in Msp.
      exists d, t, sp, e. repeat split; auto; try apply Td; try apply Tt;
        try apply Te; apply Msp.
  - destruct (JS.includes line (JS.lit "Done in")).
    { destruct (Regex.exec epRe line) as [dm|] eqn:Ed; [|constructor].
      constructor; [|constructor].
      apply (statusEvent_wellFormed cid line dm 100 "done" Ed). auto. }
    destruct (JS.includes line (JS.lit "SKIP")).
    { match goal with
      | |- Forall _ (match ?e with Some _ => _ | None => _ end) =>
        destruct e as [n|]; [|constructor]
      end.
      destruct (Z.ltb_spec 0 n); [|constructor].
      constructor; [|constructor].
      unfold statusEvent, wellFormedMessage.
      cbn [pd_cartoonId pd_filename pd_episode pd_percent pd_status
           pd_downloaded pd_total pd_speed pd_eta].
      split; [reflexivity|]. split; [reflexivity|].
      split; [exists n; split; [reflexivity|lia]|]. split.
      - eexists. split; [reflexivity|]. unfold Qle; simpl; lia.
      - right. repeat split; try reflexivity.
        right. left. repeat split; eauto. }
    destruct (JS.includes line (JS.lit "FAILED")
              || JS.includes line (replicate 10 88%N)).
    { destruct (Regex.exec epRe line) as [fm|] eqn:Ef; [|constructor].
      constructor; [|constructor].
      apply (statusEvent_wellFormed cid line fm 0 "failed" Ef). auto. }
    match goal with
    | |- Forall _ (if ?b then _ else _) => destruct b
    end; repeat constructor.
Qed.

(** ** More on the episode extraction *)

(** *** The post-processing *)

Lemma insert_after_smaller x zs ps :
  Forall (fun z => ep_number z < ep_number x) zs ->
  insert_sorted byNumber x (zs ++ ps) = zs ++ insert_sorted byNumber x ps.
Proof.
  induction 1 as [|z zs Hz _ IH]; [reflexivity|].
  cbn [app insert_sorted]. unfold byNumber at 1.
  destruct (Z.leb_spec (ep_number x - ep_number z) 0); [lia|]. now rewrite IH.
Qed.

Lemma insert_in_front x l :
  Forall (fun y => ep_number x <= ep_number y) l ->
  insert_sorted byNumber x l = x :: l.
Proof.
  destruct 1 as [|y l Hy _]; [reflexivity|].
  cbn [insert_sorted]. unfold byNumber.
  destruct (Z.leb_spec (ep_number x - ep_number y) 0); [reflexivity|lia].
Qed.

Lemma filter_unresolved_zero l :
  Forall (fun e => ep_number e = 0) (List.filter unresolved l).
Proof.
  apply List.Forall_forall. intros e He. apply filter_In in He as [_ He].
  unfold unresolved in He. now apply Z.eqb_eq in He.
Qed.

(** On raw numbers that are not negative, the sort brings the unresolved
    episodes to the front in encounter order. *)
Lemma sort_unresolved_first l :
  Forall (fun e => 0 <= ep_number e) l ->
  array_sort byNumber l
  = List.filter unresolved l ++ array_sort byNumber (List.filter isResolved l).
Proof.
  induction 1 as [|x l Hx Hl IH]; [reflexivity|].
  cbn [array_sort foldr]. fold (array_sort byNumber l).
  cbn [List.filter]. unfold unresolved at 1, isResolved at 1.
  destruct (Z.eqb_spec (ep_number x) 0) as [Hz|Hnz]; cbn [negb].
  - rewrite insert_in_front; [cbn [app]; now rewrite IH|].
    eapply Permutation_Forall; [symmetry; apply array_sort_perm|].
    eapply List.Forall_impl; [|exact Hl]. intros; simpl in *; lia.
  - rewrite IH, insert_after_smaller; [reflexivity|].
    eapply List.Forall_impl; [|apply filter_unresolved_zero].
    intros; simpl in *; lia.
Qed.

Lemma renumber_app a : forall s b,
  renumber s (a ++ b)
  = renumber s a ++
    renumber (match rev (renumber s a) with
              | [] => s
              | e :: _ => ep_number e + 1
              end) b.
Proof.
  induction a as [|x a IH]; intros s b; [reflexivity|].
  cbn [app renumber]. rewrite IH. f_equal.
  set (x' := if ep_number x =? 0 then _ else x).
  cbn [rev]. destruct (rev (renumber (ep_number x' + 1) a)); reflexivity.
Qed.

Lemma renumber_resolved l : forall s,
  Forall (fun e => ep_number e <> 0) l -> renumber s l = l.
Proof.
  induction l as [|x l IH]; intros s H; [reflexivity|].
  inversion H as [|? ? Hx Hl]; subst. cbn [renumber].
  destruct (Z.eqb_spec (ep_number x) 0); [contradiction|]. now rewrite IH.
Qed.

Lemma renumber_unresolved l : forall s,
  Forall (fun e => ep_number e = 0) l -> 1 <= s ->
  map ep_number (renumber s l)
  = map (fun i => s + Z.of_nat i) (seq 0 (length l)).
Proof.
  induction l as [|x l IH]; intros s H Hs; [reflexivity|].
  inversion H as [|? ? Hx Hl]; subst. cbn [renumber length seq map].
  rewrite Hx. cbn [Z.eqb ep_number]. rewrite IH by (try assumption; lia).
  f_equal; [lia|]. rewrite <- seq_shift, map_map.
  apply map_ext. intros i. lia.
Qed.

Lemma filter_isResolved_nonzero l :
  Forall (fun e => ep_number e <> 0) (List.filter isResolved l).
Proof.
  apply List.Forall_forall. intros e He. apply filter_In in He as [_ He].
  unfold isResolved in He. apply negb_true_iff in He. now apply Z.eqb_neq in He.
Qed.

(** The result of sorting and renumbering is a front part and a back
    part.  The front part is the unresolved episodes (raw number 0) in
    encounter order, numbered 1, 2, ...  The back part is the resolved
    episodes, each one as it was: the same episodes, in ascending order of
    number, those of one number in encounter order. *)
Theorem sortAndFix_shape (eps : list Episode) :
  Forall (fun e => 0 <= ep_number e) eps ->
  exists front back,
    sortAndFix eps = front ++ back /\
    map ep_number front = map Z.of_nat (seq 1 (zeros eps)) /\
    map key front = map key (List.filter unresolved eps) /\
    Permutation back (List.filter isResolved eps) /\
    StronglySorted leNumber back /\
    forall n, List.filter (fun e => ep_number e =? n) back
              = List.filter (fun e => ep_number e =? n)
                  (List.filter isResolved eps).
Proof.
  intros H.
  exists (renumber 1 (List.filter unresolved eps)),
         (array_sort byNumber (List.filter isResolved eps)).
  split; [|split; [|split; [|split; [|split]]]].
  - unfold sortAndFix. rewrite (sort_unresolved_first eps H), renumber_app.
    f_equal. apply renumber_resolved.
    eapply Permutation_Forall; [symmetry; apply array_sort_perm|].
    apply filter_isResolved_nonzero.
  - rewrite renumber_unresolved by (auto using filter_unresolved_zero; lia).
    unfold zeros. fold unresolved.
    change (List.filter (fun e => ep_number e =? 0) eps)
      with (List.filter unresolved eps).
    rewrite <- seq_shift, map_map. apply map_ext. intros i. lia.
  - apply renumber_keys.
  - apply array_sort_perm.
  - apply sort_byNumber_sorted.
  - intros n. apply sort_byNumber_stable.
Qed.

Lemma sortAndFix_shape_witness :
  exists front back,
    sortAndFix rawEpisodes = front ++ back /\
    map ep_number front = map Z.of_nat (seq 1 (zeros rawEpisodes)) /\
    map key front = map key (List.filter unresolved rawEpisodes) /\
    Permutation back (List.filter isResolved rawEpisodes) /\
    StronglySorted leNumber back /\
    forall n, List.filter (fun e => ep_number e =? n) back
              = List.filter (fun e => ep_number e =? n)
                  (List.filter isResolved rawEpisodes).
Proof.
  apply (sortAndFix_shape rawEpisodes).
  repeat constructor; vm_compute; discriminate.
Defined.

(** On the example: the two unresolved episodes first, as 1 and 2, then
    the third and the seventh. *)
Example sortAndFix_raw :
  map ep_number (sortAndFix rawEpisodes) = [1; 2; 3; 7] /\
  map ep_title (sortAndFix rawEpisodes)
  = [JS.lit "PV"; JS.lit "OVA"; JS.lit "第3話"; JS.lit "第7話"].
Proof. vm_compute. auto. Qed.

(** The post-processing keeps the seasons, their names and their links: in
    each season the titles and [href]s after it are those before it, in
    another order. *)
Theorem postProcess_preserves (seasons : list Season) :
  Forall2 (fun s s' =>
             season_name s' = season_name s /\
             Permutation (map key (season_episodes s'))
                         (map key (season_episodes s)))
          seasons (postProcess seasons).
Proof.
  induction seasons as [|s ss IH]; cbn; constructor; [|exact IH].
  split; [reflexivity|]. apply sortAndFix_keys.
Qed.

Lemma renumber_positive l : forall s,
  1 <= s -> Forall (fun e => 0 <= ep_number e) l ->
  Forall (fun e => 1 <= ep_number e) (renumber s l).
Proof.
  induction l as [|x l IH]; intros s Hs H; [constructor|].
  inversion H as [|? ? Hx Hl]; subst. cbn [renumber].
  destruct (Z.eqb_spec (ep_number x) 0); cbn [ep_number].
  - constructor; [exact Hs|]. apply IH; [lia|exact Hl].
  - constructor; [lia|]. apply IH; [lia|exact Hl].
Qed.

Lemma sortAndFix_positive eps :
  Forall (fun e => 0 <= ep_number e) eps ->
  Forall (fun e => 1 <= ep_number e) (sortAndFix eps).
Proof.
  intros H. apply renumber_positive; [lia|].
  eapply Permutation_Forall; [symmetry; apply array_sort_perm|exact H].
Qed.

(** *** What the extraction collects *)

Lemma parseInt_nonneg s n : JS.parseInt s = Some n -> 0 <= n.
Proof.
  unfold JS.parseInt. destruct (JS.takeWhile _ _); [discriminate|].
  intros [= <-]. apply digitsValue_nonneg. lia.
Qed.

Lemma episodeNumber_nonneg t : 0 <= episodeNumber t.
Proof.
  unfold episodeNumber. destruct (Regex.exec numberRe t) as [nm|]; [|lia].
  unfold parseIntGroup. destruct (Regex.group nm 1) as [s|]; [|simpl; lia].
  destruct (JS.parseInt s) as [n|] eqn:E; [|simpl; lia].
  apply parseInt_nonneg in E. exact E.
Qed.

Lemma chapterIds_app a b : chapterIds (a ++ b) = chapterIds a ++ chapterIds b.
Proof. unfold chapterIds. apply flat_map_app. Qed.

(** One link: the set only grows; an episode is pushed only with a title
    that passed, and with a chapter identifier only if it was not seen
    before, and then it is seen. *)
Lemma episodeOf_spec seen t h :
  seen ⊆ fst (episodeOf seen t h) /\
  forall e, snd (episodeOf seen t h) = Some e ->
    e = mkEpisode (episodeNumber t) t h /\ acceptable t = true /\
    forall id, chapterIdOf h = Some id ->
               id ∉ seen /\ id ∈ fst (episodeOf seen t h).
Proof.
  unfold episodeOf, acceptable, chapterIdOf.
  destruct (textRejected t); [split; [set_solver|discriminate]|].
  destruct (Regex.exec chapterIdRe h) as [cm|].
  - destruct (decide (default [] (Regex.group cm 1) ∈ seen)) as [Hin|Hnin].
    + rewrite (bool_decide_eq_true_2 _ Hin). split; [set_solver|discriminate].
    + rewrite (bool_decide_eq_false_2 _ Hnin).
      destruct (Regex.test shortcutRe t); cbn [fst snd];
        (split; [set_solver|]); [discriminate|].
      intros e [= <-]. split; [reflexivity|]. split; [reflexivity|].
      intros i [= <-]. set_solver.
  - destruct (Regex.test shortcutRe t); cbn [fst snd];
      (split; [set_solver|]); [discriminate|].
    intros e [= <-]. split; [reflexivity|]. split; [reflexivity|].
    discriminate.
Qed.

Lemma collected_step eps seen t h :
  collected eps seen ->
  collected (eps ++ from_option (fun e => [e]) [] (snd (episodeOf seen t h)))
            (fst (episodeOf seen t h)).
Proof.
  intros (Hall & Hnd & Hin).
  destruct (episodeOf_spec seen t h) as [Hsub Hep].
  destruct (snd (episodeOf seen t h)) as [e|]; cbn [from_option].
  - destruct (Hep e eq_refl) as (-> & Hacc & Hid).
    split; [|split].
    + apply Forall_app_2; [exact Hall|]. constructor; [|constructor].
      split; [apply episodeNumber_nonneg|exact Hacc].
    + rewrite chapterIds_app. unfold chapterIds at 2. cbn [flat_map ep_href].
      rewrite app_nil_r. destruct (chapterIdOf h) as [id|].
      * destruct (Hid id eq_refl) as [Hnin _].
        apply List.NoDup_app; [exact Hnd|repeat constructor; intros []|].
        intros x Hx [<-|[]]. apply Hnin. now apply Hin.
      * now rewrite app_nil_r.
    + intros id. rewrite chapterIds_app. unfold chapterIds at 2.
      cbn [flat_map ep_href]. rewrite app_nil_r. intros Hid'.
      apply in_app_or in Hid' as [Hid'|Hid'].
      * apply Hsub. now apply Hin.
      * destruct (chapterIdOf h) as [id0|]; [|contradiction].
        destruct Hid' as [<-|[]]. now apply (Hid id0).
  - rewrite app_nil_r. split; [exact Hall|]. split; [exact Hnd|].
    intros id Hid. apply Hsub. now apply Hin.
Qed.

Lemma seasonName_nonempty name eps : seasonName name eps <> [].
Proof.
  unfold seasonName, orElse. destruct name; [|discriminate].
  remember (JS.lit "全 ") as pre eqn:E. vm_compute in E. subst pre.
  discriminate.
Qed.

Lemma flush_proper w :
  Forall properSeason (w_seasons w) -> Forall properSeason (flush w).
Proof.
  intros H. unfold flush. destruct (w_currentEpisodes w) as [|e eps] eqn:E;
    [exact H|].
  apply Forall_app_2; [exact H|]. constructor; [|constructor].
  split; [apply seasonName_nonempty|discriminate].
Qed.

Lemma walkStep_invariant w c :
  Forall properSeason (w_seasons w) ->
  collected (allEpisodes (flush w)) (w_seenChapterIds w) ->
  Forall properSeason (w_seasons (walkStep w c)) /\
  collected (allEpisodes (flush (walkStep w c)))
            (w_seenChapterIds (walkStep w c)).
Proof.
  intros Hp Hc. unfold walkStep. destruct (ch_isVolumeTitle c).
  - cbn [w_seasons w_seenChapterIds]. split; [now apply flush_proper|].
    rewrite (allEpisodes_flush (mkWalk _ _ _ _)).
    cbn [w_seasons w_currentEpisodes]. now rewrite app_nil_r.
  - destruct (ch_links c) as [|l links]; [auto|].
    pose proof (collected_step _ _ (linkTitle (l :: links))
                  (linkHref (l :: links)) Hc) as Hs.
    destruct (episodeOf _ _ _) as [seen ep]. cbn [fst snd] in Hs.
    cbn [w_seasons w_seenChapterIds]. split; [exact Hp|].
    rewrite allEpisodes_flush in *. cbn [w_seasons w_currentEpisodes].
    now rewrite app_assoc.
Qed.

Lemma walk_invariant cs : forall w,
  Forall properSeason (w_seasons w) ->
  collected (allEpisodes (flush w)) (w_seenChapterIds w) ->
  Forall properSeason (w_seasons (fold_left walkStep cs w)) /\
  collected (allEpisodes (flush (fold_left walkStep cs w)))
            (w_seenChapterIds (fold_left walkStep cs w)).
Proof.
  induction cs as [|c cs IH]; intros w Hp Hc; [auto|].
  cbn [fold_left]. destruct (walkStep_invariant w c Hp Hc). now apply IH.
Qed.

Lemma collected_nil : collected [] ∅.
Proof. repeat split; [constructor|constructor|intros id []]. Qed.

Lemma primary_invariant children :
  Forall properSeason (primarySeasons children) /\
  collected (allEpisodes (primarySeasons children))
    (w_seenChapterIds (fold_left walkStep children (mkWalk [] [] [] ∅))).
Proof.
  unfold primarySeasons.
  destruct (walk_invariant children (mkWalk [] [] [] ∅)) as [Hp Hc];
    [constructor|exact collected_nil|].
  split; [now apply flush_proper|exact Hc].
Qed.

Lemma fallback_invariant ls : forall acc,
  collected (fst acc) (snd acc) ->
  collected (fst (fold_left fallbackStep ls acc))
            (snd (fold_left fallbackStep ls acc)).
Proof.
  induction ls as [|l ls IH]; intros [eps seen] Hc; [exact Hc|].
  cbn [fold_left]. apply IH. unfold fallbackStep.
  pose proof (collected_step _ _ (linkTitle [l]) (linkHref [l]) Hc) as Hs.
  destruct (episodeOf _ _ _) as [seen' ep]. exact Hs.
Qed.

Lemma sortAndFix_length eps : length (sortAndFix eps) = length eps.
Proof. unfold sortAndFix. now rewrite renumber_length, array_sort_length. Qed.

Lemma keys_chapterIds a b :
  Permutation (map key a) (map key b) ->
  Permutation (chapterIds a) (chapterIds b).
Proof.
  intros H.
  assert (E : forall l, chapterIds l
              = flat_map (fun k => match chapterIdOf (snd k) with
                                   | Some id => [id]
                                   | None => []
                                   end) (map key l)).
  { induction l as [|e l IH]; [reflexivity|]. cbn. unfold chapterIds in IH.
    now rewrite <- IH. }
  rewrite !E. now apply Permutation_flat_map.
Qed.

Lemma keys_titles (P : jsstring -> Prop) a b :
  Permutation (map key a) (map key b) ->
  Forall (fun e => P (ep_title e)) b -> Forall (fun e => P (ep_title e)) a.
Proof.
  intros H Hb.
  assert (E : forall l, Forall (fun e => P (ep_title e)) l
                        <-> Forall (fun k => P (fst k)) (map key l)).
  { intros l. rewrite List.Forall_map. reflexivity. }
  apply E. eapply Permutation_Forall; [symmetry; exact H|]. now apply E.
Qed.

(** What the extraction collects, before the post-processing. *)
Lemma raw_invariant page :
  let raw := match dp_container page with
             | Some children => primarySeasons children
             | None => fallbackSeasons (dp_links page)
             end in
  Forall properSeason raw /\
  Forall (fun e => 0 <= ep_number e) (allEpisodes raw) /\
  Forall (fun e => acceptable (ep_title e) = true) (allEpisodes raw) /\
  List.NoDup (chapterIds (allEpisodes raw)).
Proof.
  cbn zeta. destruct (dp_container page) as [children|].
  - destruct (primary_invariant children) as [Hp (Hall & Hnd & _)].
    split; [exact Hp|]. split; [|split; [|exact Hnd]].
    + eapply List.Forall_impl; [|exact Hall]. now intros e [? _].
    + eapply List.Forall_impl; [|exact Hall]. now intros e [_ ?].
  - pose proof (fallback_invariant
                  (List.filter fallbackSelected (dp_links page)) ([], ∅)
                  collected_nil) as (Hall & Hnd & _).
    fold (fallbackEpisodes (dp_links page)) in Hall, Hnd.
    set (eps := fallbackEpisodes (dp_links page)) in *.
    assert (Hk := sortAndFix_keys eps).
    split; [|split; [|split]].
    + unfold fallbackSeasons. fold eps.
      destruct (sortAndFix eps) as [|e l] eqn:E; constructor; [|constructor].
      split; [apply seasonName_nonempty|discriminate].
    + rewrite fallbackSeasons_episodes. fold eps.
      eapply List.Forall_impl; [|apply sortAndFix_positive].
      * intros; simpl in *; lia.
      * eapply List.Forall_impl; [|exact Hall]. now intros e [? _].
    + rewrite fallbackSeasons_episodes. fold eps.
      apply (keys_titles (fun t => acceptable t = true) _ _ Hk).
      eapply List.Forall_impl; [|exact Hall]. now intros e [_ ?].
    + rewrite fallbackSeasons_episodes. fold eps.
      eapply Permutation_NoDup; [symmetry; apply keys_chapterIds, Hk|exact Hnd].
Qed.

Lemma allEpisodes_positive seasons :
  Forall (fun e => 0 <= ep_number e) (allEpisodes seasons) ->
  Forall (fun e => 1 <= ep_number e) (allEpisodes (postProcess seasons)).
Proof.
  induction seasons as [|s ss IH]; [constructor|].
  unfold allEpisodes in *. cbn [postProcess map concat]. intros H.
  apply Forall_app in H as [H1 H2].
  apply Forall_app_2; [now apply sortAndFix_positive|now apply IH].
Qed.

(** Every season returned has a name and at least one episode. *)
Theorem seasons_proper (page : DetailPage) :
  Forall properSeason (extractSeasons page).
Proof.
  destruct (raw_invariant page) as (Hp & _). unfold extractSeasons.
  unfold postProcess. apply List.Forall_map.
  eapply List.Forall_impl; [|exact Hp]. intros s [Hn He].
  split; [exact Hn|]. cbn. intros E.
  apply (f_equal (@length _)) in E. rewrite sortAndFix_length in E.
  destruct (season_episodes s); [contradiction|discriminate].
Qed.

(** Every episode returned has a number that is at least 1 and a title
    that passed the text tests: it is not empty, holds none of the action
    words, has at least two code units and is not a shortcut. *)
Theorem episodes_numbered_and_titled (page : DetailPage) :
  Forall (fun e => 1 <= ep_number e /\ acceptable (ep_title e) = true)
         (allEpisodes (extractSeasons page)).
Proof.
  destruct (raw_invariant page) as (_ & Hn & Ht & _). unfold extractSeasons.
  apply Forall_and. split.
  - now apply allEpisodes_positive.
  - apply (keys_titles (fun t => acceptable t = true) _ _
             (postProcess_keys _)). exact Ht.
Qed.

(** No two episodes returned carry the same chapter identifier, across all
    the seasons. *)
Theorem chapter_ids_distinct (page : DetailPage) :
  List.NoDup (chapterIds (allEpisodes (extractSeasons page))).
Proof.
  destruct (raw_invariant page) as (_ & _ & _ & Hnd). unfold extractSeasons.
  eapply Permutation_NoDup; [symmetry; apply keys_chapterIds, postProcess_keys|].
  exact Hnd.
Qed.

(** The fallback strategy gives no season, or one season named after the
    number of its episodes, whose episodes are in ascending order of
    number. *)
Theorem fallback_single_season (links : list Link) :
  extractSeasons (mkDetailPage None links) = [] \/
  exists eps,
    eps <> [] /\
    extractSeasons (mkDetailPage None links)
    = [mkSeason (JS.lit "全 " ++ JS.ofZ (Z.of_nat (length eps)) ++ JS.lit " 話")
         eps] /\
    StronglySorted leNumber eps.
Proof.
  unfold extractSeasons. cbn [dp_container dp_links]. unfold fallbackSeasons.
  pose proof (fallback_invariant (List.filter fallbackSelected links) ([], ∅)
                collected_nil) as (Hall & _ & _).
  fold (fallbackEpisodes links) in Hall.
  set (raw := fallbackEpisodes links) in *.
  assert (Hpos : Forall (fun e => 1 <= ep_number e) (sortAndFix raw)).
  { apply sortAndFix_positive. eapply List.Forall_impl; [|exact Hall].
    now intros e [? _]. }
  destruct (sortAndFix raw) as [|e eps] eqn:E; [now left|].
  right. exists (sortAndFix (e :: eps)). split; [|split].
  - intros H. apply (f_equal (@length _)) in H.
    rewrite sortAndFix_length in H. discriminate.
  - cbn [postProcess map postProcessSeason season_name season_episodes].
    unfold seasonName, orElse. now rewrite sortAndFix_length.
  - unfold sortAndFix at 1. rewrite renumber_resolved.
    + apply sort_byNumber_sorted.
    + eapply Permutation_Forall; [symmetry; apply array_sort_perm|].
      eapply List.Forall_impl; [|exact Hpos]. intros; simpl in *; lia.
Qed.

(** The primary strategy can leave a season out of order: three links
    without an ordinal before the first episode. *)
Example primary_not_ascending :
  map ep_number
    (allEpisodes
       (extractSeasons
          (mkDetailPage
             (Some [ mkChild true (JS.lit "第一季") [];
                     mkChild false [] [mkLink (JS.lit "預告") None];
                     mkChild false [] [mkLink (JS.lit "PV") None];
                     mkChild false [] [mkLink (JS.lit "OVA") None];
                     mkChild false [] [mkLink (JS.lit "第1話") None] ])
             [])))
  = [1; 2; 3; 1].
Proof. vm_compute. reflexivity. Qed.

(** ** More on the search extractor *)

Lemma absoluteUrl_http href :
  JS.startsWith (absoluteUrl href) (JS.lit "http") = true.
Proof.
  unfold absoluteUrl. destruct (JS.startsWith href (JS.lit "/")).
  - vm_compute. reflexivity.
  - destruct (JS.startsWith href (JS.lit "http")) eqn:E; cbn [negb];
      [exact E|vm_compute; reflexivity].
Qed.

Lemma titleAccepted_length t : titleAccepted t = true -> (2 <= length t)%nat.
Proof.
  unfold titleAccepted. intros H. apply andb_true_iff in H as [_ H].
  apply Nat.ltb_lt in H. lia.
Qed.

Lemma anchorTags_bounded el :
  Forall (fun t => (1 <= length t < 10)%nat /\ JS.includes t [10%N] = false)
         (anchorTags el).
Proof.
  unfold anchorTags. apply List.Forall_forall. intros t Ht.
  apply filter_In in Ht as [_ Ht].
  apply andb_true_iff in Ht as [Ht Hn]. apply andb_true_iff in Ht as [Hne Hl].
  apply bool_decide_eq_true in Hne. apply Nat.ltb_lt in Hl.
  apply negb_true_iff in Hn. destruct t; [contradiction|]. simpl in *.
  repeat split; try lia. exact Hn.
Qed.

Lemma search_loop_invariant anchors : forall res (seen : gset jsstring) pre,
  Forall wellFormedResult res ->
  List.NoDup (map sr_detailUrl res) ->
  (forall u, In u (map sr_detailUrl res) -> u ∈ seen) ->
  sublist (map sr_detailUrl res) (map anchorDetailUrl pre) ->
  Forall wellFormedResult (fst (fold_left searchStep anchors (res, seen))) /\
  List.NoDup (map sr_detailUrl (fst (fold_left searchStep anchors (res, seen)))) /\
  sublist (map sr_detailUrl (fst (fold_left searchStep anchors (res, seen))))
          (map anchorDetailUrl (pre ++ anchors)).
Proof.
  induction anchors as [|el l IH]; intros res seen pre Hw Hnd Hin Hsub.
  - cbn. rewrite app_nil_r. auto.
  - cbn [fold_left].
    replace (pre ++ el :: l) with ((pre ++ [el]) ++ l)
      by (now rewrite <- app_assoc).
    destruct (decide (anchorDetailUrl el ∈ seen)) as [Hs|Hs].
    + replace (searchStep (res, seen) el) with (res, seen)
        by (unfold searchStep; now rewrite (bool_decide_eq_true_2 _ Hs)).
      apply IH; auto.
      rewrite map_app. now apply sublist_inserts_r.
    + destruct (titleAccepted (anchorTitle el)) eqn:Hacc.
      * replace (searchStep (res, seen) el)
          with (res ++ [resultOf el], {[anchorDetailUrl el]} ∪ seen)
          by (unfold searchStep, resultOf;
              now rewrite (bool_decide_eq_false_2 _ Hs), Hacc).
        apply IH.
        -- apply Forall_app_2; [exact Hw|]. constructor; [|constructor].
           repeat split; cbn.
           ++ now apply titleAccepted_length.
           ++ apply absoluteUrl_http.
           ++ apply anchorTags_bounded.
        -- rewrite map_app. cbn. apply List.NoDup_app; auto.
           ++ repeat constructor. intros [].
           ++ intros u Hu [<-|[]]. apply Hs. now apply Hin.
        -- intros u. rewrite map_app. cbn. intros Hu.
           apply in_app_or in Hu as [Hu|[<-|[]]]; [|set_solver].
           apply Hin in Hu. set_solver.
        -- rewrite !map_app. cbn. now apply sublist_app.
      * replace (searchStep (res, seen) el)
          with (res, {[anchorDetailUrl el]} ∪ seen)
          by (unfold searchStep;
              now rewrite (bool_decide_eq_false_2 _ Hs), Hacc).
        apply IH; auto.
        -- intros u Hu. apply Hin in Hu. set_solver.
        -- rewrite map_app. now apply sublist_inserts_r.
Qed.

(** The results of a search: each one is well formed, no two have one
    detail URL, and their detail URLs are those of anchors of the page, in
    the order of the page. *)
Theorem searchAnime_wellFormed (anchors : list SearchAnchor) :
  Forall wellFormedResult (searchAnime anchors) /\
  List.NoDup (map sr_detailUrl (searchAnime anchors)) /\
  sublist (map sr_detailUrl (searchAnime anchors))
          (map anchorDetailUrl anchors).
Proof.
  unfold searchAnime.
  apply (search_loop_invariant anchors [] ∅ []); try constructor.
  intros u [].
Qed.

(** ** More on entity decoding *)

(** A replacement whose pattern starts with [&] passes over a prefix
    without [&]. *)
Lemma replaceAll_prefix q r a s :
  Forall (fun c => c <> 38%N) a ->
  JS.replaceAll (38%N :: q) r (a ++ s) = a ++ JS.replaceAll (38%N :: q) r s.
Proof.
  induction 1 as [|c a Hc _ IH]; [reflexivity|].
  cbn [app]. rewrite replaceAll_cons by (simpl; lia).
  cbn [JS.startsWith].
  destruct (N.eqb_spec 38 c) as [E|_]; [now subst c|].
  cbn [andb]. now rewrite IH.
Qed.

Lemma decode_prefix a s :
  Forall (fun c => c <> 38%N) a ->
  decodeHtmlEntities (a ++ s) = a ++ decodeHtmlEntities s.
Proof.
  intros H. unfold decodeHtmlEntities.
  change (JS.lit "&amp;") with (38%N :: JS.lit "amp;").
  change (JS.lit "&lt;") with (38%N :: JS.lit "lt;").
  change (JS.lit "&gt;") with (38%N :: JS.lit "gt;").
  change (JS.lit "&quot;") with (38%N :: JS.lit "quot;").
  change (JS.lit "&#39;") with (38%N :: JS.lit "#39;").
  now rewrite !replaceAll_prefix.
Qed.

(** The decoding never makes a string longer, and it leaves a string as it
    is exactly when none of the five tokens occurs in it. *)
Theorem decode_shortens_or_fixes (s : jsstring) :
  (length (decodeHtmlEntities s) <= length s)%nat /\
  (decodeHtmlEntities s = s <-> entityFree s).
Proof.
  split.
  - unfold decodeHtmlEntities.
    repeat (etransitivity; [apply replaceAll_length; vm_compute; lia|]).
    reflexivity.
  - split; [apply decode_fixed_entityFree|apply entityFree_decode].
Qed.

Lemma startsWith_app s p : JS.startsWith (p ++ s) p = true.
Proof.
  induction p as [|c p IH]; [now destruct s|].
  cbn. now rewrite N.eqb_refl.
Qed.

Lemma startsWith_split s p :
  JS.startsWith s p = true -> s = p ++ drop (length p) s.
Proof.
  revert s. induction p as [|c p IH]; intros s H; [reflexivity|].
  destruct s as [|d s]; [discriminate|]. cbn in H.
  apply andb_true_iff in H as [E H]. apply N.eqb_eq in E. subst d.
  cbn. f_equal. now apply IH.
Qed.

Lemma startsWith_app_assoc a b s :
  JS.startsWith ((a ++ b) ++ s) a = true.
Proof. rewrite <- app_assoc. apply startsWith_app. Qed.

(** An image source that starts with [/] or with [http] gives an image URL
    that starts with [http], whatever entities it contains. *)
Theorem fixImage_absolute (image : jsstring) :
  JS.startsWith image (JS.lit "/") || JS.startsWith image (JS.lit "http") = true ->
  JS.startsWith (fixImage image) (JS.lit "http") = true.
Proof.
  intros H. unfold fixImage.
  destruct (JS.startsWith image (JS.lit "http")) eqn:Hh.
  - rewrite andb_false_r.
    rewrite (startsWith_split _ _ Hh), decode_prefix.
    + apply startsWith_app.
    + vm_compute. repeat constructor; discriminate.
  - rewrite orb_false_r in H. rewrite H.
    assert (Hne : image <> []) by (intros ->; discriminate).
    rewrite (bool_decide_eq_true_2 _ Hne). cbn [andb negb].
    destruct (JS.startsWith image (JS.lit "//")).
    + rewrite decode_prefix
        by (vm_compute; repeat constructor; discriminate).
      reflexivity.
    + unfold IMAGE_BASE. rewrite decode_prefix
        by (vm_compute; repeat constructor; discriminate).
      reflexivity.
Qed.

Lemma fixImage_absolute_witness :
  JS.startsWith (fixImage (JS.lit "//img.example/a.jpg?w=1&amp;h=2"))
    (JS.lit "http") = true.
Proof.
  apply (fixImage_absolute (JS.lit "//img.example/a.jpg?w=1&amp;h=2")).
  vm_compute. reflexivity.
Defined.

(** ** More on the page fetcher *)

Section Fetcher.
Variable parse : jsstring -> option URL.
Variable net : jsstring -> Response + jsstring.
Variable late : jsstring -> option jsstring.

(** The fetcher above is the case of the textual parser and of requests
    that emit nothing after their response. *)
Lemma fetchUrl_as_fetchUrlWith n : forall url,
  fetchUrl n net url = fetchUrlWith parseURL net quiet n url.
Proof.
  induction n as [|n IH]; intros url; cbn [fetchUrl fetchUrlWith];
    destruct (net url) as [res|]; try reflexivity; cbv zeta;
    change (redirectUrlWith parseURL) with redirectUrl;
    destruct (match statusCode res with Some _ => _ | None => _ end);
    try reflexivity;
    destruct (redirectUrl url _); try reflexivity. apply IH.
Qed.

(** One request that is answered with a redirect. *)
Lemma fetchUrlWith_hop n url res loc target :
  net url = inl res -> asksRedirect res loc ->
  redirectUrlWith parse url loc = Some target ->
  fetchUrlWith parse net late n url
  = match late url with
    | Some message => Rejected message
    | None =>
      match n with
      | O => Pending
      | S n' => fetchUrlWith parse net late n' target
      end
    end.
Proof.
  intros Hn (code & Hc & Hr & Hl & Hne) Ht.
  destruct loc as [|c loc]; [contradiction|].
  destruct n; cbn [fetchUrlWith]; rewrite Hn, Hc, Hl;
    destruct (Z.eqb_spec code 0); try lia;
    destruct (Z.leb_spec 300 code); try lia;
    destruct (Z.ltb_spec code 400); try lia; cbn [andb]; now rewrite Ht.
Qed.

(** One request that is not answered with a redirect. *)
Lemma fetchUrlWith_final n url res :
  net url = inl res -> (forall loc, ~ asksRedirect res loc) ->
  fetchUrlWith parse net late n url
  = if bool_decide (statusCode res = Some 200) then Resolved (body res)
    else Rejected (JS.lit "HTTP " ++
                     match statusCode res with
                     | Some c => JS.ofZ c
                     | None => JS.lit "undefined"
                     end).
Proof.
  intros Hn Hno.
  assert (E : match statusCode res, location res with
              | Some code, Some ((_ :: _) as loc) =>
                if (code =? 0) then None
                else if (300 <=? code) && (code <? 400) then Some loc else None
              | _, _ => None
              end = None).
  { destruct (statusCode res) as [code|] eqn:Hc; [|reflexivity].
    destruct (location res) as [[|c loc]|] eqn:Hl; try reflexivity.
    destruct (Z.eqb_spec code 0); [reflexivity|].
    destruct (Z.leb_spec 300 code); destruct (Z.ltb_spec code 400);
      cbn [andb]; try reflexivity.
    destruct (Hno (c :: loc)). exists code. rewrite Hc, Hl.
    repeat split; try lia. discriminate. }
  destruct n; cbn [fetchUrlWith]; rewrite Hn; cbv zeta; now rewrite E.
Qed.

(** A response asks for a redirect or does not. *)
Lemma asksRedirect_dec res :
  (exists loc, asksRedirect res loc) \/ (forall loc, ~ asksRedirect res loc).
Proof.
  destruct (statusCode res) as [code|] eqn:Hc.
  2:{ right. intros loc (c & E & _). rewrite Hc in E. discriminate. }
  destruct (location res) as [[|c loc]|] eqn:Hl.
  - right. intros loc (c & _ & _ & E & Hne). rewrite Hl in E.
    now injection E as <-.
  - destruct (Z_lt_le_dec code 300) as [H1|H1];
      [|destruct (Z_lt_le_dec code 400) as [H2|H2]].
    + right. intros l (c' & E & Hr & _). rewrite Hc in E. injection E as <-. lia.
    + left. exists (c :: loc), code. rewrite Hc, Hl.
      split; [reflexivity|]. split; [lia|]. split; [reflexivity|discriminate].
    + right. intros l (c' & E & Hr & _). rewrite Hc in E. injection E as <-. lia.
  - right. intros loc (c & _ & _ & E & _). rewrite Hl in E. discriminate.
Qed.

(** The fetcher follows a chain of redirects to its end, unless an event
    of one of the requests rejects the promise. *)
Lemma fetchUrlWith_follows (url final : jsstring) (k : nat) :
  Redirects parse net url final k ->
  forall n,
    fetchUrlWith parse net late (k + n) url = fetchUrlWith parse net late n final
    \/ rejectedLate late (fetchUrlWith parse net late (k + n) url).
Proof.
  induction 1 as [|url res loc target final k Hn Hask Ht _ IH]; intros n;
    [now left|].
  rewrite (fetchUrlWith_hop _ url res loc target Hn Hask Ht).
  destruct (late url) as [m|] eqn:El.
  - right. now exists url, m.
  - cbn [Nat.add]. apply IH.
Qed.

Lemma fetchUrlWith_short (url final : jsstring) (k : nat) :
  Redirects parse net url final k ->
  forall n, (n < k)%nat ->
    fetchUrlWith parse net late n url = Pending
    \/ rejectedLate late (fetchUrlWith parse net late n url).
Proof.
  induction 1 as [|url res loc target final k Hn Hask Ht _ IH]; intros n Hlt;
    [lia|].
  rewrite (fetchUrlWith_hop _ url res loc target Hn Hask Ht).
  destruct (late url) as [m|] eqn:El.
  - right. now exists url, m.
  - destruct n as [|n]; [now left|]. apply IH. lia.
Qed.

(** The fetcher resolves only with the body of a response of status 200
    that a chain of redirects leads to, whatever the URL parser gives and
    whatever events the requests emit. *)
Theorem fetchUrl_resolves_only (n : nat) (url text : jsstring) :
  fetchUrlWith parse net late n url = Resolved text ->
  exists final k res,
    (k <= n)%nat /\ Redirects parse net url final k /\ net final = inl res /\
    statusCode res = Some 200 /\ body res = text.
Proof.
  revert url. induction n as [|n IH]; intros url H.
  - destruct (net url) as [res|m] eqn:Hn;
      [|cbn [fetchUrlWith] in H; rewrite Hn in H; discriminate].
    destruct (asksRedirect_dec res) as [[loc Hask]|Hno].
    + destruct (redirectUrlWith parse url loc) as [target|] eqn:Ht.
      * rewrite (fetchUrlWith_hop _ url res loc target Hn Hask Ht) in H.
        destruct (late url); discriminate.
      * destruct Hask as (code & Hc & Hr & Hl & Hne).
        destruct loc as [|c loc]; [contradiction|].
        cbn [fetchUrlWith] in H. rewrite Hn, Hc, Hl in H.
        destruct (Z.eqb_spec code 0); try lia.
        destruct (Z.leb_spec 300 code); try lia.
        destruct (Z.ltb_spec code 400); try lia.
        cbn [andb] in H. rewrite Ht in H. discriminate.
    + rewrite (fetchUrlWith_final _ url res Hn Hno) in H.
      destruct (decide (statusCode res = Some 200)) as [E|E].
      * rewrite (bool_decide_eq_true_2 _ E) in H. injection H as <-.
        exists url, O, res. repeat split; auto. constructor.
      * rewrite (bool_decide_eq_false_2 _ E) in H. discriminate.
  - destruct (net url) as [res|m] eqn:Hn;
      [|cbn [fetchUrlWith] in H; rewrite Hn in H; discriminate].
    destruct (asksRedirect_dec res) as [[loc Hask]|Hno].
    + destruct (redirectUrlWith parse url loc) as [target|] eqn:Ht.
      * rewrite (fetchUrlWith_hop _ url res loc target Hn Hask Ht) in H.
        destruct (late url); [discriminate|].
        apply IH in H as (final & k & r & Hk & Hch & Hf).
        exists final, (S k), r. split; [lia|]. split; [|exact Hf].
        econstructor; eauto.
      * destruct Hask as (code & Hc & Hr & Hl & Hne).
        destruct loc as [|c loc]; [contradiction|].
        cbn [fetchUrlWith] in H. rewrite Hn, Hc, Hl in H.
        destruct (Z.eqb_spec code 0); try lia.
        destruct (Z.leb_spec 300 code); try lia.
        destruct (Z.ltb_spec code 400); try lia.
        cbn [andb] in H. rewrite Ht in H. discriminate.
    + rewrite (fetchUrlWith_final _ url res Hn Hno) in H.
      destruct (decide (statusCode res = Some 200)) as [E|E].
      * rewrite (bool_decide_eq_true_2 _ E) in H. injection H as <-.
        exists url, O, res. repeat split; auto; [lia|constructor].
      * rewrite (bool_decide_eq_false_2 _ E) in H. discriminate.
Qed.

(** There is no bound on redirects: on a cycle of redirects no response
    settles the promise, however many redirects are followed; it stays
    pending unless an event of one of the requests rejects it. *)
Theorem fetchUrl_cycle_unsettled (url : jsstring) (k : nat) :
  Redirects parse net url url (S k) ->
  forall n,
    fetchUrlWith parse net late n url = Pending
    \/ rejectedLate late (fetchUrlWith parse net late n url).
Proof.
  intros Hch n. induction n as [n IH] using lt_wf_ind.
  destruct (Nat.lt_ge_cases n (S k)) as [Hlt|Hge].
  - now apply (fetchUrlWith_short _ _ _ Hch).
  - replace n with (S k + (n - S k))%nat by lia.
    destruct (fetchUrlWith_follows _ _ _ Hch (n - S k)%nat) as [E|E];
      [|now right].
    rewrite E. apply IH. lia.
Qed.
End Fetcher.

Lemma fetchUrl_resolves_only_witness :
  exists final k res,
    (k <= 1)%nat /\
    Redirects parseURL movedOnce (JS.lit "http://a.example/x") final k /\
    movedOnce final = inl res /\
    statusCode res = Some 200 /\ body res = JS.lit "<html>".
Proof.
  apply (fetchUrl_resolves_only parseURL movedOnce quiet 1
           (JS.lit "http://a.example/x") (JS.lit "<html>")).
  vm_compute. reflexivity.
Defined.

Lemma fetchUrl_cycle_unsettled_witness :
  fetchUrlWith oneOrigin relativePingPong quiet 100 (JS.lit "http://a.example/x")
  = Pending
  \/ rejectedLate quiet
       (fetchUrlWith oneOrigin relativePingPong quiet 100
          (JS.lit "http://a.example/x")).
Proof.
  refine (fetchUrl_cycle_unsettled oneOrigin relativePingPong quiet
            (JS.lit "http://a.example/x") 1 _ 100).
  eapply Redirects_hop.
  - vm_compute. reflexivity.
  - exists 302. cbn. split; [reflexivity|]. split; [lia|].
    split; [reflexivity|discriminate].
  - vm_compute. reflexivity.
  - eapply Redirects_hop.
    + vm_compute. reflexivity.
    + exists 301. cbn. split; [reflexivity|]. split; [lia|].
      split; [reflexivity|discriminate].
    + vm_compute. reflexivity.
    + apply Redirects_here.
Defined.

(** One redirect, then a page: resolved as soon as one redirect may be
    followed; and rejected when the first request times out before the
    page has arrived. *)
Example moved_once_resolves :
  fetchUrlWith parseURL movedOnce quiet 0 (JS.lit "http://a.example/x")
  = Pending /\
  fetchUrlWith parseURL movedOnce quiet 1 (JS.lit "http://a.example/x")
  = Resolved (JS.lit "<html>") /\
  fetchUrlWith parseURL movedOnce (fun _ => Some (JS.lit "Timeout")) 1
    (JS.lit "http://a.example/x")
  = Rejected (JS.lit "Timeout").
Proof. vm_compute. auto. Qed.

(** ** More on the download manager *)

Lemma sends_others w msgs : forall st,
  signals (fold_left (fun st m => send w m st) msgs st) = signals st /\
  mainWindow (fold_left (fun st m => send w m st) msgs st) = mainWindow st.
Proof.
  induction msgs as [|m msgs IH]; intros st; simpl; [auto|].
  destruct (IH (send w m st)) as (-> & ->). auto.
Qed.

Lemma run_snoc host es e st :
  run host (es ++ [e]) st = fst (step host e (run host es st)).
Proof. unfold run. now rewrite fold_left_app. Qed.

Lemma run_cons host es e st :
  run host (e :: es) st = run host es (fst (step host e st)).
Proof. reflexivity. Qed.

Lemma run_app host es es' st :
  run host (es ++ es') st = run host es' (run host es st).
Proof. unfold run. now rewrite fold_left_app. Qed.

Section Invariant.
Context (host : Host).

Lemma processQueue_invariant es st :
  activeDownloadProcess st = None ->
  Forall (fun s => (fst s < length (spawned st))%nat /\
                   snd s = JS.lit "SIGTERM") (signals st) ->
  (forall p, is_Some (closures st !! p) <-> (p < length (spawned st))%nat) ->
  fromSubmissions host es st ->
  managerInvariant (fst (processQueue host st)) /\
  fromSubmissions host es (fst (processQueue host st)).
Proof.
  intros Ha Hs Hc [Hq Hw].
  destruct (downloadQueue st) as [|item q] eqn:Eq.
  - rewrite processQueue_idle by exact Eq. cbn [fst].
    split; [|split; cbn; [now rewrite Eq|exact Hw]].
    unfold managerInvariant. cbn. split; [|split; [|split]]; auto.
    intros p H. congruence.
  - destruct (opt_episodes (qi_options item)) as [|firstEp eps] eqn:Ee.
    + rewrite (processQueue_throws host st item q Eq Ee). cbn [fst].
      split; [|split; cbn; [now rewrite Eq|exact Hw]].
      unfold managerInvariant. cbn. split; [|split; [|split]]; auto.
      * intros p H. congruence.
      * discriminate.
    + rewrite (processQueue_spawns host st item q firstEp eps Eq Ee).
      cbn [fst]. split; [|split; cbn].
      * unfold managerInvariant.
        cbn [activeDownloadProcess queueProcessing downloadQueue spawned
             signals closures].
        rewrite length_app. cbn [length].
        split; [|split; [|split]].
        -- intros p [= <-]. split; [lia|]. split; [reflexivity|discriminate].
        -- discriminate.
        -- eapply List.Forall_impl; [|exact Hs]. intros [p sg] [H1 H2].
           cbn in *. split; [lia|exact H2].
        -- intros p. rewrite lookup_insert_is_Some, Hc. split.
           ++ intros [<-|[_ H]]; lia.
           ++ intros H. destruct (decide (length (spawned st) = p));
                [now left|right; split; [assumption|lia]].
      * exact Hq.
      * apply Forall_app_2; [exact Hw|]. constructor; [|constructor].
        apply Forall_cons_iff in Hq as [Hi _].
        exists (qi_options item). split; [exact Hi|].
        unfold workerFor. now rewrite Ee.
Qed.

Lemma fromSubmissions_more es e st :
  fromSubmissions host es st -> fromSubmissions host (es ++ [e]) st.
Proof.
  intros [Hq Hw]. split.
  - eapply List.Forall_impl; [|exact Hq]. intros it H. apply in_or_app. now left.
  - eapply List.Forall_impl; [|exact Hw]. intros s (o & H & E).
    exists o. split; [apply in_or_app; now left|exact E].
Qed.

Lemma step_invariant es e st :
  managerInvariant st -> fromSubmissions host es st ->
  managerInvariant (fst (step host e st)) /\
  fromSubmissions host (es ++ [e]) (fst (step host e st)).
Proof.
  intros Hinv Hf. pose proof Hinv as (Ha & Hp & Hs & Hc).
  assert (Hf' := fromSubmissions_more es e st Hf).
  assert (Hnone : queueProcessing st = false -> activeDownloadProcess st = None).
  { intros Eb. destruct (activeDownloadProcess st) as [p|] eqn:E; [|reflexivity].
    destruct (Ha p eq_refl) as (_ & H & _). congruence. }
  assert (Htail : forall st', spawned st' = spawned st ->
            downloadQueue st' = tail (downloadQueue st) ->
            fromSubmissions host (es ++ [e]) st').
  { intros st' E1 E2. destruct Hf' as [Hq Hw]. split; rewrite ?E1, ?E2; auto.
    destruct (downloadQueue st); [constructor|].
    now apply Forall_cons_iff in Hq as [_ Hq]. }
  destruct e as [o| |p d|p d|p code|p msg].
  - destruct (mainWindow st) as [w|] eqn:Ew.
    2:{ unfold step, handleStartDownload. rewrite Ew. cbn [fst]. auto. }
    rewrite (step_StartDownload host st w o Ew).
    assert (Hpush : Forall (fun it => In (StartDownload (qi_options it))
                                        (es ++ [StartDownload o]))
                      (downloadQueue st ++ [mkQueueItem w o])).
    { destruct Hf' as [Hq Hw]. apply Forall_app_2; [exact Hq|].
      repeat constructor. cbn. apply in_or_app. right. now left. }
    destruct (queueProcessing st) eqn:Eb.
    + rewrite startDownload_busy by exact Eb. cbn [fst].
      split; [|destruct Hf' as [Hq Hw]; split; cbn; [exact Hpush|exact Hw]].
      unfold managerInvariant. cbn. split; [|split; [|split]]; auto.
      * intros p H. destruct (Ha p H) as (H1 & H2 & H3).
        split; [exact H1|]. split; [exact Eb|].
        intros E. now apply app_eq_nil in E as [_ [=]].
      * rewrite Eb. discriminate.
    + rewrite startDownload_idle by exact Eb.
      apply processQueue_invariant; cbn; auto.
      destruct Hf' as [Hq Hw]. split; cbn; [exact Hpush|exact Hw].
  - rewrite step_CancelDownload.
    destruct (activeDownloadProcess st) as [p|] eqn:E.
    + split; [|destruct Hf' as [Hq Hw]; split; cbn; [constructor|exact Hw]].
      unfold managerInvariant. cbn. split; [|split; [|split]]; auto.
      * intros q [=].
      * apply Forall_app_2; [exact Hs|]. repeat constructor; cbn.
        now apply Ha.
    + split; [|destruct Hf' as [Hq Hw]; split; cbn; [constructor|exact Hw]].
      unfold managerInvariant. cbn. split; [|split; [|split]]; auto.
      intros q H. congruence.
  - unfold step, onStdout. destruct (closures st !! p) as [cl|] eqn:Ecl.
    2:{ cbn [fst]. auto. }
    destruct (stdoutChunk _ _ _) as [msgs buffer]. cbn [fst].
    destruct (sends_fields (cl_win cl) msgs
                (setClosure p (mkClosure (cl_win cl) (cl_cartoonId cl) buffer) st))
      as (E1 & E2 & E3 & E4 & E5).
    destruct (sends_others (cl_win cl) msgs
                (setClosure p (mkClosure (cl_win cl) (cl_cartoonId cl) buffer) st))
      as (E6 & E7).
    cbn zeta in *.
    split; [|destruct Hf' as [Hq Hw]; split; [now rewrite E1|now rewrite E2]].
    unfold managerInvariant. rewrite E1, E2, E3, E4, E5, E6.
    cbn [downloadQueue activeDownloadProcess queueProcessing spawned signals
         closures setClosure].
    split; [|split; [|split]]; auto.
    intros q. rewrite lookup_insert_is_Some, <- Hc.
    split; [intros [E|[_ H]]; [subst; exists cl; exact Ecl|exact H]|].
    intros H. destruct (decide (p = q)); [now left|now right].
  - unfold step, onStderr. destruct (closures st !! p) as [cl|] eqn:Ecl.
    2:{ cbn [fst]. auto. }
    destruct (JS.trim d); cbn [fst]; auto.
  - rewrite step_Close. destruct (closures st !! p) as [cl|] eqn:Ecl.
    2:{ unfold onClose. rewrite Ecl. cbn [fst]. auto. }
    rewrite (onClose_handled host st p cl code Ecl).
    apply processQueue_invariant; cbn; auto.
  - rewrite step_Error. destruct (closures st !! p) as [cl|] eqn:Ecl.
    2:{ unfold onError. rewrite Ecl. cbn [fst]. auto. }
    rewrite (onError_handled host st p cl msg Ecl).
    apply processQueue_invariant; cbn; auto.
Qed.

(** Whatever happens, in whatever order: the invariant holds, and every
    process spawned is the worker of a submitted job that requests an
    episode. *)
Theorem manager_invariant (w : option Win) (es : list Event) :
  managerInvariant (run host es (initialState w)) /\
  Forall (submittedWorker host es) (spawned (run host es (initialState w))).
Proof.
  enough (H : managerInvariant (run host es (initialState w)) /\
              fromSubmissions host es (run host es (initialState w))).
  { destruct H as (H & _ & H'). auto. }
  induction es as [|e es IH] using rev_ind.
  - split; [|split; constructor].
    unfold managerInvariant. cbn. split; [|split; [|split]]; auto.
    + intros p [=].
    + intros p. rewrite lookup_empty. split; [intros [x [=]]|lia].
  - rewrite run_snoc. destruct IH as [H1 H2]. now apply step_invariant.
Qed.
End Invariant.

(** *** The worker's command line *)

Lemma mathMin_spec rest : forall n,
  In (mathMin n rest) (n :: rest) /\
  Forall (fun x => mathMin n rest <= x) (n :: rest).
Proof.
  unfold mathMin. induction rest as [|m rest IH]; intros n; cbn [fold_left].
  - split; [now left|]. repeat constructor. lia.
  - destruct (IH (Z.min n m)) as [Hin Hall].
    apply Forall_cons_iff in Hall as [H0 Hall]. split.
    + destruct Hin as [<-|Hin]; [|now right; right].
      destruct (Z.min_spec n m) as [[_ ->]|[_ ->]]; [now left|right; now left].
    + constructor; [lia|]. constructor; [lia|exact Hall].
Qed.

Lemma mathMax_spec rest : forall n,
  In (mathMax n rest) (n :: rest) /\
  Forall (fun x => x <= mathMax n rest) (n :: rest).
Proof.
  unfold mathMax. induction rest as [|m rest IH]; intros n; cbn [fold_left].
  - split; [now left|]. repeat constructor. lia.
  - destruct (IH (Z.max n m)) as [Hin Hall].
    apply Forall_cons_iff in Hall as [H0 Hall]. split.
    + destruct Hin as [<-|Hin]; [|now right; right].
      destruct (Z.max_spec n m) as [[_ ->]|[_ ->]]; [right; now left|now left].
    + constructor; [lia|]. constructor; [lia|exact Hall].
Qed.

Lemma rangeOf_mathMin_mathMax n rest :
  rangeOf (n :: rest) (mathMin n rest) (mathMax n rest).
Proof.
  destruct (mathMin_spec rest n) as [H1 H2].
  destruct (mathMax_spec rest n) as [H3 H4].
  split; [exact H1|]. split; [exact H3|].
  apply List.Forall_forall. intros x Hx.
  rewrite List.Forall_forall in H2, H4. split; auto.
Qed.

Lemma rangeOf_unique numbers lo hi lo' hi' :
  rangeOf numbers lo hi -> rangeOf numbers lo' hi' -> lo = lo' /\ hi = hi'.
Proof.
  intros (H1 & H2 & H3) (H1' & H2' & H3').
  rewrite List.Forall_forall in H3, H3'.
  pose proof (H3 _ H1'). pose proof (H3 _ H2').
  pose proof (H3' _ H1). pose proof (H3' _ H2). lia.
Qed.

Lemma videoUrlOf_http cartoonId firstEp :
  JS.startsWith (videoUrlOf cartoonId firstEp) (JS.lit "http") = true.
Proof.
  unfold videoUrlOf.
  destruct (bool_decide (ep_href firstEp <> []) &&
            JS.includes (ep_href firstEp) (JS.lit "/video/")).
  - destruct (JS.startsWith (ep_href firstEp) (JS.lit "http")) eqn:E;
      [exact E|vm_compute; reflexivity].
  - destruct (Regex.exec chapterIdRe (ep_href firstEp));
      vm_compute; reflexivity.
Qed.

(** The command line of a worker for requested numbers that are safe
    integers, for which [String] gives the decimal form: the interpreter,
    then the script, a target URL that starts with [http], the output
    directory, and the decimal forms of the least and the greatest
    requested number. *)
Theorem workerSpawn_shape (host : Host) (o : DownloadOptions)
    (firstEp : Episode) (rest : list Episode) :
  opt_episodes o = firstEp :: rest ->
  Forall (fun ep => safeInteger (ep_number ep)) (opt_episodes o) ->
  (sp_command (workerSpawn host o firstEp) = JS.lit "python" \/
   sp_command (workerSpawn host o firstEp) = JS.lit "python3") /\
  exists lo hi,
    sp_args (workerSpawn host o firstEp)
    = [scriptPath host; videoUrlOf (opt_cartoonId o) firstEp;
       opt_outputDir o; JS.ofZ lo; JS.ofZ hi] /\
    JS.startsWith (videoUrlOf (opt_cartoonId o) firstEp) (JS.lit "http") = true /\
    rangeOf (map ep_number (opt_episodes o)) lo hi /\
    safeInteger lo /\ safeInteger hi.
Proof.
  intros He Hsafe. split.
  - unfold workerSpawn, pythonCmd. cbn [sp_command].
    destruct (bool_decide (platform host = JS.lit "win32")); auto.
  - unfold workerSpawn. rewrite He in *. cbn [map sp_args app].
    pose proof (rangeOf_mathMin_mathMax (ep_number firstEp)
                  (map ep_number rest)) as Hr.
    eexists _, _. split; [reflexivity|].
    split; [apply videoUrlOf_http|]. split; [exact Hr|].
    destruct Hr as (Hlo & Hhi & _).
    change (ep_number firstEp :: map ep_number rest)
      with (map ep_number (firstEp :: rest)) in Hlo, Hhi.
    apply in_map_iff in Hlo as (e1 & <- & H1).
    apply in_map_iff in Hhi as (e2 & <- & H2).
    rewrite List.Forall_forall in Hsafe. auto.
Qed.

Lemma workerSpawn_shape_witness :
  exists lo hi,
    sp_args (workerSpawn linuxHost jobEnds episode1)
    = [scriptPath linuxHost; videoUrlOf (opt_cartoonId jobEnds) episode1;
       opt_outputDir jobEnds; JS.ofZ lo; JS.ofZ hi] /\
    JS.startsWith (videoUrlOf (opt_cartoonId jobEnds) episode1) (JS.lit "http")
    = true /\
    rangeOf (map ep_number (opt_episodes jobEnds)) lo hi /\
    safeInteger lo /\ safeInteger hi.
Proof.
  refine (proj2 (workerSpawn_shape linuxHost jobEnds episode1 [episode5]
                   eq_refl _)).
  repeat constructor; vm_compute; congruence.
Defined.

(** The worker is told the range only: two jobs for one title and one
    directory, with one first link and one least and greatest requested
    number, start the same command, whatever else they request. *)
Theorem worker_range_only (host : Host) (o o' : DownloadOptions)
    (e e' : Episode) (l l' : list Episode) (lo hi : Z) :
  opt_episodes o = e :: l -> opt_episodes o' = e' :: l' ->
  opt_cartoonId o = opt_cartoonId o' -> opt_outputDir o = opt_outputDir o' ->
  ep_href e = ep_href e' ->
  rangeOf (map ep_number (opt_episodes o)) lo hi ->
  rangeOf (map ep_number (opt_episodes o')) lo hi ->
  workerSpawn host o e = workerSpawn host o' e'.
Proof.
  intros He He' Hc Hd Hh Hr Hr'.
  unfold workerSpawn. rewrite He, He' in *. cbn [map] in *.
  destruct (rangeOf_unique _ _ _ _ _ Hr
              (rangeOf_mathMin_mathMax (ep_number e) (map ep_number l)))
    as [<- <-].
  destruct (rangeOf_unique _ _ _ _ _ Hr'
              (rangeOf_mathMin_mathMax (ep_number e') (map ep_number l')))
    as [<- <-].
  unfold videoUrlOf. now rewrite Hc, Hd, Hh.
Qed.

Lemma worker_range_only_witness :
  workerSpawn linuxHost jobEnds episode1 = workerSpawn linuxHost jobRange episode1.
Proof.
  apply (worker_range_only linuxHost jobEnds jobRange episode1 episode1
           [episode5] [episode3; episode5] 1 5); try reflexivity.
  - repeat split; cbn; auto. repeat constructor; lia.
  - repeat split; cbn; auto. repeat constructor; lia.
Defined.

(** *** Whole runs *)

Section Runs.
Context (host : Host).

Lemma step_Cancel_full st :
  step host CancelDownload st
  = match activeDownloadProcess st with
    | Some p =>
      (setActive None (kill p (JS.lit "SIGTERM") (setQueue [] st)),
       Return (Some (mkReply true None)))
    | None =>
      (setQueue [] st,
       Return (Some (mkReply false (Some (JS.lit "No active download")))))
    end.
Proof.
  unfold step, handleCancelDownload, bind, modify, gets, ret.
  cbn [setQueue activeDownloadProcess].
  destruct (activeDownloadProcess st); reflexivity.
Qed.

Lemma step_Start_busy_full st w o :
  mainWindow st = Some w -> queueProcessing st = true ->
  step host (StartDownload o) st
  = (setQueue (downloadQueue st ++ [mkQueueItem w o]) st,
     Return (Some (mkReply true None))).
Proof.
  intros Hw Hb. unfold step, handleStartDownload. rewrite Hw.
  now rewrite (startDownload_busy host st w o Hb).
Qed.

Lemma step_Start_idle_full st w o :
  mainWindow st = Some w -> queueProcessing st = false ->
  step host (StartDownload o) st
  = match processQueue host
            (setQueue (downloadQueue st ++ [mkQueueItem w o]) st) with
    | (st', Return _) => (st', Return (Some (mkReply true None)))
    | (st', Throw e) => (st', Return (Some (mkReply false (Some e))))
    end.
Proof.
  intros Hw Hb. unfold step, handleStartDownload. rewrite Hw.
  rewrite (startDownload_idle host st w o Hb).
  destruct (processQueue host _) as [st' []]; reflexivity.
Qed.

Lemma step_unhandled st e p :
  closures st !! p = None ->
  (exists d, e = Stdout p d) \/ (exists d, e = Stderr p d) \/
  (exists c, e = Close p c) \/ (exists m, e = Error p m) ->
  step host e st = (st, Return None).
Proof.
  intros Hc [[d ->]|[[d ->]|[[c ->]|[m ->]]]];
    unfold step, onStdout, onStderr, onClose, onError; now rewrite Hc.
Qed.

(** Submissions to a busy manager go to the end of the queue, in order. *)
Lemma submit_while_busy w jobs : forall st,
  mainWindow st = Some w -> queueProcessing st = true ->
  run host (map StartDownload jobs) st
  = setQueue (downloadQueue st ++ map (mkQueueItem w) jobs) st.
Proof.
  induction jobs as [|o jobs IH]; intros st Hw Hb.
  - cbn. rewrite app_nil_r. now destruct st.
  - cbn [map]. rewrite run_cons, (step_Start_busy_full st w o Hw Hb).
    cbn [fst]. rewrite IH by assumption.
    unfold setQueue. cbn. now rewrite <- app_assoc.
Qed.

Lemma drain_from w jobs : forall o codes st k cl,
  Forall (fun o => opt_episodes o <> []) jobs ->
  (length codes <= S (length jobs))%nat ->
  downloadQueue st = map (mkQueueItem w) (o :: jobs) ->
  activeDownloadProcess st = Some k -> queueProcessing st = true ->
  length (spawned st) = S k ->
  closures st !! k = Some cl -> cl_win cl = w ->
  map Some (spawned (run host (closesFrom k codes) st))
  = map Some (spawned st) ++ map (workerFor host) (take (length codes) jobs) /\
  downloadQueue (run host (closesFrom k codes) st)
  = map (mkQueueItem w) (drop (length codes) (o :: jobs)) /\
  queueProcessing (run host (closesFrom k codes) st)
  = (length codes <=? length jobs)%nat /\
  activeDownloadProcess (run host (closesFrom k codes) st)
  = (if (length codes <=? length jobs)%nat
     then Some (k + length codes)%nat else None) /\
  sent (run host (closesFrom k codes) st)
  = sent st ++ map (fun c => (w, DownloadComplete (default 1 c))) codes.
Proof.
  induction jobs as [|o' jobs IH];
    intros o codes st k cl Hj Hl Hq Ha Hb Hs Hc Hw;
    (destruct codes as [|c codes];
     [cbn; rewrite !app_nil_r, Nat.add_0_r; auto|]);
    cbn [closesFrom]; rewrite run_cons, step_Close,
      (onClose_handled host st k cl c Hc), Hw.
  - destruct codes; [|simpl in Hl; lia]. cbn [closesFrom run fold_left].
    rewrite processQueue_idle by (cbn; now rewrite Hq).
    cbn. rewrite app_nil_r, Hq. cbn. auto.
  - apply Forall_cons_iff in Hj as [Ho' Hj].
    destruct (opt_episodes o') as [|firstEp eps] eqn:Ee; [contradiction|].
    erewrite processQueue_spawns;
      [|cbn; rewrite Hq; reflexivity|exact Ee].
    cbn [fst]. cbn [spawned send setActive setQueue].
    rewrite Hs.
    match goal with
    | |- context [run host _ ?st1] =>
      destruct (IH o' codes st1 (S k)
                  (mkClosure w (opt_cartoonId o') [])) as (H1 & H2 & H3 & H4 & H5)
    end;
      [exact Hj|cbn in Hl; lia|reflexivity|reflexivity|reflexivity
      |cbn; rewrite length_app, Hs; cbn; lia
      |cbn; apply lookup_insert_eq|reflexivity|].
    rewrite H1, H2, H3, H4, H5.
    cbn [spawned sent map qi_options length take drop Nat.leb].
    unfold workerFor at 2. rewrite Ee.
    rewrite map_app, <- !app_assoc. cbn [map app].
    rewrite Nat.add_succ_r. cbn [Nat.add].
    repeat split; try reflexivity. cbn. now rewrite <- app_assoc.
Qed.

(** Jobs that each request an episode, submitted in a row to the idle
    manager, then the close of the first workers in turn.  At each stage,
    after [m] closes: the workers started so far are those of the first
    [m + 1] jobs, in the order of submission; the last of them is the
    active process; the jobs from that one on are in the queue; and [m]
    completions have been reported.  So the worker of a job is started by
    the close of the worker before it, and after the last close the
    manager is idle with an empty queue. *)
Theorem queue_drains (w : Win) (jobs : list DownloadOptions)
    (codes : list (option Z)) :
  Forall (fun o => opt_episodes o <> []) jobs ->
  (length codes <= length jobs)%nat ->
  map Some (spawned (run host (map StartDownload jobs ++ closesFrom O codes)
                       (initialState (Some w))))
  = map (workerFor host) (take (S (length codes)) jobs) /\
  downloadQueue (run host (map StartDownload jobs ++ closesFrom O codes)
                   (initialState (Some w)))
  = map (mkQueueItem w) (drop (length codes) jobs) /\
  activeDownloadProcess (run host (map StartDownload jobs ++ closesFrom O codes)
                           (initialState (Some w)))
  = (if (length codes <? length jobs)%nat then Some (length codes) else None) /\
  queueProcessing (run host (map StartDownload jobs ++ closesFrom O codes)
                     (initialState (Some w)))
  = (length codes <? length jobs)%nat /\
  sent (run host (map StartDownload jobs ++ closesFrom O codes)
          (initialState (Some w)))
  = map (fun c => (w, DownloadComplete (default 1 c))) codes.
Proof.
  intros Hj Hl. destruct jobs as [|o jobs].
  - destruct codes; [|simpl in Hl; lia]. cbn. auto.
  - apply Forall_cons_iff in Hj as [Ho Hj].
    destruct (opt_episodes o) as [|firstEp eps] eqn:Ee; [contradiction|].
    rewrite run_app. cbn [map]. rewrite run_cons.
    rewrite (step_StartDownload host (initialState (Some w)) w o eq_refl).
    rewrite startDownload_idle by reflexivity.
    erewrite processQueue_spawns; [|reflexivity|exact Ee].
    cbn [fst initialState setQueue downloadQueue activeDownloadProcess
         queueProcessing mainWindow spawned closures signals sent
         length app qi_win qi_options].
    rewrite (submit_while_busy w jobs) by reflexivity.
    match goal with
    | |- context [run host _ ?st1] =>
      destruct (drain_from w jobs o codes st1 O
                  (mkClosure w (opt_cartoonId o) []))
        as (H1 & H2 & H3 & H4 & H5)
    end;
      [exact Hj|simpl in Hl; lia|reflexivity|reflexivity|reflexivity
      |reflexivity|apply lookup_insert_eq|reflexivity|].
    rewrite H1, H2, H3, H4, H5.
    cbn [spawned sent map app take Nat.add]. unfold workerFor at 2.
    rewrite Ee. unfold Nat.ltb. cbn [length Nat.leb]. auto.
Qed.
End Runs.

Lemma queue_drains_witness :
  map Some (spawned (run linuxHost
                       (map StartDownload [jobA; jobB; jobC]
                          ++ closesFrom O [Some 0])
                       (initialState (Some 1%nat))))
  = map (workerFor linuxHost) (take 2 [jobA; jobB; jobC]) /\
  downloadQueue (run linuxHost
                   (map StartDownload [jobA; jobB; jobC]
                      ++ closesFrom O [Some 0])
                   (initialState (Some 1%nat)))
  = map (mkQueueItem 1%nat) (drop 1 [jobA; jobB; jobC]) /\
  activeDownloadProcess (run linuxHost
                           (map StartDownload [jobA; jobB; jobC]
                              ++ closesFrom O [Some 0])
                           (initialState (Some 1%nat)))
  = Some 1%nat /\
  queueProcessing (run linuxHost
                     (map StartDownload [jobA; jobB; jobC]
                        ++ closesFrom O [Some 0])
                     (initialState (Some 1%nat)))
  = true /\
  sent (run linuxHost
          (map StartDownload [jobA; jobB; jobC] ++ closesFrom O [Some 0])
          (initialState (Some 1%nat)))
  = [(1%nat, DownloadComplete 0)].
Proof.
  apply (queue_drains linuxHost 1%nat [jobA; jobB; jobC] [Some 0]).
  - repeat constructor; discriminate.
  - simpl. lia.
Defined.

Section Stuck.
Context (host : Host).

Lemma stuck_step w e st :
  stuck st w ->
  snd (step host e st) = stuckAnswer e /\ stuck (fst (step host e st)) w.
Proof.
  intros (Hw & Hb & Ha & Hc & Hs).
  destruct e as [o| |p d|p d|p code|p msg].
  - rewrite (step_Start_busy_full host st w o Hw Hb). cbn [fst snd].
    split; [reflexivity|]. repeat split; assumption.
  - rewrite step_Cancel_full, Ha. cbn [fst snd].
    split; [reflexivity|]. repeat split; assumption.
  - rewrite (step_unhandled host st _ p); [|now rewrite Hc|eauto].
    split; [reflexivity|]. repeat split; assumption.
  - rewrite (step_unhandled host st _ p); [|now rewrite Hc|eauto].
    split; [reflexivity|]. repeat split; assumption.
  - rewrite (step_unhandled host st _ p); [|now rewrite Hc|eauto 6].
    split; [reflexivity|]. repeat split; assumption.
  - rewrite (step_unhandled host st _ p); [|now rewrite Hc|eauto 6].
    split; [reflexivity|]. repeat split; assumption.
Qed.

Lemma stuck_run w es : forall st,
  stuck st w ->
  trace host es st = map stuckAnswer es /\ stuck (run host es st) w.
Proof.
  induction es as [|e es IH]; intros st H; [now split|].
  destruct (stuck_step w e st H) as [H1 H2].
  cbn [trace map]. rewrite run_cons.
  destruct (step host e st) as [st' r]. cbn [fst snd] in *.
  destruct (IH st' H2) as [H3 H4]. now rewrite H1, H3.
Qed.

(** A job without episodes, submitted to the manager at its start, is
    answered with the error; from then on the manager is stuck: every
    later submission is answered with success and queued, every cancel
    finds no active download, and no worker is ever started. *)
Theorem stuck_after_empty_job (w : Win) (o : DownloadOptions)
    (es : list Event) :
  opt_episodes o = [] ->
  trace host (StartDownload o :: es) (initialState (Some w))
  = Return (Some (mkReply false (Some undefinedHref))) :: map stuckAnswer es /\
  spawned (run host (StartDownload o :: es) (initialState (Some w))) = [].
Proof.
  intros He. cbn [trace]. rewrite run_cons.
  rewrite (step_Start_idle_full host (initialState (Some w)) w o eq_refl eq_refl).
  erewrite processQueue_throws; [|reflexivity|exact He].
  cbn [fst].
  match goal with
  | |- context [run host es ?st] =>
    destruct (stuck_run w es st) as [H1 (_ & _ & _ & _ & H2)]
  end; [repeat split|].
  now rewrite H1, H2.
Qed.

(** A job submitted after a cancel and before the close of the cancelled
    worker is answered with success, and the close handler of that worker
    then takes it off the queue: it is never started. *)
Theorem job_lost_after_cancel (st : State) (w : Win) (p : Pid)
    (D : DownloadOptions) (code : option Z) :
  running st w p ->
  trace host [CancelDownload; StartDownload D; Close p code] st
  = [Return (Some (mkReply true None)); Return (Some (mkReply true None));
     Return None] /\
  spawned (run host [CancelDownload; StartDownload D; Close p code] st)
  = spawned st /\
  downloadQueue (run host [CancelDownload; StartDownload D; Close p code] st)
  = [] /\
  queueProcessing (run host [CancelDownload; StartDownload D; Close p code] st)
  = false.
Proof.
  intros (Hw & Ha & Hb & [cl Hc]).
  cbn [trace]. rewrite !run_cons. cbn [run fold_left].
  rewrite step_Cancel_full, Ha. cbn [fst].
  match goal with
  | |- context [step host (StartDownload D) ?st1] =>
    rewrite (step_Start_busy_full host st1 w D Hw Hb)
  end.
  cbn [fst setQueue setActive kill downloadQueue activeDownloadProcess
       queueProcessing mainWindow spawned closures signals sent app].
  match goal with
  | |- context [step host (Close p code) ?st2] =>
    assert (Hc2 : closures st2 !! p = Some cl) by exact Hc;
    assert (E : step host (Close p code) st2
                = (fst (onClose host p code st2), Return None));
      [|rewrite E; rewrite (onClose_handled host st2 p cl code Hc2)]
  end.
  { unfold step. rewrite (onClose_handled host _ p cl code Hc2).
    now rewrite processQueue_idle. }
  rewrite processQueue_idle by reflexivity.
  cbn [fst snd spawned downloadQueue queueProcessing setProcessing setQueue
       send setActive tail].
  auto.
Qed.

(** When both the [error] and the [close] event of one process are
    delivered, each handler takes a job off the queue and starts the
    next: the job after the failed one is taken off while its worker
    runs, and a second worker is started beside it. *)
Theorem error_then_close_starts_two (st : State) (p : Pid)
    (A B C : QueueItem) (q : list QueueItem) (b c : Episode)
    (lb lc : list Episode) (message : jsstring) (code : option Z) :
  is_Some (closures st !! p) ->
  downloadQueue st = A :: B :: C :: q ->
  opt_episodes (qi_options B) = b :: lb ->
  opt_episodes (qi_options C) = c :: lc ->
  spawned (run host [Error p message; Close p code] st)
  = spawned st ++ [workerSpawn host (qi_options B) b;
                   workerSpawn host (qi_options C) c] /\
  downloadQueue (run host [Error p message; Close p code] st) = C :: q /\
  activeDownloadProcess (run host [Error p message; Close p code] st)
  = Some (S (length (spawned st))).
Proof.
  intros [cl Hc] Hq HB HC.
  rewrite !run_cons. cbn [run fold_left].
  rewrite step_Error, (onError_handled host st p cl message Hc).
  erewrite processQueue_spawns; [|cbn; rewrite Hq; reflexivity|exact HB].
  cbn [fst]. rewrite step_Close.
  match goal with
  | |- context [onClose host p code ?st1] =>
    assert (Hc' : is_Some (closures st1 !! p))
  end.
  { cbn. apply lookup_insert_is_Some.
    destruct (decide (length (spawned st) = p)); [now left|right].
    split; [assumption|]. now exists cl. }
  destruct Hc' as [cl' Hc'].
  rewrite (onClose_handled host _ p cl' code Hc').
  erewrite processQueue_spawns; [|reflexivity|exact HC].
  cbn. rewrite length_app, <- app_assoc. cbn.
  repeat split. f_equal. lia.
Qed.
End Stuck.

Lemma stuck_after_empty_job_witness :
  trace linuxHost [StartDownload emptyJob; StartDownload jobA; CancelDownload;
                   StartDownload jobB]
    (initialState (Some 1%nat))
  = Return (Some (mkReply false (Some undefinedHref)))
      :: map stuckAnswer [StartDownload jobA; CancelDownload; StartDownload jobB]
  /\
  spawned (run linuxHost [StartDownload emptyJob; StartDownload jobA;
                          CancelDownload; StartDownload jobB]
             (initialState (Some 1%nat))) = [].
Proof.
  apply (stuck_after_empty_job linuxHost 1%nat emptyJob
           [StartDownload jobA; CancelDownload; StartDownload jobB]).
  reflexivity.
Defined.

Lemma job_lost_after_cancel_witness :
  trace linuxHost [CancelDownload; StartDownload jobB; Close O (Some 0)]
    (run linuxHost [StartDownload jobA] (initialState (Some 1%nat)))
  = [Return (Some (mkReply true None)); Return (Some (mkReply true None));
     Return None] /\
  spawned (run linuxHost [CancelDownload; StartDownload jobB; Close O (Some 0)]
             (run linuxHost [StartDownload jobA] (initialState (Some 1%nat))))
  = spawned (run linuxHost [StartDownload jobA] (initialState (Some 1%nat))) /\
  downloadQueue
    (run linuxHost [CancelDownload; StartDownload jobB; Close O (Some 0)]
       (run linuxHost [StartDownload jobA] (initialState (Some 1%nat))))
  = [] /\
  queueProcessing
    (run linuxHost [CancelDownload; StartDownload jobB; Close O (Some 0)]
       (run linuxHost [StartDownload jobA] (initialState (Some 1%nat))))
  = false.
Proof.
  apply (job_lost_after_cancel linuxHost
           (run linuxHost [StartDownload jobA] (initialState (Some 1%nat)))
           1%nat O jobB (Some 0)).
  repeat split. eexists. vm_compute. reflexivity.
Defined.

Lemma error_then_close_starts_two_witness :
  spawned (run linuxHost [Error O (JS.lit "spawn python3 ENOENT"); Close O None]
             (afterThree linuxHost 1%nat jobA jobB jobC))
  = spawned (afterThree linuxHost 1%nat jobA jobB jobC)
      ++ [workerSpawn linuxHost jobB episode2;
          workerSpawn linuxHost jobC episode1] /\
  downloadQueue
    (run linuxHost [Error O (JS.lit "spawn python3 ENOENT"); Close O None]
       (afterThree linuxHost 1%nat jobA jobB jobC))
  = mkQueueItem 1%nat jobC :: [] /\
  activeDownloadProcess
    (run linuxHost [Error O (JS.lit "spawn python3 ENOENT"); Close O None]
       (afterThree linuxHost 1%nat jobA jobB jobC))
  = Some (S (length (spawned (afterThree linuxHost 1%nat jobA jobB jobC)))).
Proof.
  apply (error_then_close_starts_two linuxHost
           (afterThree linuxHost 1%nat jobA jobB jobC) O
           (mkQueueItem 1%nat jobA) (mkQueueItem 1%nat jobB)
           (mkQueueItem 1%nat jobC) [] episode2 episode1 [] []
           (JS.lit "spawn python3 ENOENT") None).
  - eexists. vm_compute. reflexivity.
  - vm_compute. reflexivity.
  - reflexivity.
  - reflexivity.
Defined.

(** ** Renderer: folder names *)

Example sanitize_example :
  sanitizeFolderName rawTitle = JS.lit "....ReZero 2nd" /\
  getOutputDir None shownState = JS.lit "/home/me/anime/....ReZero 2nd".
Proof. vm_compute. split; reflexivity. Qed.

(** *** The five steps, one by one *)

(** The replacement of a class by nothing keeps what is outside it. *)
Lemma replace_g_class p : forall fuel s,
  (length s < fuel)%nat ->
  Regex.replace_g_fuel fuel (Regex.Chr p) [] s
  = List.filter (fun c => negb (p c)) s.
Proof.
  induction fuel as [|fuel IH]; intros s Hf; [lia|].
  destruct s as [|x t]; [reflexivity|].
  cbn [Regex.replace_g_fuel]. unfold Regex.matchAt.
  cbn [Regex.m List.filter]. simpl in Hf.
  destruct (p x); cbn [negb].
  - assert (Hlt : (length t <? length (x :: t))%nat = true)
      by (apply Nat.ltb_lt; simpl; lia).
    rewrite Hlt. cbn [app]. apply IH. lia.
  - f_equal. apply IH. lia.
Qed.

Lemma matchAt_whitespace s :
  Regex.matchAt whitespaceRe s
  = match s with
    | x :: t =>
      if JS.isWhiteSpace x
      then Some (JS.dropWhile JS.isWhiteSpace t, [None]) else None
    | [] => None
    end.
Proof.
  unfold Regex.matchAt, whitespaceRe, Regex.plus, Regex.space.
  cbn [Regex.m Regex.groups Nat.max replicate].
  destruct s as [|x t]; [reflexivity|].
  destruct (JS.isWhiteSpace x); [|reflexivity].
  apply (star_loop_class JS.isWhiteSpace). lia.
Qed.

Lemma dropWhile_head {A} (p : A -> bool) l x t :
  JS.dropWhile p l = x :: t -> p x = false.
Proof.
  induction l as [|y l IH]; [discriminate|]. simpl.
  destruct (p y) eqn:E; [exact IH|]. now intros [= <- _].
Qed.

Lemma dropWhile_id {A} (p : A -> bool) l :
  match l with x :: _ => p x = false | [] => True end ->
  JS.dropWhile p l = l.
Proof. destruct l as [|x t]; [reflexivity|]. simpl. now intros ->. Qed.

Lemma dropWhile_Forall {A} (p : A -> bool) (Q : A -> Prop) l :
  Forall Q l -> Forall Q (JS.dropWhile p l).
Proof.
  induction 1 as [|x l Hx Hl IH]; [constructor|]. simpl.
  destruct (p x); [exact IH|now constructor].
Qed.

Lemma dropWhile_snoc {A} (p : A -> bool) l x :
  p x = false -> JS.dropWhile p (l ++ [x]) = JS.dropWhile p l ++ [x].
Proof.
  intros Hx. induction l as [|y l IH]; simpl; [now rewrite Hx|].
  destruct (p y); [exact IH|reflexivity].
Qed.

(** The collapse of whitespace: what it keeps, and that it leaves single
    spaces only. *)
Lemma collapse_spec (Q : N -> Prop) : forall fuel s,
  (length s < fuel)%nat -> Q 32%N -> Forall Q s ->
  Forall Q (Regex.replace_g_fuel fuel whitespaceRe (JS.lit " ") s) /\
  tidy (Regex.replace_g_fuel fuel whitespaceRe (JS.lit " ") s) = true /\
  (forall x t, s = x :: t -> JS.isWhiteSpace x = false ->
     exists t', Regex.replace_g_fuel fuel whitespaceRe (JS.lit " ") s = x :: t').
Proof.
  induction fuel as [|fuel IH]; intros s Hf Q32 Hs; [lia|].
  cbn [Regex.replace_g_fuel]. rewrite matchAt_whitespace.
  destruct s as [|x t]; [repeat split; [constructor|discriminate]|].
  simpl in Hf. apply Forall_cons_iff in Hs as [Hx Ht].
  destruct (JS.isWhiteSpace x) eqn:Ex.
  - pose proof (dropWhile_length JS.isWhiteSpace t) as Hl.
    assert (Hlt : (length (JS.dropWhile JS.isWhiteSpace t)
                   <? length (x :: t))%nat = true)
      by (apply Nat.ltb_lt; simpl; lia).
    rewrite Hlt.
    destruct (IH (JS.dropWhile JS.isWhiteSpace t)) as (H1 & H2 & H3);
      [lia|exact Q32|now apply dropWhile_Forall|].
    change (JS.lit " ") with [32%N] in *. cbn [app].
    split; [now constructor|]. split.
    + cbn [tidy]. rewrite H2.
      change (JS.isWhiteSpace 32) with true. cbn [andb N.eqb Pos.eqb].
      rewrite andb_true_r.
      destruct (JS.dropWhile JS.isWhiteSpace t) as [|y u] eqn:Ed.
      * destruct fuel; [lia|]. cbn [Regex.replace_g_fuel].
        rewrite matchAt_whitespace. reflexivity.
      * pose proof (dropWhile_head _ _ _ _ Ed) as Hy.
        destruct (H3 y u eq_refl Hy) as [t' ->]. now rewrite Hy.
    + intros y u [= <- <-] Hy. congruence.
  - destruct (IH t) as (H1 & H2 & H3); [lia|exact Q32|exact Ht|].
    split; [now constructor|]. split.
    + cbn [tidy]. now rewrite Ex, H2.
    + intros y u [= <- <-] _. eauto.
Qed.

Lemma collapse_tidy : forall fuel s,
  (length s < fuel)%nat -> tidy s = true ->
  Regex.replace_g_fuel fuel whitespaceRe (JS.lit " ") s = s.
Proof.
  induction fuel as [|fuel IH]; intros s Hf Hs; [lia|].
  cbn [Regex.replace_g_fuel]. rewrite matchAt_whitespace.
  destruct s as [|x t]; [reflexivity|].
  simpl in Hf. cbn [tidy] in Hs. apply andb_true_iff in Hs as [Hx Ht].
  destruct (JS.isWhiteSpace x) eqn:Ex.
  - apply andb_true_iff in Hx as [Hx Hn]. apply N.eqb_eq in Hx. subst x.
    rewrite dropWhile_id
      by (destruct t; [exact I|now apply negb_true_iff in Hn]).
    assert (Hlt : (length t <? length (32%N :: t))%nat = true)
      by (apply Nat.ltb_lt; simpl; lia).
    rewrite Hlt. change (JS.lit " ") with [32%N]. cbn [app].
    f_equal. apply IH; [lia|exact Ht].
  - f_equal. apply IH; [lia|exact Ht].
Qed.

Lemma tidy_app_r a b : tidy (a ++ b) = true -> tidy b = true.
Proof.
  induction a as [|x a IH]; [auto|]. cbn [app tidy]. intros H.
  apply andb_true_iff in H as [_ H]. auto.
Qed.

Lemma tidy_app_l a b : tidy (a ++ b) = true -> tidy a = true.
Proof.
  induction a as [|x a IH]; [auto|]. cbn [app tidy]. intros H.
  apply andb_true_iff in H as [Hx H]. rewrite (IH H), andb_true_r.
  destruct (JS.isWhiteSpace x); [|reflexivity].
  apply andb_true_iff in Hx as [-> Hn]. destruct a; [reflexivity|exact Hn].
Qed.

(** [trim]: a part of the string, without whitespace at either end. *)
Lemma trimEnd_spec s :
  (exists b, s = JS.trimEnd s ++ b) /\
  (forall x, last (JS.trimEnd s) = Some x -> JS.isWhiteSpace x = false) /\
  (forall x t, s = x :: t -> JS.isWhiteSpace x = false ->
     exists t', JS.trimEnd s = x :: t').
Proof.
  unfold JS.trimEnd. split; [|split].
  - exists (rev (JS.takeWhile JS.isWhiteSpace (rev s))).
    rewrite <- rev_app_distr, take_drop_while. now rewrite rev_involutive.
  - intros x Hx. destruct (JS.dropWhile JS.isWhiteSpace (rev s)) as [|y u] eqn:E;
      [discriminate|].
    cbn [rev] in Hx. rewrite last_snoc in Hx. injection Hx as <-.
    exact (dropWhile_head _ _ _ _ E).
  - intros x t -> Hx. cbn [rev]. rewrite dropWhile_snoc by exact Hx.
    rewrite rev_app_distr. cbn. eauto.
Qed.

Lemma trim_spec s :
  (exists a b, s = a ++ JS.trim s ++ b) /\
  (forall x t, JS.trim s = x :: t -> JS.isWhiteSpace x = false) /\
  (forall x, last (JS.trim s) = Some x -> JS.isWhiteSpace x = false).
Proof.
  unfold JS.trim, JS.trimStart.
  destruct (trimEnd_spec (JS.dropWhile JS.isWhiteSpace s)) as ([b Hb] & H2 & H3).
  split; [|split; [|exact H2]].
  - exists (JS.takeWhile JS.isWhiteSpace s), b.
    rewrite <- Hb. now rewrite take_drop_while.
  - intros x t E.
    destruct (JS.dropWhile JS.isWhiteSpace s) as [|y u] eqn:Ed.
    + now vm_compute in E.
    + pose proof (dropWhile_head _ _ _ _ Ed) as Hy.
      destruct (H3 y u eq_refl Hy) as [t' E']. rewrite E' in E.
      now injection E as <- _.
Qed.

Lemma trim_id s :
  (forall x t, s = x :: t -> JS.isWhiteSpace x = false) ->
  (forall x, last s = Some x -> JS.isWhiteSpace x = false) ->
  JS.trim s = s.
Proof.
  intros Hh Hl. unfold JS.trim, JS.trimStart, JS.trimEnd.
  rewrite (dropWhile_id _ s) by (destruct s; [exact I|eauto]).
  rewrite dropWhile_id; [apply rev_involutive|].
  destruct (rev s) as [|x t] eqn:E; [exact I|].
  apply Hl. rewrite <- (rev_involutive s), E. cbn [rev]. apply last_snoc.
Qed.

(** The last replacement: a repetition of a class up to the end. *)
Lemma star_class_atEnd p c : forall fuel s,
  (length s < fuel)%nat ->
  Regex.star_loop (Regex.m (Regex.Chr p)) true atEnd fuel s c
  = if forallb p s then Some tt else None.
Proof.
  induction fuel as [|fuel IH]; intros s Hf; [lia|].
  cbn [Regex.star_loop Regex.m].
  destruct s as [|x t]; [reflexivity|].
  cbn [forallb atEnd]. simpl in Hf. destruct (p x); cbn [andb]; [|reflexivity].
  assert (Hlt : (length t <? length (x :: t))%nat = true)
    by (apply Nat.ltb_lt; simpl; lia).
  rewrite Hlt, IH by lia. now destruct (forallb p t).
Qed.

Lemma matchesToEnd_dotSpace s :
  matchesToEnd dotSpaceRe s
  = match s with [] => false | _ => forallb dotOrSpace s end.
Proof.
  unfold matchesToEnd, dotSpaceRe, Regex.plus.
  cbn [Regex.m Regex.groups Nat.max replicate].
  destruct s as [|x t]; [reflexivity|]. cbn [forallb].
  destruct (dotOrSpace x); cbn [andb]; [|reflexivity].
  pose proof (star_class_atEnd dotOrSpace [None] (S (length t)) t
                (Nat.lt_succ_diag_r _)) as H.
  cbn [Regex.m] in H. rewrite H. now destruct (forallb dotOrSpace t).
Qed.

Lemma forallb_last {A} (p : A -> bool) l x :
  last l = Some x -> forallb p l = true -> p x = true.
Proof.
  intros Hl Hp. rewrite forallb_forall in Hp. apply Hp.
  destruct l as [|y l] using rev_ind; [discriminate|].
  rewrite last_snoc in Hl. injection Hl as ->. apply in_or_app. right. now left.
Qed.

Lemma cut_spec s :
  (exists b, s = replaceAtEnd dotSpaceRe [] s ++ b) /\
  (forall x, last (replaceAtEnd dotSpaceRe [] s) = Some x ->
     dotOrSpace x = false).
Proof.
  induction s as [|y s [[b Hb] IH]].
  - cbn. split; [now exists []|discriminate].
  - cbn [replaceAtEnd]. rewrite matchesToEnd_dotSpace.
    destruct (forallb dotOrSpace (y :: s)) eqn:E.
    + split; [now exists (y :: s)|discriminate].
    + split; [exists b; cbn; now f_equal|].
      intros x Hx.
      destruct (replaceAtEnd dotSpaceRe [] s) as [|z u] eqn:Er.
      * cbn in Hx. injection Hx as <-.
        cbn [forallb] in E. apply andb_false_iff in E as [E|E]; [exact E|].
        destruct s as [|z u]; [discriminate|].
        cbn [replaceAtEnd] in Er. rewrite matchesToEnd_dotSpace in Er.
        now rewrite E in Er.
      * apply IH. rewrite <- Hx. reflexivity.
Qed.

Lemma cut_id s :
  (forall x, last s = Some x -> dotOrSpace x = false) ->
  replaceAtEnd dotSpaceRe [] s = s.
Proof.
  induction s as [|y s IH]; intros Hl.
  - reflexivity.
  - cbn [replaceAtEnd]. rewrite matchesToEnd_dotSpace.
    destruct (forallb dotOrSpace (y :: s)) eqn:E.
    + destruct (last (y :: s)) as [x|] eqn:El.
      * pose proof (Hl x eq_refl) as Hx.
        rewrite (forallb_last _ _ _ El E) in Hx. discriminate.
      * exfalso. clear -El. revert y El.
        induction s as [|z s IH]; intros y El; [discriminate|].
        now apply (IH z).
    + f_equal. apply IH. intros x Hx. apply Hl.
      destruct s; [discriminate|exact Hx].
Qed.

(** *** The whole function *)

Lemma filter_all_id {A} (f : A -> bool) l :
  Forall (fun c => f c = true) l -> List.filter f l = l.
Proof.
  induction 1 as [|x l Hx _ IH]; [reflexivity|]. cbn. now rewrite Hx, IH.
Qed.

Lemma tidy_whitespace s x :
  tidy s = true -> In x s -> JS.isWhiteSpace x = true -> x = 32%N.
Proof.
  induction s as [|y s IH]; [intros _ []|]. cbn [tidy]. intros H [<-|Hin] Hx.
  - rewrite Hx in H. apply andb_true_iff in H as [H _].
    apply andb_true_iff in H as [H _]. now apply N.eqb_eq in H.
  - apply andb_true_iff in H as [_ H]. auto.
Qed.

Lemma last_In {A} (l : list A) x : last l = Some x -> In x l.
Proof.
  destruct l as [|y l] using rev_ind; [discriminate|].
  rewrite last_snoc. intros [= ->]. apply in_or_app. right. now left.
Qed.

Lemma sanitized_safe name : safeName (sanitizeFolderName name).
Proof.
  unfold sanitizeFolderName, Regex.replace_g.
  rewrite (replace_g_class invalidChar) by lia.
  rewrite (replace_g_class fullwidthChar) by lia.
  set (n2 := List.filter (fun c => negb (fullwidthChar c))
               (List.filter (fun c => negb (invalidChar c)) name)).
  assert (Q2 : Forall (fun c => invalidChar c = false /\ fullwidthChar c = false)
                 n2).
  { apply List.Forall_forall. intros c Hc. apply filter_In in Hc as [Hc Hf].
    apply filter_In in Hc as [_ Hi].
    split; now apply negb_true_iff. }
  destruct (collapse_spec
              (fun c => invalidChar c = false /\ fullwidthChar c = false)
              (S (length n2)) n2) as (Q3 & T3 & _);
    [lia|split; vm_compute; reflexivity|exact Q2|].
  set (n3 := Regex.replace_g_fuel (S (length n2)) whitespaceRe (JS.lit " ") n2)
    in *.
  destruct (trim_spec n3) as ((a & b & E3) & H4 & L4).
  rewrite E3 in Q3, T3.
  apply Forall_app in Q3 as [_ Q3]. apply Forall_app in Q3 as [Q4 _].
  apply tidy_app_r, tidy_app_l in T3.
  destruct (cut_spec (JS.trim n3)) as ([b' E4] & L5).
  rewrite E4 in Q4, T3.
  apply Forall_app in Q4 as [Q5 _]. apply tidy_app_l in T3.
  split; [exact Q5|]. split; [exact T3|]. split; [|exact L5].
  intros x t E5 ->. rewrite E5 in E4. cbn in E4.
  now discriminate (H4 _ _ E4).
Qed.

Lemma safe_unchanged s : safeName s -> sanitizeFolderName s = s.
Proof.
  intros (Q & T & Hh & Hl).
  unfold sanitizeFolderName, Regex.replace_g.
  rewrite (replace_g_class invalidChar) by lia.
  rewrite filter_all_id
    by (eapply List.Forall_impl; [|exact Q]; intros c [-> _]; reflexivity).
  rewrite (replace_g_class fullwidthChar) by lia.
  rewrite filter_all_id
    by (eapply List.Forall_impl; [|exact Q]; intros c [_ ->]; reflexivity).
  rewrite collapse_tidy by (lia || exact T).
  assert (Hl' : forall x, last s = Some x -> JS.isWhiteSpace x = false).
  { intros x Hx. destruct (JS.isWhiteSpace x) eqn:E; [|reflexivity].
    rewrite (tidy_whitespace s x T (last_In _ _ Hx) E) in Hx.
    now discriminate (Hl _ Hx). }
  rewrite trim_id; [now apply cut_id| |exact Hl'].
  intros x t E. destruct (JS.isWhiteSpace x) eqn:Ex; [|reflexivity].
  subst s. destruct (Hh x t eq_refl).
  apply (tidy_whitespace (x :: t) x T); [now left|exact Ex].
Qed.

(** The result of [sanitizeFolderName] is a safe name, and the safe names
    are exactly the strings it leaves as they are; so a second application
    changes nothing. *)
Theorem sanitizeFolderName_fixed_points (s : jsstring) :
  safeName (sanitizeFolderName s) /\
  (sanitizeFolderName s = s <-> safeName s) /\
  sanitizeFolderName (sanitizeFolderName s) = sanitizeFolderName s.
Proof.
  split; [apply sanitized_safe|]. split.
  - split; [intros <-; apply sanitized_safe|apply safe_unchanged].
  - apply safe_unchanged, sanitized_safe.
Qed.

Lemma orElse_cases a b :
  orElse a b = b \/ exists x, a = Some x /\ x <> [] /\ orElse a b = x.
Proof.
  destruct a as [[|c x]|]; [now left| |now left].
  right. exists (c :: x). now repeat split.
Qed.

(** The output directory is empty (no folder chosen), or the chosen
    folder, or the chosen folder with one more path component made of the
    title: a safe name that is not empty, holds neither a slash nor a
    backslash, and is neither [.] nor [..]. *)
Theorem getOutputDir_component (baseFolder : option jsstring)
    (state : AppState) :
  getOutputDir baseFolder state = [] \/
  exists folder,
    folder <> [] /\
    (baseFolder = Some folder \/ downloadFolder state = Some folder) /\
    (getOutputDir baseFolder state = folder \/
     exists name,
       getOutputDir baseFolder state = folder ++ JS.lit "/" ++ name /\
       name <> [] /\ safeName name /\
       Forall (fun c => c <> 47%N /\ c <> 92%N) name /\
       name <> JS.lit "." /\ name <> JS.lit "..").
Proof.
  unfold getOutputDir.
  destruct (orElse baseFolder (orElse (downloadFolder state) []))
    as [|c folder] eqn:Ef; [now left|].
  right. exists (c :: folder). split; [discriminate|]. split.
  - destruct (orElse_cases baseFolder (orElse (downloadFolder state) []))
      as [E|(x & E & _ & E')].
    + rewrite E in Ef.
      destruct (orElse_cases (downloadFolder state) []) as [E'|(x & E' & _ & E'')];
        [congruence|]. right. congruence.
    + left. congruence.
  - destruct (animeDetail state) as [detail|]; [|now left].
    pose proof (sanitized_safe (title detail)) as Hsafe.
    destruct (sanitizeFolderName (title detail)) as [|d name] eqn:En;
      [now left|].
    right. exists (d :: name). split; [reflexivity|]. split; [discriminate|].
    split; [exact Hsafe|]. destruct Hsafe as (Q & _ & _ & Hl).
    split; [|split].
    + eapply List.Forall_impl; [|exact Q]. intros x [Hx _].
      split; intros ->; now vm_compute in Hx.
    + intros E. injection E as -> ->. now discriminate (Hl 46%N eq_refl).
    + intros E. injection E as -> ->. now discriminate (Hl 46%N eq_refl).
Qed.

(** *** The submission of a job *)

(** A job the renderer submits requests at least one episode, all of them
    selected, and names an output directory; the main process answers it
    with success, whether it starts its worker at once or queues it. *)
Theorem startDownloadFlow_accepted (state : AppState) (o : DownloadOptions) :
  startDownloadFlow state = Some o ->
  opt_episodes o <> [] /\
  Forall (fun ep => ep_number ep ∈ selectedEpisodes state) (opt_episodes o) /\
  opt_outputDir o <> [] /\
  forall host st w,
    mainWindow st = Some w ->
    (queueProcessing st = false -> downloadQueue st = []) ->
    snd (step host (StartDownload o) st) = Return (Some (mkReply true None)).
Proof.
  unfold startDownloadFlow. intros H.
  destruct (animeDetail state) as [detail|] eqn:Ed; [|discriminate].
  destruct (orElse (downloadFolder state) []) as [|c folder] eqn:Ef;
    [discriminate|].
  destruct (seasons detail !! activeSeason state) as [season|]; [|discriminate].
  destruct (List.filter _ (season_episodes season)) as [|ep eps] eqn:Ee;
    [discriminate|].
  injection H as <-. cbn [opt_episodes opt_outputDir].
  split; [discriminate|]. split; [|split].
  - rewrite <- Ee. apply List.Forall_forall. intros x Hx.
    apply filter_In in Hx as [_ Hx]. now apply bool_decide_eq_true in Hx.
  - unfold getOutputDir. cbn [orElse]. rewrite Ef, Ed.
    destruct (sanitizeFolderName (title detail)); discriminate.
  - intros host st w Hw Hq. destruct (queueProcessing st) eqn:Eb.
    + now rewrite (step_Start_busy_full host st w _ Hw Eb).
    + rewrite (step_Start_idle_full host st w _ Hw Eb), (Hq eq_refl).
      cbn [app]. erewrite processQueue_spawns; reflexivity.
Qed.

Lemma startDownloadFlow_accepted_witness :
  opt_episodes
    (mkDownloadOptions (JS.lit "rezero") [episode1; episode5]
       (JS.lit "/home/me/anime/....ReZero 2nd")
       (JS.lit "https://tw.xgcartoon.com/detail/rezero")) <> [] /\
  snd (step linuxHost
         (StartDownload
            (mkDownloadOptions (JS.lit "rezero") [episode1; episode5]
               (JS.lit "/home/me/anime/....ReZero 2nd")
               (JS.lit "https://tw.xgcartoon.com/detail/rezero")))
         (initialState (Some 1%nat)))
  = Return (Some (mkReply true None)).
Proof.
  destruct (startDownloadFlow_accepted shownState
              (mkDownloadOptions (JS.lit "rezero") [episode1; episode5]
                 (JS.lit "/home/me/anime/....ReZero 2nd")
                 (JS.lit "https://tw.xgcartoon.com/detail/rezero")))
    as (H1 & _ & _ & H4).
  - vm_compute. reflexivity.
  - split; [exact H1|]. apply (H4 linuxHost (initialState (Some 1%nat)) 1%nat);
      reflexivity.
Defined.

(** ** [getAnimeDetail]: the address fetched, update date and status *)

Example updateDate_example :
  updateDate (JS.lit "狀態 更新時間： 2024/01-15 更新至 第 12 集 完") = JS.lit "2024/01-15" /\
  status (JS.lit "狀態 更新時間： 2024/01-15 更新至 第 12 集 完") = JS.lit "更新至 第 12 集" /\
  updateDate (JS.lit "更新時間：2024/1/5") = [].
Proof. vm_compute. auto. Qed.

Lemma Matches_Chr_inv p u :
  Matches (Regex.Chr p) u -> exists x, u = [x] /\ p x = true.
Proof. intros H. inversion H; subst. eauto. Qed.

(** The update date is empty, or ten code units that read as a date: four
    digits, a separator, two digits, a separator and two digits. *)
Theorem updateDate_shape (bodyText : jsstring) :
  updateDate bodyText = [] \/ dateShaped (updateDate bodyText).
Proof.
  unfold updateDate.
  destruct (Regex.exec updateDateRe bodyText) as [found|] eqn:E; [|now left].
  apply exec_sound in E as (pre & u & post & _ & _ & C & _);
    [|vm_compute; reflexivity].
  unfold updateDateRe in C. repeat rewrite Captured_seqs_cons in C.
  cbn [Captured] in C. destruct C as (_ & _ & _ & ((d & Hd & M) & _) & _).
  rewrite (group_lookup _ _ _ Hd). right.
  repeat (apply Matches_seqs_cons in M as (? & ? & -> & ?%Matches_Chr_inv & M)).
  apply Matches_seqs_nil in M. subst.
  repeat match goal with
         | H : exists x, _ = [x] /\ _ |- _ => destruct H as (? & -> & ?)
         end.
  cbn [app orElse]. unfold dateShaped. do 10 eexists.
  split; [reflexivity|]. split; [repeat constructor; assumption|].
  split; assumption.
Qed.

Lemma trim_text_ends a mid z :
  JS.isWhiteSpace a = false -> JS.isWhiteSpace z = false ->
  JS.trim (a :: mid ++ [z]) = a :: mid ++ [z].
Proof.
  intros Ha Hz. apply trim_id.
  - now intros x t [= <- _].
  - intros x. rewrite app_comm_cons, last_snoc. now intros [= <-].
Qed.

(** The status is empty, or a text from the first label to the counter:
    the label, a stretch without line terminator, the second label, and a
    number with white space allowed around it. *)
Theorem status_shape (bodyText : jsstring) :
  status bodyText = [] \/
  exists between sp1 digits sp2,
    status bodyText
    = JS.lit "更新至" ++ between ++ JS.lit "第" ++ sp1 ++ digits ++ sp2
        ++ JS.lit "集" /\
    allOf (fun c => negb (JS.isLineTerminator c)) between /\
    allOf JS.isWhiteSpace sp1 /\ digits <> [] /\ allOf JS.isDigit digits /\
    allOf JS.isWhiteSpace sp2.
Proof.
  unfold status.
  destruct (Regex.exec statusRe bodyText) as [found|] eqn:E; [|now left].
  apply exec_sound in E as (pre & u & post & _ & M & _ & G);
    [|vm_compute; reflexivity].
  rewrite G. cbn [option_map]. right. unfold statusRe in M.
  apply Matches_seqs_cons in M as (t1 & r1 & -> & ->%Matches_text & M).
  apply Matches_seqs_cons in M as (between & r2 & -> & Hb%Matches_star_class & M).
  apply Matches_seqs_cons in M as (t2 & r3 & -> & ->%Matches_text & M).
  apply Matches_seqs_cons in M as (sp1 & r4 & -> & H1%Matches_star_class & M).
  apply Matches_seqs_cons in M as (digits & r5 & -> & Hg & M).
  inversion Hg as [| | | | | | |i a u' Hd]; subst.
  apply Matches_plus_class in Hd as [Hne Hd].
  apply Matches_seqs_cons in M as (sp2 & r6 & -> & H2%Matches_star_class & M).
  apply Matches_seqs_cons in M as (t3 & r7 & -> & ->%Matches_text & M).
  apply Matches_seqs_nil in M. subst r7. rewrite app_nil_r.
  exists between, sp1, digits, sp2.
  split; [|repeat split; assumption].
  remember (JS.lit "更新至") as l1 eqn:E1. vm_compute in E1.
  remember (JS.lit "集") as l3 eqn:E3. vm_compute in E3. subst l1 l3.
  cbn [app].
  match goal with
  | |- orElse (Some (JS.trim (?a :: ?b :: ?c :: ?rest))) [] = _ =>
    replace (a :: b :: c :: rest)
      with (a :: (b :: c :: between ++ JS.lit "第" ++ sp1 ++ digits ++ sp2)
              ++ [38598%N])
      by (cbn [app]; now rewrite <- !app_assoc)
  end.
  rewrite trim_text_ends by reflexivity.
  cbn [orElse app]. now rewrite <- !app_assoc.
Qed.

(** The address [getAnimeDetail] fetches for the detail URL of a search
    result is that URL itself, and in general the address the search
    would give for the same link. *)
Theorem detail_url_as_search (anchors : list SearchAnchor) :
  (forall href, normalizeDetailUrl href = absoluteUrl href) /\
  Forall (fun r => normalizeDetailUrl (sr_detailUrl r) = sr_detailUrl r)
         (searchAnime anchors).
Proof.
  split.
  - intros href. unfold normalizeDetailUrl, absoluteUrl.
    destruct (JS.startsWith href (JS.lit "http")) eqn:Eh; cbn [negb];
      [|reflexivity].
    destruct href as [|c href]; [discriminate|].
    cbn in Eh. apply andb_true_iff in Eh as [Ec _]. apply N.eqb_eq in Ec.
    subst c. reflexivity.
  - assert (Hw : Forall wellFormedResult (searchAnime anchors)).
    { unfold searchAnime.
      apply (search_loop_invariant anchors [] ∅ []); try constructor.
      intros u []. }
    eapply List.Forall_impl; [|exact Hw]. intros r (_ & Hh & _).
    unfold normalizeDetailUrl. now rewrite Hh.
Qed.

(** ** Escaping and decoding *)

Lemma tokenOf_In tbl c tok :
  tokenOf tbl c = Some tok -> exists k, In (k, tok) tbl.
Proof.
  induction tbl as [|[k tk] l IH]; [discriminate|]. cbn [tokenOf].
  destruct (k =? c)%N.
  - intros [= ->]. exists k. now left.
  - intros E. destruct (IH E) as [k' H]. exists k'. now right.
Qed.

Section Pass.
Context (ch : N) (body : jsstring) (tbl : list (N * jsstring)).
Context (Hok : passOk ch body tbl = true).

Lemma passOk_body :
  body <> [] /\
  Forall (fun b => b <> 38%N /\ tokenOf ((ch, []) :: tbl) b = None) body.
Proof.
  unfold passOk in Hok. destruct body as [|h t] eqn:Eb; [discriminate|].
  split; [discriminate|].
  apply andb_true_iff in Hok as [H _]. apply andb_true_iff in H as [H _].
  apply List.Forall_forall. intros b Hb.
  rewrite forallb_forall in H. specialize (H b Hb).
  apply andb_true_iff in H as [H1 H2]. split.
  - intros ->. discriminate.
  - destruct (tokenOf ((ch, []) :: tbl) b); [discriminate|reflexivity].
Qed.

Lemma passOk_tokens c tok :
  tokenOf tbl c = Some tok ->
  exists h h' rest t,
    body = h :: t /\ tok = 38%N :: h' :: rest /\ h' <> h /\
    Forall (fun b => b <> 38%N) (h' :: rest).
Proof.
  intros Et. apply tokenOf_In in Et as [k Hin].
  unfold passOk in Hok. destruct body as [|h t]; [discriminate|].
  apply andb_true_iff in Hok as [H _]. apply andb_true_iff in H as [_ H].
  rewrite forallb_forall in H. specialize (H (k, tok) Hin). cbn in H.
  destruct tok as [|a [|h' rest]]; try discriminate.
  - destruct a; [discriminate|]. repeat (destruct p; try discriminate).
  - destruct a as [|p]; try discriminate.
    assert (Ea : N.pos p = 38%N).
    { destruct p as [p|p|]; try discriminate.
      repeat (destruct p as [p|p|]; try discriminate). reflexivity. }
    injection Ea as ->. apply andb_true_iff in H as [H1 H2].
    exists h, h', rest, t. repeat split.
    + intros ->. now rewrite N.eqb_refl in H1.
    + change (forallb (fun b => negb (b =? 38)%N) (h' :: rest) = true) in H2.
      apply List.Forall_forall. intros b Hb. rewrite forallb_forall in H2.
      specialize (H2 b Hb). intros ->. discriminate.
Qed.

Lemma passOk_fresh : tokenOf tbl ch = None.
Proof.
  unfold passOk in Hok. destruct body; [discriminate|].
  apply andb_true_iff in Hok as [_ H].
  destruct (tokenOf tbl ch); [discriminate|reflexivity].
Qed.

Lemma escapeWith_cons (t : list (N * jsstring)) c s :
  escapeWith t (c :: s)
  = match tokenOf t c with Some tok => tok | None => [c] end
    ++ escapeWith t s.
Proof. unfold escapeWith. cbn [flat_map]. now destruct (tokenOf t c). Qed.

Lemma tokenOf_head c :
  tokenOf ((ch, 38%N :: body) :: tbl) c
  = if (ch =? c)%N then Some (38%N :: body) else tokenOf tbl c.
Proof. reflexivity. Qed.

(** A body read at the start of an escaped text is read at the start of
    the text. *)
Lemma startsWith_escaped b :
  Forall (fun x => x <> 38%N /\ tokenOf ((ch, []) :: tbl) x = None) b ->
  forall s,
    JS.startsWith (escapeWith ((ch, 38%N :: body) :: tbl) s) b
    = JS.startsWith s b.
Proof.
  induction 1 as [|x b [Hx Hf] _ IH]; intros s.
  - cbn. now destruct s, (escapeWith _ _).
  - destruct s as [|c s]; [reflexivity|].
    rewrite escapeWith_cons, tokenOf_head. cbn [tokenOf] in Hf.
    assert (Hxc : tokenOf ((ch, 38%N :: body) :: tbl) c <> None -> x <> c).
    { intros Hc ->. apply Hc. rewrite tokenOf_head.
      destruct (ch =? c)%N; [discriminate|exact Hf]. }
    rewrite tokenOf_head in Hxc.
    destruct (ch =? c)%N.
    + cbn [app JS.startsWith].
      destruct (N.eqb_spec x 38); [contradiction|].
      destruct (N.eqb_spec x c) as [E|_]; [|reflexivity].
      now destruct (Hxc ltac:(discriminate)).
    + destruct (tokenOf tbl c) as [tok|] eqn:Et.
      * destruct (passOk_tokens c tok Et) as (h & h' & rest & t & _ & -> & _).
        cbn [app JS.startsWith].
        destruct (N.eqb_spec x 38); [contradiction|].
        destruct (N.eqb_spec x c) as [E|_]; [|reflexivity].
        now destruct (Hxc ltac:(discriminate)).
      * cbn [app JS.startsWith]. now rewrite IH.
Qed.

Lemma replaceAll_hit p r s :
  (0 < length p)%nat ->
  JS.replaceAll p r (p ++ s) = r ++ JS.replaceAll p r s.
Proof.
  intros Hp. destruct p as [|c p]; [simpl in Hp; lia|].
  cbn [app]. rewrite replaceAll_cons by exact Hp.
  change (c :: p ++ s) with ((c :: p) ++ s).
  now rewrite startsWith_app, drop_app_length.
Qed.

(** One replacement undoes the escaping of one character. *)
Lemma pass_undoes s :
  ch = 38%N \/
  (tokenOf ((ch, []) :: tbl) 38%N = None /\
   JS.includes s (38%N :: body) = false) ->
  JS.replaceAll (38%N :: body) [ch] (escapeWith ((ch, 38%N :: body) :: tbl) s)
  = escapeWith tbl s.
Proof.
  destruct passOk_body as [Hne Hbody]. pose proof passOk_fresh as Hfresh.
  induction s as [|c s IH]; intros Hamp; [reflexivity|].
  assert (Hamp' : ch = 38%N \/
            (tokenOf ((ch, []) :: tbl) 38%N = None /\
             JS.includes s (38%N :: body) = false)).
  { destruct Hamp as [?|[H1 H2]]; [now left|right]. split; [exact H1|].
    cbn [JS.includes] in H2. now apply orb_false_iff in H2 as [_ H2]. }
  specialize (IH Hamp').
  rewrite !escapeWith_cons, tokenOf_head.
  destruct (N.eqb_spec ch c) as [<-|Hc].
  - rewrite replaceAll_hit by (simpl; lia).
    now rewrite IH, Hfresh.
  - destruct (tokenOf tbl c) as [tok|] eqn:Et.
    + destruct (passOk_tokens c tok Et)
        as (h & h' & rest & t & Eb & -> & Hh & Hrest).
      cbn [app]. rewrite replaceAll_cons by (simpl; lia).
      rewrite Eb. cbn [JS.startsWith app]. rewrite N.eqb_refl.
      destruct (N.eqb_spec h h'); [congruence|]. cbn [andb].
      rewrite <- Eb.
      change (h' :: rest ++ escapeWith ((ch, 38%N :: body) :: tbl) s)
        with ((h' :: rest) ++ escapeWith ((ch, 38%N :: body) :: tbl) s).
      rewrite replaceAll_prefix by exact Hrest. now rewrite IH.
    + cbn [app]. rewrite replaceAll_cons by (simpl; lia).
      cbn [JS.startsWith]. destruct (N.eqb_spec 38 c) as [<-|Hc'].
      * destruct Hamp as [->|[H1 H2]]; [contradiction|].
        rewrite startsWith_escaped by exact Hbody.
        cbn [JS.includes JS.startsWith] in H2.
        apply orb_false_iff in H2 as [H2 _]. rewrite N.eqb_refl in H2.
        cbn [andb] in H2. rewrite H2. cbn [andb]. now rewrite IH.
      * cbn [andb]. now rewrite IH.
Qed.
End Pass.

Lemma escapeWith_nil s : escapeWith [] s = s.
Proof. induction s as [|c s IH]; [reflexivity|]. cbn. now f_equal. Qed.

(** Decoding undoes escaping: a text in which none of [&lt;], [&gt;],
    [&quot;] and [&#39;] occurs is what its escaped form decodes to. *)
Theorem decode_escape (s : jsstring) :
  Forall (fun e => JS.includes s e = false) (tail entities) ->
  decodeHtmlEntities (escapeEntities s) = s.
Proof.
  intros H. unfold entities in H. cbn [tail] in H.
  repeat match type of H with
         | Forall _ (_ :: _) => apply Forall_cons_iff in H as [? H]
         end.
  unfold decodeHtmlEntities, escapeEntities, entityTable.
  change (JS.lit "&amp;") with (38%N :: JS.lit "amp;") in *.
  change (JS.lit "&lt;") with (38%N :: JS.lit "lt;") in *.
  change (JS.lit "&gt;") with (38%N :: JS.lit "gt;") in *.
  change (JS.lit "&quot;") with (38%N :: JS.lit "quot;") in *.
  change (JS.lit "&#39;") with (38%N :: JS.lit "#39;") in *.
  change (JS.lit "&") with [38%N]. change (JS.lit "<") with [60%N].
  change (JS.lit ">") with [62%N]. change (JS.lit "'") with [39%N].
  rewrite pass_undoes by ((vm_compute; reflexivity) || now left).
  rewrite pass_undoes
    by ((vm_compute; reflexivity) || (right; split; [reflexivity|assumption])).
  rewrite pass_undoes
    by ((vm_compute; reflexivity) || (right; split; [reflexivity|assumption])).
  rewrite pass_undoes
    by ((vm_compute; reflexivity) || (right; split; [reflexivity|assumption])).
  rewrite pass_undoes
    by ((vm_compute; reflexivity) || (right; split; [reflexivity|assumption])).
  apply escapeWith_nil.
Qed.

Lemma decode_escape_witness :
  decodeHtmlEntities (escapeEntities (JS.lit "Tom & Jerry <3 'x' &amp; more"))
  = JS.lit "Tom & Jerry <3 'x' &amp; more".
Proof.
  apply (decode_escape (JS.lit "Tom & Jerry <3 'x' &amp; more")).
  repeat constructor.
Defined.

(** A text in which a token occurs is not what its escaped form decodes
    to: the escaped [&] of the token is decoded first, and the token that
    this leaves is decoded next. *)
Example decode_escape_token :
  escapeEntities (JS.lit "a &lt; b") = JS.lit "a &amp;lt; b" /\
  decodeHtmlEntities (escapeEntities (JS.lit "a &lt; b")) = JS.lit "a < b".
Proof. vm_compute. auto. Qed.

(** ** Shortcut entries and chapter identifiers *)

(** The chapter identifier of a link is recorded before the link is
    tested for being a shortcut to the latest episode: a shortcut gives no
    episode and uses up its chapter identifier, so that every later link
    to that chapter is dropped as already seen. *)
Theorem shortcut_uses_up_chapter_id (seen : gset jsstring)
    (t1 h1 id : jsstring) :
  textRejected t1 = false -> Regex.test shortcutRe t1 = true ->
  chapterIdOf h1 = Some id ->
  snd (episodeOf seen t1 h1) = None /\
  id ∈ fst (episodeOf seen t1 h1) /\
  forall seen' t2 h2,
    fst (episodeOf seen t1 h1) ⊆ seen' -> chapterIdOf h2 = Some id ->
    snd (episodeOf seen' t2 h2) = None.
Proof.
  intros Hr Hs Hid. unfold chapterIdOf in Hid.
  destruct (Regex.exec chapterIdRe h1) as [cm|] eqn:E1; [|discriminate].
  injection Hid as Hid.
  assert (H1 : snd (episodeOf seen t1 h1) = None /\
               id ∈ fst (episodeOf seen t1 h1)).
  { unfold episodeOf. rewrite Hr, E1. cbv zeta. rewrite Hid.
    destruct (decide (id ∈ seen)) as [Hin|Hnin].
    - rewrite (bool_decide_eq_true_2 _ Hin). now split.
    - rewrite (bool_decide_eq_false_2 _ Hnin), Hs. cbn. split; [reflexivity|].
      set_solver. }
  destruct H1 as [H1 H2]. split; [exact H1|]. split; [exact H2|].
  intros seen' t2 h2 Hsub Hid2. unfold chapterIdOf in Hid2.
  destruct (Regex.exec chapterIdRe h2) as [cm2|] eqn:E2; [|discriminate].
  injection Hid2 as Hid2.
  unfold episodeOf. destruct (textRejected t2); [reflexivity|].
  rewrite E2. cbv zeta. rewrite Hid2.
  assert (Hin : id ∈ seen') by set_solver.
  now rewrite (bool_decide_eq_true_2 _ Hin).
Qed.

Lemma shortcut_uses_up_chapter_id_witness :
  snd (episodeOf ∅ (JS.lit "第1集 第12話") (JS.lit "/user/page?chapter_id=c12"))
  = None /\
  JS.lit "c12"
    ∈ fst (episodeOf ∅ (JS.lit "第1集 第12話")
             (JS.lit "/user/page?chapter_id=c12")) /\
  forall seen' t2 h2,
    fst (episodeOf ∅ (JS.lit "第1集 第12話")
           (JS.lit "/user/page?chapter_id=c12")) ⊆ seen' ->
    chapterIdOf h2 = Some (JS.lit "c12") ->
    snd (episodeOf seen' t2 h2) = None.
Proof.
  apply (shortcut_uses_up_chapter_id ∅ (JS.lit "第1集 第12話")
           (JS.lit "/user/page?chapter_id=c12") (JS.lit "c12"));
    vm_compute; reflexivity.
Defined.

(** A page that lists the latest episode first, as a shortcut: the
    episode itself is missing from the result. *)
Example shortcut_hides_episode :
  extractSeasons
    (mkDetailPage
       (Some [ mkChild true (JS.lit "第一季") [];
               mkChild false [] [latestShortcut];
               mkChild false [] [mkLink (JS.lit "第11話")
                                   (Some (JS.lit "/user/page?chapter_id=c11"))];
               mkChild false [] [episode12Link] ])
       [])
  = [mkSeason (JS.lit "第一季")
       [mkEpisode 11 (JS.lit "第11話") (JS.lit "/user/page?chapter_id=c11")]].
Proof. vm_compute. reflexivity. Qed.
